(** * Binarizationlab: the binarization algorithm library, embedded in Rocq

    A shallow embedding of [src/utils/binarizationAlgorithms.ts]:
    grayscale conversion, local window statistics, Otsu's histogram search
    and the seven local threshold formulas.

    Conventions of the embedding.
    - A JavaScript [number] is an IEEE 754 binary64 value, modelled by
      [spec_float] with the reference operations of [SpecFloat]
      (round to nearest, ties to even; one NaN).
    - [Uint8ClampedArray] and [ImageData.data] are lists of bytes held in
      [Z]; a read out of range yields [undefined], which every arithmetic
      use turns into NaN; a write out of range is dropped.
    - Loop counters, coordinates and array indices are integers ([nat] for
      the image dimensions, [Z] where the source subtracts).
    - [Promise<ImageData | null>] is [option ImageData]; the timer that
      defers the work carries no behaviour and the unused [canvas]
      argument is omitted. *)

From Stdlib Require Import ZArith Lia Bool List Reals Lra Floats.SpecFloat.
From stdpp Require Import base list.

Local Open Scope Z_scope.

(** ** JavaScript numbers *)

Module JS.

Definition number : Type := spec_float.

Definition prec : Z := 53.
Definition emax : Z := 1024.

Definition NaN : number := S754_nan.

(** An integer literal or an integer-valued quantity, as a number. *)
Definition of_Z (z : Z) : number := binary_normalize prec emax z 0 false.

Definition add : number -> number -> number := SFadd prec emax.
Definition sub : number -> number -> number := SFsub prec emax.
Definition mul : number -> number -> number := SFmul prec emax.
Definition div : number -> number -> number := SFdiv prec emax.
Definition sqrt : number -> number := SFsqrt prec emax.
Definition neg : number -> number := SFopp.

(** [a > b] and [a === b] on numbers. *)
Definition gt (a b : number) : bool := SFltb b a.
Definition strict_eq (a b : number) : bool := SFeqb a b.

(** [Math.max] and [Math.min]: NaN if either argument is NaN, and +0 is
    larger than -0. *)
Definition Math_max (a b : number) : number :=
  match SFcompare a b with
  | None => NaN
  | Some Lt => b
  | Some Gt => a
  | Some Eq => match a with S754_zero true => b | _ => a end
  end.

Definition Math_min (a b : number) : number :=
  match SFcompare a b with
  | None => NaN
  | Some Lt => a
  | Some Gt => b
  | Some Eq => match a with S754_zero false => b | _ => a end
  end.

(** [Math.ceil] of a number, as the integer it returns (0 for the values
    that have no integer ceiling, which division of two positive integers
    never produces). *)
Definition ceilZ (x : number) : Z :=
  match x with
  | S754_finite s m e =>
      if 0 <=? e then cond_Zopp s (Z.pos m * 2 ^ e)
      else if s then - (Z.pos m / 2 ^ (- e))
      else - ((- Z.pos m) / 2 ^ (- e))
  | _ => 0
  end.

(** Round to the nearest integer, ties to even, of [m * 2^e]. *)
Definition round_half_even (m : positive) (e : Z) : Z :=
  if 0 <=? e then Z.pos m * 2 ^ e
  else
    let d := 2 ^ (- e) in
    let f := Z.pos m / d in
    match (2 * (Z.pos m mod d)) ?= d with
    | Lt => f
    | Gt => f + 1
    | Eq => if Z.even f then f else f + 1
    end.

(** The conversion a [Uint8ClampedArray] applies to a stored number
    (ECMAScript ToUint8Clamp): NaN becomes 0, the value is clamped to
    [0,255] and rounded to the nearest integer, ties to even. *)
Definition ToUint8Clamp (x : number) : Z :=
  match x with
  | S754_nan => 0
  | S754_zero _ => 0
  | S754_infinity s => if s then 0 else 255
  | S754_finite true _ _ => 0
  | S754_finite false m e =>
      let v := round_half_even m e in
      if 255 <=? v then 255 else v
  end.

(** The conversion a [Float32Array] applies to a stored number: rounding
    to binary32, read back as a binary64 value. *)
Definition to_f32 (x : number) : number :=
  match x with
  | S754_finite s m e => binary_round 24 128 s m e
  | _ => x
  end.

Definition zero : number := S754_zero false.
Definition one : number := Eval vm_compute in of_Z 1.

(** Decimal literals of the source, each the binary64 value nearest to
    the decimal (a correctly rounded quotient of two exact integers). *)
Definition lit_0_299 : number := Eval vm_compute in div (of_Z 299) (of_Z 1000).
Definition lit_0_587 : number := Eval vm_compute in div (of_Z 587) (of_Z 1000).
Definition lit_0_114 : number := Eval vm_compute in div (of_Z 114) (of_Z 1000).
Definition lit_0_5 : number := Eval vm_compute in div (of_Z 1) (of_Z 2).
Definition lit_m0_2 : number := Eval vm_compute in neg (div (of_Z 2) (of_Z 10)).

(** The binary64 representation of a positive integer below 2^53: the
    mantissa shifted to 53 bits. Used to state what [of_Z] returns. *)
Definition norm_m (p : positive) : positive :=
  Z.to_pos (Z.pos p * 2 ^ (53 - Z.pos (digits2_pos p))).
Definition norm_e (p : positive) : Z := Z.pos (digits2_pos p) - 53.
Definition canon (s : bool) (p : positive) : number :=
  S754_finite s (norm_m p) (norm_e p).

(** ToNumber of an array read: [undefined] is NaN. *)
Definition of_read (o : option Z) : number :=
  match o with
  | Some v => of_Z v
  | None => NaN
  end.

End JS.

Import JS.

(** ** Images and typed arrays *)

Record ImageData := mkImageData {
  width : nat;
  height : nat;
  data : list Z
}.

(** [a[i]] for an integer index that may be negative. *)
Definition aget (a : list Z) (i : Z) : option Z :=
  if i <? 0 then None else a !! Z.to_nat i.

Definition read (a : list Z) (i : Z) : number := of_read (aget a i).

(** [new ImageData(width, height)]: a zero-filled RGBA buffer. *)
Definition new_ImageData (w h : nat) : ImageData :=
  mkImageData w h (replicate (4 * w * h) 0).

(** ** toGrayscale *)

Definition luminance (r g b : number) : number :=
  add (add (mul lit_0_299 r) (mul lit_0_587 g)) (mul lit_0_114 b).

(** One iteration of the loop, at [i = 4 * p]. *)
Definition toGrayscale_step (pixels : list Z) (grayscale : list Z) (p : nat) : list Z :=
  let i := (4 * p)%nat in
  let r := of_read (pixels !! i) in
  let g := of_read (pixels !! (i + 1)%nat) in
  let b := of_read (pixels !! (i + 2)%nat) in
  let gray := luminance r g b in
  <[p := ToUint8Clamp gray]> grayscale.

(** [for (i = 0; i < data.length; i += 4)] runs ceil(length / 4) times. *)
Definition toGrayscale (imgData : ImageData) : list Z :=
  let pixels := data imgData in
  let grayscale := replicate (width imgData * height imgData) 0 in
  foldl (toGrayscale_step pixels) grayscale (seq 0 ((length pixels + 3) / 4)%nat).

(** ** applyThreshold *)

Inductive threshold_arg :=
  | Scalar (t : number)
  | PerPixel (ts : list number).

Definition threshold_at (threshold : threshold_arg) (i : nat) : number :=
  match threshold with
  | Scalar t => t
  | PerPixel ts => match ts !! i with Some t => t | None => NaN end
  end.

(** [gray > t ? 255 : 0] *)
Definition classify (gray t : number) : Z := if gt gray t then 255 else 0.

Definition put_pixel (buf : list Z) (pixelIndex : nat) (value : Z) : list Z :=
  <[(pixelIndex + 3)%nat := 255]>
    (<[(pixelIndex + 2)%nat := value]>
      (<[(pixelIndex + 1)%nat := value]>
        (<[pixelIndex := value]> buf))).

Definition applyThreshold (grayscale : list Z) (threshold : threshold_arg)
    (w h : nat) : ImageData :=
  let result := new_ImageData w h in
  let buf :=
    foldl (fun buf i =>
             let gray := of_read (grayscale !! i) in
             let t := threshold_at threshold i in
             put_pixel buf (i * 4)%nat (classify gray t))
          (data result) (seq 0 (length grayscale)) in
  mkImageData w h buf.

(** ** calculateLocalStats *)

Record LocalStats := mkLocalStats {
  mean : number;
  variance : number;
  stdDev : number
}.

Record WindowSums := mkWindowSums {
  sum : number;
  squaredSum : number;
  count : number
}.

Definition window_pixel (grayscale : list Z) (w : Z) (wy : Z) (acc : WindowSums) (wx : Z)
    : WindowSums :=
  let pixel := read grayscale (wy * w + wx) in
  mkWindowSums (add (sum acc) pixel)
               (add (squaredSum acc) (mul pixel pixel))
               (add (count acc) one).

(** [for (v = lo; v <= hi; v++)] *)
Definition range_incl (lo hi : Z) : list Z := seqZ lo (hi - lo + 1).

Definition window_sums (grayscale : list Z) (w : Z) (sx ex sy ey : Z)
    : WindowSums :=
  foldl (fun acc wy => foldl (window_pixel grayscale w wy) acc (range_incl sx ex))
        (mkWindowSums zero zero zero) (range_incl sy ey).

Definition stats_of_sums (acc : WindowSums) : LocalStats :=
  let mean := div (sum acc) (count acc) in
  let variance := sub (div (squaredSum acc) (count acc)) (mul mean mean) in
  let stdDev := sqrt variance in
  mkLocalStats mean variance stdDev.

Record Window := mkWindow {
  startX : Z;
  endX : Z;
  startY : Z;
  endY : Z
}.

(** The window clamped to the image; [Math.floor(windowSize / 2)] is the
    integer quotient. *)
Definition window_of (x y w h windowSize : Z) : Window :=
  let halfWindow := windowSize / 2 in
  mkWindow (Z.max 0 (x - halfWindow)) (Z.min (w - 1) (x + halfWindow))
           (Z.max 0 (y - halfWindow)) (Z.min (h - 1) (y + halfWindow)).

Definition calculateLocalStats (grayscale : list Z) (x y w h windowSize : Z)
    : LocalStats :=
  let win := window_of x y w h windowSize in
  stats_of_sums (window_sums grayscale w (startX win) (endX win) (startY win) (endY win)).

(** [Math.max(3, Math.ceil(Math.min(width, height) / 30))]: the quotient
    is a binary64 division, its ceiling and the maximum are integers. *)
Definition windowSize_of (w h : nat) : Z :=
  Z.max 3 (ceilZ (div (of_Z (Z.of_nat (Nat.min w h))) (of_Z 30))).

(** ** The per-pixel sweep shared by the local algorithms *)

(** [for (y = 0; y < height; y++) for (x = 0; x < width; x++) body] *)
Definition for_each_pixel {S : Type} (w h : nat) (body : S -> nat -> nat -> S) (s0 : S) : S :=
  foldl (fun s y => foldl (fun s x => body s x y) s (seq 0 w)) s0 (seq 0 h).

(** The tail of every loop body: compare the pixel with its threshold and
    write the four samples. *)
Definition write_decision (grayscale : list Z) (w : nat) (threshold : nat -> nat -> number)
    (buf : list Z) (x y : nat) : list Z :=
  let pixelIndex := ((y * w + x) * 4)%nat in
  let pixelValue := classify (of_read (grayscale !! (y * w + x)%nat)) (threshold x y) in
  put_pixel buf pixelIndex pixelValue.

Definition sweep (grayscale : list Z) (w h : nat) (threshold : nat -> nat -> number)
    : ImageData :=
  mkImageData w h
    (for_each_pixel w h (write_decision grayscale w threshold)
       (data (new_ImageData w h))).

Definition stats_at (grayscale : list Z) (w h : nat) (x y : nat) : LocalStats :=
  calculateLocalStats grayscale (Z.of_nat x) (Z.of_nat y) (Z.of_nat w) (Z.of_nat h)
    (windowSize_of w h).

(** ** Otsu *)

Record OtsuState := mkOtsuState {
  sumB : number;
  wB : number;
  wF : number;
  maxVariance : number;
  threshold : Z
}.

(** [histogram[Math.round(grayscale[i])]++]; the samples of a
    [Uint8ClampedArray] are integers, which [Math.round] leaves alone. *)
Definition otsu_histogram (grayscale : list Z) : list number :=
  foldl (fun hist g => alter (fun c => add c one) (Z.to_nat g) hist)
        (replicate 256 zero) grayscale.

(** [histogram.reduce((acc, val, idx) => acc + idx * val, 0)] *)
Definition otsu_weighted_sum (histogram : list number) : number :=
  foldl (fun acc iv => add acc (mul (of_Z (Z.of_nat (fst iv))) (snd iv)))
        zero (imap pair histogram).

Definition hist_at (histogram : list number) (t : Z) : number :=
  match histogram !! Z.to_nat t with Some c => c | None => NaN end.

Definition between_class_variance (wB wF mB mF : number) : number :=
  mul (mul (mul wB wF) (sub mB mF)) (sub mB mF).

(** The loop [for (t = 0; t < 256; t++)] over the remaining values of
    [t]; [continue] moves on with the updated [wB], [break] stops. *)
Fixpoint otsu_loop (histogram : list number) (total sum : number)
    (ts : list Z) (st : OtsuState) : OtsuState :=
  match ts with
  | [] => st
  | t :: ts' =>
      let wB' := add (wB st) (hist_at histogram t) in
      if strict_eq wB' zero then
        otsu_loop histogram total sum ts'
          (mkOtsuState (sumB st) wB' (wF st) (maxVariance st) (threshold st))
      else
        let wF' := sub total wB' in
        if strict_eq wF' zero then
          mkOtsuState (sumB st) wB' wF' (maxVariance st) (threshold st)
        else
          let sumB' := add (sumB st) (mul (of_Z t) (hist_at histogram t)) in
          let mB := div sumB' wB' in
          let mF := div (sub sum sumB') wF' in
          let variance := between_class_variance wB' wF' mB mF in
          otsu_loop histogram total sum ts'
            (if gt variance (maxVariance st)
             then mkOtsuState sumB' wB' wF' variance t
             else mkOtsuState sumB' wB' wF' (maxVariance st) (threshold st))
  end.

Definition otsu_init : OtsuState := mkOtsuState zero zero zero zero 0.

Definition otsu_search (histogram : list number) (total : number) : OtsuState :=
  otsu_loop histogram total (otsu_weighted_sum histogram) (seqZ 0 256) otsu_init.

Definition otsu_level (grayscale : list Z) : Z :=
  threshold (otsu_search (otsu_histogram grayscale) (of_Z (Z.of_nat (length grayscale)))).

Definition otsuThreshold (imgData : ImageData) : option ImageData :=
  let grayscale := toGrayscale imgData in
  Some (applyThreshold grayscale (Scalar (of_Z (otsu_level grayscale)))
          (width imgData) (height imgData)).

(** ** Niblack, Sauvola *)

Definition niblack_default_k : number := lit_m0_2.

Definition niblack_formula (k : number) (st : LocalStats) : number :=
  add (mean st) (mul k (stdDev st)).

(** Niblack and Sauvola inline the statements of [calculateLocalStats]
    with the same [halfWindow]. *)
Definition niblackThreshold (imgData : ImageData) (k : number) : option ImageData :=
  let grayscale := toGrayscale imgData in
  let w := width imgData in
  let h := height imgData in
  Some (sweep grayscale w h
          (fun x y => niblack_formula k (stats_at grayscale w h x y))).

Definition R128 : number := Eval vm_compute in of_Z 128.

Definition sauvola_default_k : number := lit_0_5.

Definition sauvola_formula (k : number) (st : LocalStats) : number :=
  mul (mean st) (add one (mul k (sub (div (stdDev st) R128) one))).

Definition sauvolaThreshold (imgData : ImageData) (k : number) : option ImageData :=
  let grayscale := toGrayscale imgData in
  let w := width imgData in
  let h := height imgData in
  Some (sweep grayscale w h
          (fun x y => sauvola_formula k (stats_at grayscale w h x y))).

(** ** Wolf *)

Definition wolf_default_k : number := lit_0_5.

Record WolfGlobals := mkWolfGlobals {
  minVal : number;
  maxStdDev : number
}.

(** First pass: the global minimum and the largest local deviation. *)
Definition wolf_prepass (grayscale : list Z) (w h : nat) : WolfGlobals :=
  for_each_pixel w h
    (fun g x y =>
       let pixel := of_read (grayscale !! (y * w + x)%nat) in
       mkWolfGlobals (Math_min (minVal g) pixel)
                     (Math_max (maxStdDev g) (stdDev (stats_at grayscale w h x y))))
    (mkWolfGlobals (of_Z 255) zero).

Definition wolf_formula (k : number) (g : WolfGlobals) (st : LocalStats) : number :=
  sub (mean st)
      (mul (mul k (sub one (div (stdDev st) (maxStdDev g))))
           (sub (mean st) (minVal g))).

Definition wolfThreshold (imgData : ImageData) (k : number) : option ImageData :=
  let grayscale := toGrayscale imgData in
  let w := width imgData in
  let h := height imgData in
  let g := wolf_prepass grayscale w h in
  Some (sweep grayscale w h
          (fun x y => wolf_formula k g (stats_at grayscale w h x y))).

(** ** NICK, T.R. Singh *)

Definition nick_default_k : number := lit_m0_2.

Definition nick_formula (k : number) (st : LocalStats) : number :=
  add (mean st) (mul k (sqrt (add (variance st) (mul (mean st) (mean st))))).

Definition nickThreshold (imgData : ImageData) (k : number) : option ImageData :=
  let grayscale := toGrayscale imgData in
  let w := width imgData in
  let h := height imgData in
  Some (sweep grayscale w h
          (fun x y => nick_formula k (stats_at grayscale w h x y))).

Definition trSingh_default_p : number := lit_0_5.

Definition trSingh_formula (p : number) (st : LocalStats) : number :=
  mul (mean st) (add one (mul p (sub (div (stdDev st) R128) one))).

Definition trSinghThreshold (imgData : ImageData) (p : number) : option ImageData :=
  let grayscale := toGrayscale imgData in
  let w := width imgData in
  let h := height imgData in
  Some (sweep grayscale w h
          (fun x y => trSingh_formula p (stats_at grayscale w h x y))).

(** ** ISauvola *)

Definition iSauvola_default_k : number := lit_0_5.

Record GlobalSums := mkGlobalSums {
  gsum : number;
  gsquares : number;
  gcount : number
}.

(** First pass: [globalMean], [globalStdDev] (used as a sum of squares
    until the square root) and [count]. *)
Definition iSauvola_globalStdDev (grayscale : list Z) : number :=
  let s :=
    foldl (fun s i =>
             let v := of_read (grayscale !! i) in
             mkGlobalSums (add (gsum s) v) (add (gsquares s) (mul v v))
                          (add (gcount s) one))
          (mkGlobalSums zero zero zero) (seq 0 (length grayscale)) in
  let globalMean := div (gsum s) (gcount s) in
  sqrt (sub (div (gsquares s) (gcount s)) (mul globalMean globalMean)).

Definition iSauvola_formula (k globalStdDev : number) (st : LocalStats) : number :=
  let alpha := Math_max zero (Math_min one (div (stdDev st) globalStdDev)) in
  let dynamicK := mul k (sub one alpha) in
  mul (mean st) (add one (mul dynamicK (sub (div (stdDev st) R128) one))).

Definition iSauvolaThreshold (imgData : ImageData) (k : number) : option ImageData :=
  let grayscale := toGrayscale imgData in
  let w := width imgData in
  let h := height imgData in
  let globalStdDev := iSauvola_globalStdDev grayscale in
  Some (sweep grayscale w h
          (fun x y => iSauvola_formula k globalStdDev (stats_at grayscale w h x y))).

(** ** WAN *)

Definition wan_default_k : number := lit_0_5.

Definition two : number := Eval vm_compute in of_Z 2.
Definition minus_two : number := Eval vm_compute in of_Z (-2).
Definition n255 : number := Eval vm_compute in of_Z 255.

(** Sobel magnitude at an interior pixel, as stored in the
    [Float32Array]. *)
Definition sobel_at (grayscale : list Z) (w : nat) (x y : nat) : number :=
  let g (yy xx : nat) := of_read (grayscale !! (yy * w + xx)%nat) in
  let gx :=
    add (add (add (add (add (neg (g (y - 1) (x - 1))%nat) (g (y - 1) (x + 1))%nat)
                            (mul minus_two (g y (x - 1)%nat)))
                       (mul two (g y (x + 1)%nat)))
                  (neg (g (y + 1) (x - 1))%nat))
        (g (y + 1) (x + 1))%nat in
  let gy :=
    add (add (add (sub (sub (neg (g (y - 1) (x - 1))%nat)
                            (mul two (g (y - 1)%nat x)))
                       (g (y - 1) (x + 1))%nat)
                  (g (y + 1) (x - 1))%nat)
             (mul two (g (y + 1)%nat x)))
        (g (y + 1) (x + 1))%nat in
  to_f32 (sqrt (add (mul gx gx) (mul gy gy))).

(** [for (y = 1; y < height - 1; y++) for (x = 1; x < width - 1; x++)] *)
Definition wan_edges (grayscale : list Z) (w h : nat) : list number :=
  foldl (fun edges y =>
           foldl (fun edges x => <[(y * w + x)%nat := sobel_at grayscale w x y]> edges)
                 edges (seq 1 (w - 2)))
        (replicate (w * h) zero) (seq 1 (h - 2)).

Definition edge_at (edges : list number) (i : nat) : number :=
  match edges !! i with Some e => e | None => NaN end.

Definition wan_formula (k edge : number) (st : LocalStats) : number :=
  let edgeStrength := div edge n255 in
  let adaptiveK := mul k (add one edgeStrength) in
  mul (mean st) (add one (mul adaptiveK (sub (div (stdDev st) R128) one))).

Definition wanThreshold (imgData : ImageData) (k : number) : option ImageData :=
  let grayscale := toGrayscale imgData in
  let w := width imgData in
  let h := height imgData in
  let edges := wan_edges grayscale w h in
  Some (sweep grayscale w h
          (fun x y => wan_formula k (edge_at edges (y * w + x)%nat)
                        (stats_at grayscale w h x y))).

(** ** The eight entry points, as the catalogue lists them *)

Inductive Algorithm :=
  | Otsu | Niblack | Sauvola | Wolf | Nick | TRSingh | ISauvola | Wan.

Definition all_algorithms : list Algorithm :=
  [Otsu; Niblack; Sauvola; Wolf; Nick; TRSingh; ISauvola; Wan].

Definition binarize (a : Algorithm) (imgData : ImageData) (parameter : number)
    : option ImageData :=
  match a with
  | Otsu => otsuThreshold imgData
  | Niblack => niblackThreshold imgData parameter
  | Sauvola => sauvolaThreshold imgData parameter
  | Wolf => wolfThreshold imgData parameter
  | Nick => nickThreshold imgData parameter
  | TRSingh => trSinghThreshold imgData parameter
  | ISauvola => iSauvolaThreshold imgData parameter
  | Wan => wanThreshold imgData parameter
  end.

Definition default_parameter (a : Algorithm) : number :=
  match a with
  | Otsu => zero
  | Niblack => niblack_default_k
  | Sauvola => sauvola_default_k
  | Wolf => wolf_default_k
  | Nick => nick_default_k
  | TRSingh => trSingh_default_p
  | ISauvola => iSauvola_default_k
  | Wan => wan_default_k
  end.


(** ** Vocabulary of the statements *)

(** The order in which the nested loops visit the pixels: row by row. *)
Definition pixel_order (w h : nat) : list (nat * nat) :=
  y ← seq 0 h; (fun x => (y, x)) <$> seq 0 w.

(** Pixel [i] of an output image is black or white: R = G = B in {0, 255}
    and alpha 255. *)
Definition binary_pixel (out : ImageData) (i : nat) : Prop :=
  exists v, (v = 0 \/ v = 255) /\
    data out !! (i * 4)%nat = Some v /\
    data out !! (i * 4 + 1)%nat = Some v /\
    data out !! (i * 4 + 2)%nat = Some v /\
    data out !! (i * 4 + 3)%nat = Some 255.

(** Pixel [i] of an output image is black. *)
Definition black_pixel (out : ImageData) (i : nat) : Prop :=
  data out !! (i * 4)%nat = Some 0 /\
  data out !! (i * 4 + 1)%nat = Some 0 /\
  data out !! (i * 4 + 2)%nat = Some 0 /\
  data out !! (i * 4 + 3)%nat = Some 255.

(** A raster whose sample count matches its dimensions. *)
Definition well_formed (img : ImageData) : Prop :=
  (1 <= width img)%nat /\ (1 <= height img)%nat /\
  length (data img) = (4 * width img * height img)%nat.

(** The cells of a clamped window, in the order the loops read them. *)
Definition window_cells (sx ex sy ey : Z) : list (Z * Z) :=
  wy ← range_incl sy ey; (fun wx => (wy, wx)) <$> range_incl sx ex.

(** One execution of the inner loop body on the value read. *)
Definition add_pixel (acc : WindowSums) (pixel : number) : WindowSums :=
  mkWindowSums (add (sum acc) pixel)
               (add (squaredSum acc) (mul pixel pixel))
               (add (count acc) one).

Definition Zsum (l : list Z) : Z := foldr Z.add 0 l.

(** Signed zero or NaN: the values a flat black image produces. *)
Definition zero_or_nan (x : number) : Prop :=
  match x with
  | S754_zero _ | S754_nan => True
  | _ => False
  end.

(** Every R, G and B sample is 0 (alpha is unconstrained). *)
Definition all_black (img : ImageData) : Prop :=
  forall (p c : nat) v, (c < 3)%nat -> data img !! (4 * p + c)%nat = Some v -> v = 0.

Definition zero_samples (gs : list Z) : Prop := forall i v, gs !! i = Some v -> v = 0.

(** The integer samples a window reads, and the samples of a valid
    grayscale buffer. *)
Definition window_values (gs : list Z) (w : Z) (cells : list (Z * Z)) : list Z :=
  (fun c => default 0 (aget gs (fst c * w + snd c))) <$> cells.

Definition bytes (gs : list Z) : Prop := Forall (fun v => 0 <= v <= 255) gs.

Definition squares (vs : list Z) : list Z := (fun v => v * v) <$> vs.

(** Pixel [i] of an output image has the colour [c] (and alpha 255). *)
Definition pixel_is (out : ImageData) (i : nat) (c : Z) : Prop :=
  data out !! (i * 4)%nat = Some c /\
  data out !! (i * 4 + 1)%nat = Some c /\
  data out !! (i * 4 + 2)%nat = Some c /\
  data out !! (i * 4 + 3)%nat = Some 255.

(** A well-formed raster whose pixels all have the colour (r, g, b). *)
Definition uniform_image (img : ImageData) (r g b : Z) : Prop :=
  well_formed img /\
  forall p, (p < width img * height img)%nat ->
    data img !! (4 * p)%nat = Some r /\
    data img !! (4 * p + 1)%nat = Some g /\
    data img !! (4 * p + 2)%nat = Some b.

(** The local algorithms that use nothing but the window statistics. *)
Definition local_formula (a : Algorithm) (k : number) (st : LocalStats) : number :=
  match a with
  | Niblack => niblack_formula k st
  | Sauvola => sauvola_formula k st
  | Nick => nick_formula k st
  | TRSingh => trSingh_formula k st
  | _ => NaN
  end.

Definition purely_local (a : Algorithm) : Prop :=
  a = Niblack \/ a = Sauvola \/ a = Nick \/ a = TRSingh.

(** The all-black 10 x 10 raster of the end-to-end scenario. *)
Definition black10 : ImageData := mkImageData 10 10 (replicate 400 0).

(** A uniform 2 x 2 raster. *)
Definition gray2x2 : ImageData := mkImageData 2 2 (replicate 16 90).


(** A 2 x 2 raster with two dark and two light pixels. *)
Definition sample2x2 : ImageData :=
  mkImageData 2 2 [10; 20; 30; 255; 10; 20; 30; 255; 200; 200; 200; 255; 0; 0; 0; 255].

(** A number that is not NaN and not above zero. *)
Definition at_most_zero (x : number) : Prop :=
  match x with
  | S754_zero _ => True
  | S754_finite s _ _ => s = true
  | S754_infinity s => s = true
  | S754_nan => False
  end.

Definition is_zero (x : number) : Prop :=
  match x with
  | S754_zero _ => True
  | _ => False
  end.

(** What the claim says Wolf's threshold is when the ratio is taken
    as 0: mean - k * (1 - 0) * (mean - minVal). *)
Definition wolf_degenerate_spec (k : number) (g : WolfGlobals) (st : LocalStats) : number :=
  sub (mean st) (mul (mul k (sub one zero)) (sub (mean st) (minVal g))).

(** The grayscale buffer of a flat 2 x 2 image of intensity 7. *)
Definition flat7 : list Z := [7; 7; 7; 7].

(** The thresholds the search evaluates (those it neither skips nor stops
    at), each with its between-class variance, in the order of the loop. *)
Fixpoint otsu_trace (histogram : list number) (total sum : number)
    (ts : list Z) (sumB0 wB0 : number) : list (Z * number) :=
  match ts with
  | [] => []
  | t :: ts' =>
      let wB' := add wB0 (hist_at histogram t) in
      if strict_eq wB' zero then otsu_trace histogram total sum ts' sumB0 wB'
      else
        let wF' := sub total wB' in
        if strict_eq wF' zero then []
        else
          let sumB' := add sumB0 (mul (of_Z t) (hist_at histogram t)) in
          let mB := div sumB' wB' in
          let mF := div (sub sum sumB') wF' in
          (t, between_class_variance wB' wF' mB mF)
            :: otsu_trace histogram total sum ts' sumB' wB'
  end.

Definition otsu_candidates (histogram : list number) (total : number) : list (Z * number) :=
  otsu_trace histogram total (otsu_weighted_sum histogram) (seqZ 0 256) zero zero.

(** A position of a number in the order [SFcompare] decides: sign class,
    then exponent, then mantissa. *)
Definition order_key (x : number) : Z * Z * Z :=
  match x with
  | S754_zero _ => (0, 0, 0)
  | S754_infinity s => (if s then -2 else 2, 0, 0)
  | S754_finite false m e => (1, e, Z.pos m)
  | S754_finite true m e => (-1, - e, - Z.pos m)
  | S754_nan => (0, 0, 0)
  end.

Definition key_lt (p q : Z * Z * Z) : Prop :=
  fst (fst p) < fst (fst q) \/
  (fst (fst p) = fst (fst q) /\
   (snd (fst p) < snd (fst q) \/ (snd (fst p) = snd (fst q) /\ snd p < snd q))).

Definition not_nan (x : number) : Prop := x <> S754_nan.

(** A histogram with one sample at 0 and one at 2: thresholds 0 and 1
    split it the same way and have the same between-class variance. *)
Definition tie_histogram : list number :=
  [of_Z 1; zero; of_Z 1] ++ replicate 253 zero.

(** A symmetric histogram: one sample at 0, two at 1, one at 2. *)
Definition symmetric_histogram : list number :=
  [of_Z 1; of_Z 2; of_Z 1] ++ replicate 253 zero.

(** The real value of a number (0 for the values that have none). *)
Definition bpow (e : Z) : R := powerRZ 2 e.

Definition F2R (x : number) : R :=
  match x with
  | S754_finite s m e => ((if s then -1 else 1) * IZR (Z.pos m) * bpow e)%R
  | _ => 0%R
  end.

(** A shift record [(m, round bit, sticky bit)] at exponent [e] locates the
    real [x] in the interval [m * 2^e, (m + 1) * 2^e). *)
Definition rec_ok (mrs : shr_record) (e : Z) (x : R) : Prop :=
  match shr_r mrs, shr_s mrs with
  | false, false => x = (IZR (shr_m mrs) * bpow e)%R
  | false, true =>
      (IZR (shr_m mrs) * bpow e < x < (IZR (shr_m mrs) + / 2) * bpow e)%R
  | true, false => x = ((IZR (shr_m mrs) + / 2) * bpow e)%R
  | true, true =>
      ((IZR (shr_m mrs) + / 2) * bpow e < x < (IZR (shr_m mrs) + 1) * bpow e)%R
  end.

(** A positive normal number with its exponent in [lo, hi]. *)
Definition pos_normal (lo hi : Z) (x : number) : Prop :=
  match x with
  | S754_finite false m e => Z.pos (digits2_pos m) = 53 /\ lo <= e <= hi
  | _ => False
  end.

(** The unit roundoff 2^-53. *)
Definition unit_roundoff : R := (/ IZR (2 ^ 53))%R.

(** A number that is a signed zero, positive, or +infinity: [0 <= x]. *)
Definition nonneg_num (x : number) : Prop :=
  match x with
  | S754_zero _ | S754_finite false _ _ | S754_infinity false => True
  | _ => False
  end.

(** The sum of the squared distances of the samples to [v]. *)
Definition spread (v : Z) (l : list Z) : Z := Zsum ((fun w => (w - v) * (w - v)) <$> l).

(** n * (sum of squares) - (sum)^2 of a list of samples. *)
Definition dispersion (l : list Z) : Z :=
  Z.of_nat (length l) * Zsum (squares l) - Zsum l * Zsum l.

(** The statistics as the specification words them: a negative
    variance is replaced by 0 before the square root. *)
Definition clamp_variance (v : number) : number := if gt zero v then zero else v.

Definition stats_of_sums_spec (acc : WindowSums) : LocalStats :=
  let mean := div (sum acc) (count acc) in
  let variance :=
    clamp_variance (sub (div (squaredSum acc) (count acc)) (mul mean mean)) in
  let stdDev := sqrt variance in
  mkLocalStats mean variance stdDev.

Definition calculateLocalStats_spec (grayscale : list Z) (x y w h windowSize : Z)
    : LocalStats :=
  let win := window_of x y w h windowSize in
  stats_of_sums_spec
    (window_sums grayscale w (startX win) (endX win) (startY win) (endY win)).

(** A number that is +0 or positive normal with its exponent in [lo, hi]. *)
Definition finite_nonneg (lo hi : Z) (x : number) : Prop :=
  x = zero \/ pos_normal lo hi x.

(** The luminance of the specification, over the reals. *)
Definition weighted_sum (r g b : Z) : R :=
  (299 / 1000 * IZR r + 587 / 1000 * IZR g + 114 / 1000 * IZR b)%R.

(** A 1 x 1 raster holding one dark red pixel. *)
Definition red_pixel : ImageData := mkImageData 1 1 [1; 0; 0; 255].

(** A 2 x 2 raster of the grays 0, 1, 1, 2. *)
Definition ramp2x2 : ImageData :=
  mkImageData 2 2 [0; 0; 0; 255; 1; 1; 1; 255; 1; 1; 1; 255; 2; 2; 2; 255].

(** The between-class variance of the specification, over the reals:
    wB * wF * (mB - mF)^2 for the split of the samples at threshold [t]. *)
Definition background (gs : list Z) (t : Z) : list Z := filter (fun g => g <= t) gs.

Definition exact_variance_of (wB total sumB sum : Z) : R :=
  (IZR wB * IZR (total - wB)
   * (IZR sumB / IZR wB - IZR (sum - sumB) / IZR (total - wB))
   * (IZR sumB / IZR wB - IZR (sum - sumB) / IZR (total - wB)))%R.

Definition exact_variance (gs : list Z) (t : Z) : R :=
  exact_variance_of (Z.of_nat (length (background gs t))) (Z.of_nat (length gs))
                    (Zsum (background gs t)) (Zsum gs).

(** Two rasters of the same shape whose R, G and B samples agree. *)
Definition same_colours (img1 img2 : ImageData) : Prop :=
  width img1 = width img2 /\ height img1 = height img2 /\
  length (data img1) = length (data img2) /\
  forall (p c : nat), (c < 3)%nat ->
    data img1 !! (4 * p + c)%nat = data img2 !! (4 * p + c)%nat.

(** [sample2x2] with other alpha samples. *)
Definition sample2x2_translucent : ImageData :=
  mkImageData 2 2 [10; 20; 30; 0; 10; 20; 30; 7; 200; 200; 200; 128; 0; 0; 0; 1].

(** A 2 x 1 raster whose second pixel lacks its blue and alpha samples. *)
Definition truncated_raster : ImageData := mkImageData 2 1 [9; 9; 9; 255; 200; 200].

(** The threshold each entry point compares pixel (x, y) with. *)
Definition pixel_threshold (a : Algorithm) (imgData : ImageData) (k : number)
    (x y : nat) : number :=
  let grayscale := toGrayscale imgData in
  let w := width imgData in
  let h := height imgData in
  let st := stats_at grayscale w h x y in
  match a with
  | Otsu => of_Z (otsu_level grayscale)
  | Niblack => niblack_formula k st
  | Sauvola => sauvola_formula k st
  | Wolf => wolf_formula k (wolf_prepass grayscale w h) st
  | Nick => nick_formula k st
  | TRSingh => trSingh_formula k st
  | ISauvola => iSauvola_formula k (iSauvola_globalStdDev grayscale) st
  | Wan => wan_formula k (edge_at (wan_edges grayscale w h) (y * w + x)%nat) st
  end.

(** Two 5 x 1 buffers that agree on their first two samples. *)
Definition row_a : list Z := [1; 2; 3; 4; 5].
Definition row_b : list Z := [1; 2; 9; 9; 9].

(** A number with a full 53-bit mantissa, or a zero, an infinity or NaN:
    every binary64 value that is not subnormal. *)
Definition normal_number (k : number) : Prop :=
  match k with
  | S754_finite _ m e => Z.pos (digits2_pos m) = 53 /\ -1074 <= e <= 971
  | _ => True
  end.


(** A 3 x 3 buffer of one gray level. *)
Definition flat3x3 : list Z := replicate 9 77.

(** * Properties *)

(** ** Exact binary64 arithmetic on integers below 2^53 *)

Section ExactIntegers.

Lemma digits2_size p : digits2_pos p = Pos.size p.
Proof. induction p; simpl; congruence. Qed.

Lemma digits2_bounds p :
  2 ^ (Z.pos (digits2_pos p) - 1) <= Z.pos p < 2 ^ Z.pos (digits2_pos p).
Proof.
  rewrite digits2_size. split.
  - pose proof (Pos.size_le p) as H.
    apply Pos2Z.pos_le_pos in H. rewrite Pos2Z.inj_pow in H.
    replace (Z.pos (Pos.size p)) with (Z.pos (Pos.size p) - 1 + 1) in H by lia.
    rewrite Z.pow_add_r in H by lia. change (Z.pos p~0) with (2 * Z.pos p) in H. lia.
  - pose proof (Pos.size_gt p) as H.
    apply Pos2Z.pos_lt_pos in H. now rewrite Pos2Z.inj_pow in H.
Qed.

Lemma digits2_unique p d :
  2 ^ (d - 1) <= Z.pos p < 2 ^ d -> Z.pos (digits2_pos p) = d.
Proof.
  intros [Hl Hu]. pose proof (digits2_bounds p) as [Bl Bu].
  destruct (Z_lt_le_dec d 1) as [Hd|Hd].
  { assert (2 ^ d <= 1). { destruct (Z_lt_le_dec d 0). rewrite Z.pow_neg_r; lia. replace d with 0 by lia. simpl. lia. } lia. }
  destruct (Z.lt_trichotomy (Z.pos (digits2_pos p)) d) as [H|[H|H]]; [|exact H|].
  - assert (2 ^ Z.pos (digits2_pos p) <= 2 ^ (d - 1)) by (apply Z.pow_le_mono_r; lia). lia.
  - assert (2 ^ d <= 2 ^ (Z.pos (digits2_pos p) - 1)) by (apply Z.pow_le_mono_r; lia). lia.
Qed.

Lemma digits2_shift p q k :
  0 <= k -> Z.pos q = Z.pos p * 2 ^ k ->
  Z.pos (digits2_pos q) = Z.pos (digits2_pos p) + k.
Proof.
  intros Hk Hq. apply digits2_unique. rewrite Hq.
  pose proof (digits2_bounds p) as [Bl Bu].
  replace (Z.pos (digits2_pos p) + k - 1) with (Z.pos (digits2_pos p) - 1 + k) by lia.
  rewrite !Z.pow_add_r by lia.
  assert (0 < 2 ^ k) by (apply Z.pow_pos_nonneg; lia). nia.
Qed.

Lemma iter_pos_nat {A} (f : A -> A) p x :
  SpecFloat.iter_pos f p x = Nat.iter (Pos.to_nat p) f x.
Proof.
  revert x. induction p as [p IH|p IH|]; intros x; cbn [SpecFloat.iter_pos].
  - rewrite !IH. rewrite Pos2Nat.inj_xI.
    rewrite <- Nat.iter_add. replace (Pos.to_nat p + Pos.to_nat p)%nat with (2 * Pos.to_nat p)%nat by lia.
    rewrite <- Nat.iter_succ_r. reflexivity.
  - rewrite !IH. rewrite Pos2Nat.inj_xO. rewrite <- Nat.iter_add. f_equal. lia.
  - reflexivity.
Qed.

Lemma shr_1_exact m :
  0 <= m -> shr_1 (Build_shr_record (2 * m) false false) = Build_shr_record m false false.
Proof. intros _. destruct m as [|p|p]; reflexivity. Qed.

Lemma shr_iter_exact n m :
  0 <= m ->
  Nat.iter n shr_1 (Build_shr_record (m * 2 ^ Z.of_nat n) false false)
  = Build_shr_record m false false.
Proof.
  intros Hm. induction n as [|n IH].
  - simpl. f_equal. lia.
  - rewrite Nat.iter_succ_r. rewrite Nat2Z.inj_succ, Z.pow_succ_r by lia.
    replace (m * (2 * 2 ^ Z.of_nat n)) with (2 * (m * 2 ^ Z.of_nat n)) by lia.
    rewrite shr_1_exact. apply IH.
    assert (0 < 2 ^ Z.of_nat n) by (apply Z.pow_pos_nonneg; lia). nia.
Qed.

Lemma shr_exact m e k :
  0 <= m -> 0 <= k ->
  shr (Build_shr_record (m * 2 ^ k) false false) e k
  = (Build_shr_record m false false, e + k).
Proof.
  intros Hm Hk. destruct k as [|p|p]; cbn [shr]; try lia.
  - f_equal; [f_equal|]; lia.
  - rewrite iter_pos_nat. f_equal.
    rewrite <- (positive_nat_Z p) at 1. apply shr_iter_exact. exact Hm.
Qed.

Lemma pow2_pos k : 0 <= k -> 0 < 2 ^ k.
Proof. intros; apply Z.pow_pos_nonneg; lia. Qed.

Lemma digits2_pos_ge1 p : 1 <= Z.pos (digits2_pos p).
Proof. lia. Qed.

Lemma digits2_le53 p : Z.pos p < 2 ^ 53 -> Z.pos (digits2_pos p) <= 53.
Proof.
  intros H. pose proof (digits2_bounds p) as [Bl _].
  destruct (Z_le_gt_dec (Z.pos (digits2_pos p)) 53) as [|G]; [assumption|].
  assert (2 ^ 53 <= 2 ^ (Z.pos (digits2_pos p) - 1)) by (apply Z.pow_le_mono_r; lia). lia.
Qed.

Lemma norm_m_spec p :
  Z.pos p < 2 ^ 53 -> Z.pos (norm_m p) = Z.pos p * 2 ^ (53 - Z.pos (digits2_pos p)).
Proof.
  intros H. unfold norm_m. pose proof (digits2_le53 p H).
  rewrite Z2Pos.id; [reflexivity|].
  pose proof (pow2_pos (53 - Z.pos (digits2_pos p))). nia.
Qed.

Lemma norm_m_digits p : Z.pos p < 2 ^ 53 -> Z.pos (digits2_pos (norm_m p)) = 53.
Proof.
  intros H. pose proof (digits2_le53 p H).
  rewrite (digits2_shift p (norm_m p) (53 - Z.pos (digits2_pos p))); [lia|lia|].
  now apply norm_m_spec.
Qed.

Lemma bra_exact s m0 e0 k :
  Z.pos (digits2_pos m0) = 53 -> 0 <= k -> -1074 <= e0 <= 971 ->
  binary_round_aux prec emax s (Z.pos m0 * 2 ^ k) (e0 - k) loc_Exact
  = S754_finite s m0 e0.
Proof.
  intros Hd Hk He.
  assert (Hq : exists q, Z.pos m0 * 2 ^ k = Z.pos q).
  { pose proof (pow2_pos k Hk). destruct (Z.pos m0 * 2 ^ k) eqn:E; try lia. eauto. }
  destruct Hq as [q Hq].
  pose proof (digits2_shift m0 q k Hk (eq_sym Hq)) as Dq.
  unfold binary_round_aux, shr_fexp.
  rewrite Hq. cbn [Zdigits2 shr_record_of_loc]. rewrite Dq, Hd.
  replace (fexp prec emax (53 + k + (e0 - k)) - (e0 - k)) with k
    by (unfold fexp, emin, prec, emax; lia).
  rewrite <- Hq. rewrite shr_exact by lia.
  cbn [shr_m loc_of_shr_record round_nearest_even Zdigits2 shr_record_of_loc].
  rewrite Hd.
  replace (fexp prec emax (53 + (e0 - k + k)) - (e0 - k + k)) with 0
    by (unfold fexp, emin, prec, emax; lia).
  cbn [shr shr_m].
  replace (e0 - k + k) with e0 by lia.
  replace (e0 <=? emax - prec) with true; [reflexivity|].
  symmetry. apply Z.leb_le. unfold emax, prec. lia.
Qed.

Lemma pos_iter_xO m d : Z.pos (Pos.iter xO m d) = Z.pos m * 2 ^ Z.pos d.
Proof.
  induction d as [|d IH] using Pos.peano_ind.
  - cbn [Pos.iter]. change (2 ^ 1) with 2. lia.
  - rewrite Pos.iter_succ, Pos2Z.inj_succ, Z.pow_succ_r by lia.
    change (Z.pos (Pos.iter xO m d)~0) with (2 * Z.pos (Pos.iter xO m d)). rewrite IH. lia.
Qed.

Lemma shl_align_fst m e ez :
  ez <= e -> Z.pos (fst (shl_align m e ez)) = Z.pos m * 2 ^ (e - ez).
Proof.
  intros H. unfold shl_align. destruct (ez - e) as [|d|d] eqn:E.
  - replace (e - ez) with 0 by lia. simpl. lia.
  - lia.
  - cbn [fst]. rewrite pos_iter_xO. f_equal. f_equal. lia.
Qed.

Lemma shl_align_snd m e ez : ez <= e -> snd (shl_align m e ez) = ez.
Proof.
  intros H. unfold shl_align. destruct (ez - e) as [|d|d] eqn:E; cbn [snd]; lia.
Qed.

Lemma shl_align_id m e ez : e <= ez -> shl_align m e ez = (m, e).
Proof.
  intros H. unfold shl_align. destruct (ez - e) as [|d|d] eqn:E; try reflexivity. lia.
Qed.

Lemma binary_round_int s M E p :
  E <= 0 -> Z.pos p < 2 ^ 53 -> Z.pos M = Z.pos p * 2 ^ (- E) ->
  binary_round prec emax s M E = canon s p.
Proof.
  intros HE Hp HM.
  pose proof (digits2_le53 p Hp) as Hd. pose proof (digits2_pos_ge1 p) as Hd1.
  pose proof (digits2_shift p M (- E) ltac:(lia) HM) as DM.
  pose proof (norm_m_spec p Hp) as Hn. pose proof (norm_m_digits p Hp) as Hnd.
  unfold binary_round. rewrite DM.
  replace (fexp prec emax (Z.pos (digits2_pos p) + - E + E)) with (norm_e p)
    by (unfold fexp, emin, prec, emax, norm_e; lia).
  destruct (Z_lt_le_dec (norm_e p) E) as [Hlt|Hge].
  - pose proof (shl_align_fst M E (norm_e p) ltac:(lia)) as Hf.
    pose proof (shl_align_snd M E (norm_e p) ltac:(lia)) as Hs.
    destruct (shl_align M E (norm_e p)) as [mz ez]. cbn [fst snd] in Hf, Hs. subst ez.
    assert (mz = norm_m p) as ->.
    { apply Pos2Z.inj. rewrite Hf, Hn, HM. unfold norm_e.
      rewrite <- Z.mul_assoc, <- Z.pow_add_r by (unfold norm_e in *; lia).
      f_equal. f_equal. lia. }
    pose proof (bra_exact s (norm_m p) (norm_e p) 0 Hnd ltac:(lia)
                  ltac:(unfold norm_e; lia)) as B.
    rewrite Z.pow_0_r, Z.mul_1_r, Z.sub_0_r in B. exact B.
  - rewrite shl_align_id by lia.
    pose proof (bra_exact s (norm_m p) (norm_e p) (norm_e p - E) Hnd ltac:(lia)
                  ltac:(unfold norm_e; lia)) as B.
    replace (norm_e p - (norm_e p - E)) with E in B by lia.
    replace (Z.pos (norm_m p) * 2 ^ (norm_e p - E)) with (Z.pos M) in B; [exact B|].
    rewrite Hn, HM. unfold norm_e.
    rewrite <- Z.mul_assoc, <- Z.pow_add_r by (unfold norm_e in *; lia).
    f_equal. f_equal. lia.
Qed.


Lemma of_Z_pos p : Z.pos p < 2 ^ 53 -> of_Z (Z.pos p) = canon false p.
Proof.
  intros H. unfold of_Z, binary_normalize.
  apply binary_round_int; [lia|assumption|]. simpl. lia.
Qed.


Lemma of_Z_0 : of_Z 0 = zero.
Proof. reflexivity. Qed.

Lemma norm_m_scaled p :
  Z.pos p < 2 ^ 53 -> Z.pos (norm_m p) = Z.pos p * 2 ^ (- norm_e p).
Proof. intros H. rewrite norm_m_spec by assumption. unfold norm_e. f_equal. f_equal. lia. Qed.

Lemma norm_e_range p : Z.pos p < 2 ^ 53 -> -52 <= norm_e p <= 0.
Proof. intros H. pose proof (digits2_le53 p H). unfold norm_e. lia. Qed.

Lemma aligned_int p ez :
  Z.pos p < 2 ^ 53 -> ez <= norm_e p ->
  Z.pos (fst (shl_align (norm_m p) (norm_e p) ez)) = Z.pos p * 2 ^ (- ez).
Proof.
  intros H Hz. pose proof (norm_e_range p H).
  rewrite shl_align_fst by assumption. rewrite norm_m_scaled by assumption.
  rewrite <- Z.mul_assoc, <- Z.pow_add_r by lia. f_equal. f_equal. lia.
Qed.

Lemma add_of_Z a b :
  0 <= a -> 0 <= b -> a + b < 2 ^ 53 -> add (of_Z a) (of_Z b) = of_Z (a + b).
Proof.
  intros Ha Hb Hab.
  destruct a as [|p|p]; [|clear Ha|lia].
  { destruct b as [|q|q]; [reflexivity| |lia].
    rewrite Z.add_0_l, of_Z_pos by lia. reflexivity. }
  destruct b as [|q|q]; [|clear Hb|lia].
  { rewrite Z.add_0_r, of_Z_pos by lia. reflexivity. }
  rewrite (of_Z_pos p), (of_Z_pos q) by lia.
  change (Z.pos p + Z.pos q) with (Z.pos (p + q)) in *.
  rewrite of_Z_pos by assumption.
  unfold add, canon, SFadd. cbn [cond_Zopp].
  pose proof (norm_e_range p ltac:(lia)). pose proof (norm_e_range q ltac:(lia)).
  set (ez := Z.min (norm_e p) (norm_e q)).
  rewrite !aligned_int by (unfold ez; lia).
  destruct (Z.pos p * 2 ^ (- ez) + Z.pos q * 2 ^ (- ez)) as [|M|M] eqn:E;
    pose proof (pow2_pos (- ez) ltac:(unfold ez; lia)); try nia.
  cbn [binary_normalize]. apply (binary_round_int false M ez (p + q)); [unfold ez; lia|assumption|].
  rewrite <- E. rewrite Pos2Z.inj_add. lia.
Qed.

Lemma digits2_mul_ge p q :
  Z.pos (digits2_pos p) + Z.pos (digits2_pos q) - 1 <= Z.pos (digits2_pos (p * q)).
Proof.
  pose proof (digits2_bounds p) as [Pl _]. pose proof (digits2_bounds q) as [Ql _].
  pose proof (digits2_bounds (p * q)) as [_ Ru]. rewrite Pos2Z.inj_mul in Ru.
  assert (2 ^ (Z.pos (digits2_pos p) - 1 + (Z.pos (digits2_pos q) - 1))
          < 2 ^ Z.pos (digits2_pos (p * q))) as H.
  { rewrite Z.pow_add_r by lia.
    pose proof (pow2_pos (Z.pos (digits2_pos p) - 1) ltac:(lia)).
    pose proof (pow2_pos (Z.pos (digits2_pos q) - 1) ltac:(lia)). nia. }
  apply Z.pow_lt_mono_r_iff in H; lia.
Qed.

Lemma digits2_mul_le p q :
  Z.pos (digits2_pos (p * q)) <= Z.pos (digits2_pos p) + Z.pos (digits2_pos q).
Proof.
  pose proof (digits2_bounds p) as [_ Pu]. pose proof (digits2_bounds q) as [_ Qu].
  pose proof (digits2_bounds (p * q)) as [Rl _]. rewrite Pos2Z.inj_mul in Rl.
  assert (2 ^ (Z.pos (digits2_pos (p * q)) - 1)
          < 2 ^ (Z.pos (digits2_pos p) + Z.pos (digits2_pos q))) as H.
  { rewrite Z.pow_add_r by lia. nia. }
  apply Z.pow_lt_mono_r_iff in H; lia.
Qed.

Lemma mul_of_Z a b :
  0 <= a < 2 ^ 53 -> 0 <= b < 2 ^ 53 -> a * b < 2 ^ 53 ->
  mul (of_Z a) (of_Z b) = of_Z (a * b).
Proof.
  intros Ha Hb Hab.
  destruct a as [|p|p]; [| |lia].
  { destruct b as [|q|q]; [reflexivity| |lia].
    rewrite of_Z_pos by lia. reflexivity. }
  destruct b as [|q|q]; [| |lia].
  { rewrite Z.mul_0_r, of_Z_pos by lia. reflexivity. }
  rewrite (of_Z_pos p), (of_Z_pos q) by lia.
  change (Z.pos p * Z.pos q) with (Z.pos (p * q)) in *.
  rewrite of_Z_pos by assumption.
  unfold mul, canon, SFmul. cbn [xorb].
  pose proof (norm_e_range p ltac:(lia)). pose proof (norm_e_range q ltac:(lia)).
  pose proof (norm_e_range (p * q) ltac:(lia)).
  pose proof (digits2_mul_ge p q) as Hge.
  assert (0 <= norm_e (p * q) - (norm_e p + norm_e q)) as Hk by (unfold norm_e in *; lia).
  pose proof (bra_exact false (norm_m (p * q)) (norm_e (p * q))
                (norm_e (p * q) - (norm_e p + norm_e q))
                (norm_m_digits _ Hab) Hk ltac:(lia)) as B.
  replace (norm_e (p * q) - (norm_e (p * q) - (norm_e p + norm_e q)))
    with (norm_e p + norm_e q) in B by lia.
  rewrite <- B. f_equal.
  rewrite Pos2Z.inj_mul, !norm_m_scaled by lia.
  rewrite Pos2Z.inj_mul.
  replace (- norm_e p) with ((- norm_e (p * q)) + (norm_e (p * q) - (norm_e p + norm_e q)) + norm_e q) at 1 by lia.
  set (u := - norm_e (p * q)). set (v := norm_e (p * q) - (norm_e p + norm_e q)).
  assert (0 <= u) by (unfold u; lia).
  destruct (Z_le_gt_dec 0 (u + v + norm_e q)).
  - transitivity (Z.pos p * Z.pos q * (2 ^ (u + v + norm_e q) * 2 ^ (- norm_e q))); [ring|].
    rewrite <- Z.pow_add_r by lia. replace (u + v + norm_e q + - norm_e q) with (u + v) by lia.
    rewrite Z.pow_add_r by lia. ring.
  - unfold u, v in *. lia.
Qed.

Lemma new_location_0 n : new_location n 0 = loc_Exact.
Proof. unfold new_location, new_location_even, new_location_odd. destruct (Z.even n); reflexivity. Qed.

Lemma div_of_Z n g :
  0 < n < 2 ^ 53 -> 0 <= g -> n * g < 2 ^ 53 -> div (of_Z (n * g)) (of_Z n) = of_Z g.
Proof.
  intros Hn Hg Hng.
  destruct n as [|p|p]; try lia.
  destruct g as [|q|q]; [|clear Hg|lia].
  { rewrite Z.mul_0_r. rewrite of_Z_pos by lia. reflexivity. }
  assert (Hp : Z.pos p < 2 ^ 53) by lia. assert (Hq : Z.pos q < 2 ^ 53) by nia.
  change (Z.pos p * Z.pos q) with (Z.pos (p * q)) in *.
  rewrite !of_Z_pos by assumption.
  pose proof (norm_e_range p Hp) as Rp. pose proof (norm_e_range q Hq) as Rq.
  pose proof (norm_e_range (p * q) Hng) as Rpq.
  pose proof (digits2_mul_le p q) as Hle.
  unfold div, canon, SFdiv, SFdiv_core_binary. cbn [xorb Zdigits2].
  rewrite !norm_m_digits by assumption.
  set (e' := Z.min (fexp prec emax (53 + norm_e (p * q) - (53 + norm_e p)))
                   (norm_e (p * q) - norm_e p)).
  assert (He' : e' = norm_e (p * q) - norm_e p - 53)
    by (unfold e', fexp, emin, prec, emax; lia).
  replace (norm_e (p * q) - norm_e p - e') with 53 by lia.
  rewrite Z.shiftl_mul_pow2 by lia.
  set (k := norm_e q - e').
  assert (Hk : 0 <= k) by (unfold k, norm_e in *; lia).
  assert (Hdiv : Z.pos (norm_m (p * q)) * 2 ^ 53
                 = (Z.pos (norm_m q) * 2 ^ k) * Z.pos (norm_m p)).
  { rewrite !norm_m_scaled by assumption. rewrite Pos2Z.inj_mul.
    transitivity (Z.pos p * Z.pos q * (2 ^ (- norm_e (p * q)) * 2 ^ 53)); [ring|].
    transitivity (Z.pos p * Z.pos q * (2 ^ (- norm_e q) * 2 ^ k * 2 ^ (- norm_e p))); [|ring].
    f_equal. rewrite <- !Z.pow_add_r by lia. f_equal. unfold k. lia. }
  pose proof (Z.div_eucl_eq (Z.pos (norm_m (p * q)) * 2 ^ 53) (Z.pos (norm_m p)) ltac:(lia)) as Heq.
  pose proof (Z.mod_pos_bound (Z.pos (norm_m (p * q)) * 2 ^ 53) (Z.pos (norm_m p)) ltac:(lia)) as Hmod.
  unfold Z.modulo in Hmod.
  destruct (Z.div_eucl (Z.pos (norm_m (p * q)) * 2 ^ 53) (Z.pos (norm_m p))) as [qq r].
  assert (r = 0 /\ qq = Z.pos (norm_m q) * 2 ^ k) as [-> ->].
  { rewrite Hdiv in Heq.
    assert (Z.pos (norm_m p) * (Z.pos (norm_m q) * 2 ^ k - qq) = r) by lia.
    assert (Z.pos (norm_m q) * 2 ^ k - qq = 0) by nia. lia. }
  rewrite new_location_0.
  pose proof (bra_exact false (norm_m q) (norm_e q) k (norm_m_digits _ Hq) Hk ltac:(lia)) as B.
  replace (norm_e q - k) with e' in B by (unfold k; lia).
  exact B.
Qed.

Lemma sub_diag_finite s m e : sub (S754_finite s m e) (S754_finite s m e) = zero.
Proof. unfold sub, SFsub. rewrite Z.min_id, Z.sub_diag. reflexivity. Qed.

Lemma sub_diag_of_Z a : 0 <= a < 2 ^ 53 -> sub (of_Z a) (of_Z a) = zero.
Proof.
  intros H. destruct a as [|p|p]; [reflexivity| |lia].
  rewrite of_Z_pos by lia. apply sub_diag_finite.
Qed.

End ExactIntegers.

(** ** Buffers written by the pixel loops *)

Section Buffers.
Local Open Scope nat_scope.

Lemma put_pixel_length buf i v : length (put_pixel buf i v) = length buf.
Proof. unfold put_pixel. by rewrite !length_insert. Qed.

Lemma put_pixel_same buf i v c :
  i + 3 < length buf -> c < 4 ->
  put_pixel buf i v !! (i + c) = Some (if c <? 3 then v else 255%Z).
Proof.
  intros Hi Hc. unfold put_pixel.
  destruct c as [|[|[|[|c]]]]; [| | | |lia]; cbn [Nat.ltb Nat.leb].
  - rewrite Nat.add_0_r. rewrite !list_lookup_insert_ne by lia.
    apply list_lookup_insert_eq. lia.
  - rewrite !list_lookup_insert_ne by lia.
    apply list_lookup_insert_eq. rewrite length_insert. lia.
  - rewrite !list_lookup_insert_ne by lia.
    apply list_lookup_insert_eq. rewrite !length_insert. lia.
  - apply list_lookup_insert_eq. rewrite !length_insert. lia.
Qed.

Lemma put_pixel_other buf i v j :
  j < i \/ i + 3 < j -> put_pixel buf i v !! j = buf !! j.
Proof. intros H. unfold put_pixel. by rewrite !list_lookup_insert_ne by lia. Qed.

Lemma for_each_pixel_flat {S : Type} w h (body : S -> nat -> nat -> S) s0 :
  for_each_pixel w h body s0
  = foldl (fun s yx => body s (snd yx) (fst yx)) s0 (pixel_order w h).
Proof.
  unfold for_each_pixel, pixel_order. generalize (seq 0 h) as ys. intros ys. revert s0.
  induction ys as [|y ys IH]; intros s0; [reflexivity|].
  cbn [foldl]. rewrite IH. change (mbind ?f (y :: ys)) with (f y ++ mbind f ys).
  rewrite foldl_app. f_equal. rewrite foldl_fmap. reflexivity.
Qed.

Lemma elem_of_pixel_order w h y x :
  (y, x) ∈ pixel_order w h <-> y < h /\ x < w.
Proof.
  unfold pixel_order. rewrite list_elem_of_bind. split.
  - intros (y' & Hx & Hy). apply list_elem_of_fmap in Hx as (x' & Heq & Hx').
    inversion Heq; subst. apply elem_of_seq in Hy. apply elem_of_seq in Hx'. lia.
  - intros [Hy Hx]. exists y. split.
    + apply list_elem_of_fmap. exists x. split; [done|]. apply elem_of_seq. lia.
    + apply elem_of_seq. lia.
Qed.

Lemma row_major_inj w y x y' x' :
  x < w -> x' < w -> y' * w + x' = y * w + x -> y' = y /\ x' = x.
Proof.
  intros Hx Hx' E.
  destruct (lt_eq_lt_dec y y') as [[H|H]|H].
  - assert ((y + 1) * w <= y' * w) by (apply Nat.mul_le_mono_r; lia). lia.
  - subst. lia.
  - assert ((y' + 1) * w <= y * w) by (apply Nat.mul_le_mono_r; lia). lia.
Qed.

Lemma fold_put_length {A} (idx : A -> nat) (val : A -> Z) l buf :
  length (foldl (fun b a => put_pixel b (idx a * 4) (val a)) buf l) = length buf.
Proof.
  revert buf. induction l as [|a l IH]; intros buf; [done|].
  cbn [foldl]. rewrite IH. apply put_pixel_length.
Qed.

Lemma fold_put_lookup {A} (idx : A -> nat) (val : A -> Z) l buf a c :
  (forall b, b ∈ l -> idx b = idx a -> val b = val a) -> a ∈ l ->
  idx a * 4 + 3 < length buf -> c < 4 ->
  foldl (fun b a => put_pixel b (idx a * 4) (val a)) buf l !! (idx a * 4 + c)
  = Some (if c <? 3 then val a else 255%Z).
Proof.
  intros Hinj Hin Hlen Hc. revert Hinj Hin.
  induction l as [|b l IH] using rev_ind; intros Hinj Hin.
  { by apply elem_of_nil in Hin. }
  rewrite foldl_snoc.
  destruct (decide (idx b = idx a)) as [Heq|Hne].
  - rewrite Heq, (Hinj b); [|apply elem_of_app; right; by apply list_elem_of_singleton|done].
    apply put_pixel_same; [|done]. by rewrite fold_put_length.
  - rewrite put_pixel_other by lia.
    apply IH.
    + intros b' Hb'. apply Hinj. apply elem_of_app. by left.
    + apply elem_of_app in Hin as [Hin|Hin]; [done|].
      apply list_elem_of_singleton in Hin. congruence.
Qed.

Lemma fold_put_untouched {A} (idx : A -> nat) (val : A -> Z) l buf j :
  (forall b, b ∈ l -> j < idx b * 4 \/ idx b * 4 + 3 < j) ->
  foldl (fun b a => put_pixel b (idx a * 4) (val a)) buf l !! j = buf !! j.
Proof.
  revert buf. induction l as [|b l IH]; intros buf Hj; [done|].
  cbn [foldl]. rewrite IH.
  - apply put_pixel_other. apply Hj. by left.
  - intros b' Hb'. apply Hj. by right.
Qed.

Lemma sweep_length gs w h thr : length (data (sweep gs w h thr)) = 4 * w * h.
Proof.
  unfold sweep. cbn [data]. rewrite for_each_pixel_flat. unfold write_decision.
  rewrite (fold_put_length (fun yx => fst yx * w + snd yx)
             (fun yx => classify (of_read (gs !! (fst yx * w + snd yx))) (thr (snd yx) (fst yx)))).
  cbn [new_ImageData data]. apply length_replicate.
Qed.

Lemma pixel_index_bound w h x y : x < w -> y < h -> y * w + x < w * h.
Proof.
  intros Hx Hy. assert ((y + 1) * w <= h * w) by (apply Nat.mul_le_mono_r; lia). lia.
Qed.

Lemma sweep_lookup gs w h thr x y c :
  x < w -> y < h -> c < 4 ->
  data (sweep gs w h thr) !! ((y * w + x) * 4 + c)
  = Some (if c <? 3 then classify (of_read (gs !! (y * w + x))) (thr x y) else 255%Z).
Proof.
  intros Hx Hy Hc. unfold sweep. cbn [data]. rewrite for_each_pixel_flat.
  unfold write_decision.
  apply (fold_put_lookup (fun yx => fst yx * w + snd yx)
           (fun yx => classify (of_read (gs !! (fst yx * w + snd yx))) (thr (snd yx) (fst yx)))
           (pixel_order w h) _ (y, x) c).
  - intros [y' x'] Hin E. cbn [fst snd] in *.
    apply elem_of_pixel_order in Hin as [Hy' Hx'].
    destruct (row_major_inj w y x y' x' Hx Hx' E) as [-> ->]. done.
  - apply elem_of_pixel_order. done.
  - cbn [fst snd new_ImageData data]. rewrite length_replicate.
    pose proof (pixel_index_bound w h x y Hx Hy). lia.
  - done.
Qed.

Lemma applyThreshold_length gs t w h : length (data (applyThreshold gs t w h)) = 4 * w * h.
Proof.
  unfold applyThreshold. cbn [data].
  rewrite (fold_put_length (fun i => i)
             (fun i => classify (of_read (gs !! i)) (threshold_at t i))).
  apply length_replicate.
Qed.

Lemma applyThreshold_lookup gs t w h i c :
  length gs = w * h -> i < w * h -> c < 4 ->
  data (applyThreshold gs t w h) !! (i * 4 + c)
  = Some (if c <? 3 then classify (of_read (gs !! i)) (threshold_at t i) else 255%Z).
Proof.
  intros Hlen Hi Hc. unfold applyThreshold. cbn [data].
  apply (fold_put_lookup (fun i => i)
           (fun i => classify (of_read (gs !! i)) (threshold_at t i))
           (seq 0 (length gs)) _ i c).
  - intros b _ ->. done.
  - apply elem_of_seq. lia.
  - cbn [new_ImageData data]. rewrite length_replicate. lia.
  - done.
Qed.

Lemma toGrayscale_length img : length (toGrayscale img) = width img * height img.
Proof.
  unfold toGrayscale. generalize (seq 0 ((length (data img) + 3) / 4)) as ps.
  assert (length (replicate (width img * height img) 0%Z) = width img * height img) as H
    by apply length_replicate.
  revert H. generalize (replicate (width img * height img) 0%Z) as gs.
  intros gs H ps. revert gs H. induction ps as [|p ps IH]; intros gs H; [done|].
  cbn [foldl]. apply IH. unfold toGrayscale_step. by rewrite length_insert.
Qed.

Lemma toGrayscale_fold_lookup pixels n gs p :
  p < length gs ->
  foldl (toGrayscale_step pixels) gs (seq 0 n) !! p
  = if decide (p < n)
    then Some (ToUint8Clamp (luminance (of_read (pixels !! (4 * p)))
                                       (of_read (pixels !! (4 * p + 1)))
                                       (of_read (pixels !! (4 * p + 2)))))
    else gs !! p.
Proof.
  intros Hp. induction n as [|n IH].
  { cbn. case_decide; [lia|done]. }
  rewrite seq_S, foldl_snoc. cbn [Nat.add]. unfold toGrayscale_step at 1.
  assert (length (foldl (toGrayscale_step pixels) gs (seq 0 n)) = length gs) as Hl.
  { clear. generalize (seq 0 n). intros l. revert gs.
    induction l as [|a l IH]; intros gs; [done|]. cbn [foldl]. rewrite IH.
    unfold toGrayscale_step. by rewrite length_insert. }
  destruct (decide (p = n)) as [->|Hne].
  - rewrite list_lookup_insert_eq by lia. destruct (decide (n < S n)); [done|lia].
  - rewrite list_lookup_insert_ne by done. rewrite IH.
    destruct (decide (p < n)), (decide (p < S n)); try done; lia.
Qed.
End Buffers.

(** ** Shape of the output *)

Section Output.
Local Open Scope nat_scope.

Lemma classify_binary g t : classify g t = 0%Z \/ classify g t = 255%Z.
Proof. unfold classify. destruct (gt g t); auto. Qed.

Lemma sweep_pixel gs w h thr i :
  i < w * h ->
  data (sweep gs w h thr) !! (i * 4 + 0) = Some (classify (of_read (gs !! i)) (thr (i mod w) (i / w)))
  /\ data (sweep gs w h thr) !! (i * 4 + 1) = Some (classify (of_read (gs !! i)) (thr (i mod w) (i / w)))
  /\ data (sweep gs w h thr) !! (i * 4 + 2) = Some (classify (of_read (gs !! i)) (thr (i mod w) (i / w)))
  /\ data (sweep gs w h thr) !! (i * 4 + 3) = Some 255%Z.
Proof.
  intros Hi.
  assert (Hw : w <> 0) by (intros ->; lia).
  pose proof (Nat.div_mod_eq i w) as Hdm.
  pose proof (Nat.mod_upper_bound i w Hw) as Hx.
  assert (Hy : i / w < h).
  { apply Nat.Div0.div_lt_upper_bound. lia. }
  assert (Hidx : i / w * w + i mod w = i) by lia.
  pose proof (sweep_lookup gs w h thr (i mod w) (i / w)) as L.
  rewrite Hidx in L.
  repeat split; [apply (L 0)|apply (L 1)|apply (L 2)|apply (L 3)]; lia.
Qed.

Lemma sweep_binary gs w h thr i :
  i < w * h -> binary_pixel (sweep gs w h thr) i.
Proof.
  intros Hi. destruct (sweep_pixel gs w h thr i Hi) as (H0 & H1 & H2 & H3).
  rewrite Nat.add_0_r in H0.
  eexists. split; [apply classify_binary|]. eauto.
Qed.

Lemma applyThreshold_binary gs t w h i :
  length gs = w * h -> i < w * h -> binary_pixel (applyThreshold gs t w h) i.
Proof.
  intros Hl Hi. pose proof (applyThreshold_lookup gs t w h i) as L.
  exists (classify (of_read (gs !! i)) (threshold_at t i)).
  split; [apply classify_binary|].
  pose proof (L 0 Hl Hi ltac:(lia)) as L0. rewrite Nat.add_0_r in L0.
  repeat split; [apply L0|apply (L 1)|apply (L 2)|apply (L 3)]; done || lia.
Qed.

Lemma binarize_total a img k :
  exists out, binarize a img k = Some out /\
    width out = width img /\ height out = height img /\
    length (data out) = 4 * width img * height img /\
    forall i, i < width img * height img -> binary_pixel out i.
Proof.
  destruct a; cbn [binarize];
    unfold otsuThreshold, niblackThreshold, sauvolaThreshold, wolfThreshold,
      nickThreshold, trSinghThreshold, iSauvolaThreshold, wanThreshold;
    eexists; (split; [reflexivity|]).
  1: { repeat split; [apply applyThreshold_length|].
       intros i Hi. apply applyThreshold_binary; [apply toGrayscale_length|done]. }
  all: repeat split; [apply sweep_length|intros i Hi; by apply sweep_binary].
Qed.
End Output.

(** ** Windows, and the values of a black image *)

Section Windows.

Lemma elem_of_range_incl lo hi k : k ∈ range_incl lo hi <-> lo <= k <= hi.
Proof. unfold range_incl. rewrite elem_of_seqZ. lia. Qed.

Lemma elem_of_window_cells sx ex sy ey wy wx :
  (wy, wx) ∈ window_cells sx ex sy ey <-> sy <= wy <= ey /\ sx <= wx <= ex.
Proof.
  unfold window_cells. rewrite list_elem_of_bind. split.
  - intros (y' & Hx & Hy). apply list_elem_of_fmap in Hx as (x' & Heq & Hx').
    inversion Heq; subst. apply elem_of_range_incl in Hy. apply elem_of_range_incl in Hx'. lia.
  - intros [Hy Hx]. exists wy. split.
    + apply list_elem_of_fmap. exists wx. split; [done|]. by apply elem_of_range_incl.
    + by apply elem_of_range_incl.
Qed.

Lemma window_sums_flat gs w sx ex sy ey :
  window_sums gs w sx ex sy ey
  = foldl add_pixel (mkWindowSums zero zero zero)
      ((fun c => read gs (fst c * w + snd c)) <$> window_cells sx ex sy ey).
Proof.
  unfold window_sums, window_cells.
  generalize (mkWindowSums zero zero zero) as acc.
  generalize (range_incl sy ey) as ys. intros ys.
  induction ys as [|wy ys IH]; intros acc; [reflexivity|].
  cbn [foldl]. rewrite IH. change (mbind ?f (wy :: ys)) with (f wy ++ mbind f ys).
  rewrite fmap_app, foldl_app. f_equal.
  rewrite <- list_fmap_compose, foldl_fmap. reflexivity.
Qed.

Lemma length_window_cells sx ex sy ey :
  Z.of_nat (length (window_cells sx ex sy ey))
  = Z.max 0 (ey - sy + 1) * Z.max 0 (ex - sx + 1).
Proof.
  unfold window_cells, range_incl.
  assert (forall ys : list Z,
    length (ys ≫= λ wy : Z, (λ wx : Z, (wy, wx)) <$> seqZ sx (ex - sx + 1))
    = (length ys * Z.to_nat (ex - sx + 1))%nat) as H.
  { induction ys as [|a ys IH]; [done|].
    change (mbind ?f (a :: ys)) with (f a ++ mbind f ys).
    rewrite length_app, IH, length_fmap, length_seqZ. cbn [length]. lia. }
  rewrite H, length_seqZ. lia.
Qed.

Lemma window_of_bounds x y w h ws :
  0 <= x < w -> 0 <= y < h -> 0 <= ws ->
  let win := window_of x y w h ws in
  0 <= startX win <= x /\ x <= endX win <= w - 1 /\
  0 <= startY win <= y /\ y <= endY win <= h - 1.
Proof.
  intros Hx Hy Hws. cbn. pose proof (Z.div_pos ws 2 Hws ltac:(lia)). lia.
Qed.

Lemma cell_index_bound w h wy wx :
  0 <= wx <= w - 1 -> 0 <= wy <= h - 1 -> 0 <= wy * w + wx < w * h.
Proof. intros Hx Hy. nia. Qed.

Lemma aget_in_range gs i :
  0 <= i < Z.of_nat (length gs) -> is_Some (aget gs i).
Proof.
  intros H. unfold aget. destruct (i <? 0) eqn:E; [lia|].
  apply lookup_lt_is_Some. lia.
Qed.

End Windows.

Section ZeroOrNaN.

Lemma zon_add a b : zero_or_nan a -> zero_or_nan b -> zero_or_nan (add a b).
Proof. destruct a as [[]| | |], b as [[]| | |]; cbn; tauto. Qed.

Lemma zon_sub a b : zero_or_nan a -> zero_or_nan b -> zero_or_nan (sub a b).
Proof. destruct a as [[]| | |], b as [[]| | |]; cbn; tauto. Qed.

Lemma zon_mul_l a b : zero_or_nan a -> zero_or_nan (mul a b).
Proof. destruct a as [[]| | |], b as [[]|[]| |[]]; cbn; tauto. Qed.

Lemma zon_mul_r a b : zero_or_nan b -> zero_or_nan (mul a b).
Proof. destruct a as [[]|[]| |[]], b as [[]| | |]; cbn; tauto. Qed.

Lemma zon_div_l a b : zero_or_nan a -> zero_or_nan (div a b).
Proof. destruct a as [[]| | |], b as [[]|[]| |[]]; cbn; tauto. Qed.

Lemma zon_sqrt a : zero_or_nan a -> zero_or_nan (sqrt a).
Proof. destruct a as [[]| | |]; cbn; tauto. Qed.

Lemma zon_Math_min a b : zero_or_nan a -> zero_or_nan b -> zero_or_nan (Math_min a b).
Proof. destruct a as [[]| | |], b as [[]| | |]; cbn; tauto. Qed.

Lemma zon_Math_min_255 b : zero_or_nan b -> zero_or_nan (Math_min (of_Z 255) b).
Proof. destruct b as [[]| | |]; cbn; tauto. Qed.

Lemma gt_zon a t : zero_or_nan a -> zero_or_nan t -> gt a t = false.
Proof. destruct a as [[]| | |], t as [[]| | |]; cbn; tauto. Qed.

Lemma classify_zon a t : zero_or_nan a -> zero_or_nan t -> classify a t = 0.
Proof. intros Ha Ht. unfold classify. by rewrite gt_zon. Qed.

Lemma zon_of_read_zero (o : option Z) :
  (forall v, o = Some v -> v = 0) -> zero_or_nan (of_read o).
Proof. intros H. destruct o as [v|]; [|exact I]. rewrite (H v eq_refl). exact I. Qed.

Lemma ToUint8Clamp_zon x : zero_or_nan x -> ToUint8Clamp x = 0.
Proof. destruct x as [[]| | |]; cbn; tauto. Qed.

Lemma zon_luminance r g b :
  zero_or_nan r -> zero_or_nan g -> zero_or_nan b -> zero_or_nan (luminance r g b).
Proof. intros. unfold luminance. auto using zon_add, zon_mul_r. Qed.

End ZeroOrNaN.

Section BlackImage.


Lemma toGrayscale_black img : all_black img -> zero_samples (toGrayscale img).
Proof.
  intros Hb p v Hv.
  assert (p < length (toGrayscale img))%nat as Hp by (by eapply lookup_lt_Some).
  rewrite toGrayscale_length in Hp.
  unfold toGrayscale in Hv. rewrite toGrayscale_fold_lookup in Hv
    by (by rewrite length_replicate).
  destruct (decide _) as [_|_]; [|by apply lookup_replicate in Hv as [-> _]].
  injection Hv as <-.
  apply ToUint8Clamp_zon, zon_luminance; apply zon_of_read_zero; intros u Hu.
  - apply (Hb p 0%nat u); [lia|]. by rewrite Nat.add_0_r.
  - apply (Hb p 1%nat u); [lia|done].
  - apply (Hb p 2%nat u); [lia|done].
Qed.

Lemma zon_read gs i : zero_samples gs -> zero_or_nan (read gs i).
Proof.
  intros H. unfold read, aget. destruct (i <? 0); [exact I|].
  apply zon_of_read_zero. intros v Hv. by eapply H.
Qed.

Lemma zon_window_sums gs w sx ex sy ey :
  zero_samples gs ->
  zero_or_nan (sum (window_sums gs w sx ex sy ey)) /\
  zero_or_nan (squaredSum (window_sums gs w sx ex sy ey)).
Proof.
  intros H. rewrite window_sums_flat.
  generalize (window_cells sx ex sy ey) as cells.
  assert (zero_or_nan (sum (mkWindowSums zero zero zero)) /\
          zero_or_nan (squaredSum (mkWindowSums zero zero zero))) as Hacc by (cbn; tauto).
  revert Hacc. generalize (mkWindowSums zero zero zero) as acc.
  intros acc Hacc cells. revert acc Hacc.
  induction cells as [|c cells IH]; intros acc [Hs Hq]; [done|].
  cbn [fmap list_fmap foldl]. apply IH. cbn [add_pixel sum squaredSum]. split.
  - apply zon_add; [done|by apply zon_read].
  - apply zon_add; [done|]. apply zon_mul_l. by apply zon_read.
Qed.

Lemma zon_stats gs x y w h ws :
  zero_samples gs ->
  let st := calculateLocalStats gs x y w h ws in
  zero_or_nan (mean st) /\ zero_or_nan (variance st) /\ zero_or_nan (stdDev st).
Proof.
  intros H. unfold calculateLocalStats.
  set (win := window_of x y w h ws).
  destruct (zon_window_sums gs w (startX win) (endX win) (startY win) (endY win) H)
    as [Hs Hq].
  set (acc := window_sums gs w (startX win) (endX win) (startY win) (endY win)) in *.
  unfold stats_of_sums. cbn [mean variance stdDev].
  assert (zero_or_nan (div (sum acc) (count acc))) as Hm by (by apply zon_div_l).
  assert (zero_or_nan (sub (div (squaredSum acc) (count acc))
                           (mul (div (sum acc) (count acc)) (div (sum acc) (count acc)))))
    as Hv by (apply zon_sub; [by apply zon_div_l|by apply zon_mul_l]).
  repeat split; [done|done|by apply zon_sqrt].
Qed.

Lemma zon_niblack k st :
  zero_or_nan (mean st) -> zero_or_nan (stdDev st) -> zero_or_nan (niblack_formula k st).
Proof. intros. unfold niblack_formula. auto using zon_add, zon_mul_r. Qed.

Lemma zon_sauvola k st : zero_or_nan (mean st) -> zero_or_nan (sauvola_formula k st).
Proof. intros. unfold sauvola_formula. auto using zon_mul_l. Qed.

Lemma zon_trSingh p st : zero_or_nan (mean st) -> zero_or_nan (trSingh_formula p st).
Proof. intros. unfold trSingh_formula. auto using zon_mul_l. Qed.

Lemma zon_wolf k g st :
  zero_or_nan (mean st) -> zero_or_nan (minVal g) -> zero_or_nan (wolf_formula k g st).
Proof. intros. unfold wolf_formula. auto using zon_sub, zon_mul_r. Qed.

Lemma zon_nick k st :
  zero_or_nan (mean st) -> zero_or_nan (variance st) -> zero_or_nan (nick_formula k st).
Proof.
  intros Hm Hv. unfold nick_formula.
  apply zon_add; [done|]. apply zon_mul_r, zon_sqrt, zon_add; [done|by apply zon_mul_l].
Qed.

Lemma zon_iSauvola k gsd st : zero_or_nan (mean st) -> zero_or_nan (iSauvola_formula k gsd st).
Proof. intros. unfold iSauvola_formula. auto using zon_mul_l. Qed.

Lemma zon_wan k e st : zero_or_nan (mean st) -> zero_or_nan (wan_formula k e st).
Proof. intros. unfold wan_formula. auto using zon_mul_l. Qed.

Lemma zon_wolf_minVal gs w h x y :
  zero_samples gs -> (x < w)%nat -> (y < h)%nat ->
  zero_or_nan (minVal (wolf_prepass gs w h)).
Proof.
  intros Hz Hx Hy. unfold wolf_prepass. rewrite for_each_pixel_flat.
  assert (forall l g0, zero_or_nan (minVal g0) ->
    zero_or_nan (minVal (foldl (fun g (yx : nat * nat) =>
       mkWolfGlobals (Math_min (minVal g) (of_read (gs !! (fst yx * w + snd yx)%nat)))
         (Math_max (maxStdDev g) (stdDev (stats_at gs w h (snd yx) (fst yx))))) g0 l))) as A.
  { induction l as [|a l IH]; intros g0 Hg; [done|].
    cbn [foldl]. apply IH. cbn [minVal]. apply zon_Math_min; [done|].
    apply zon_of_read_zero. intros v Hv. by eapply Hz. }
  assert ((y, x) ∈ pixel_order w h) as Hin by (by apply elem_of_pixel_order).
  destruct (pixel_order w h) as [|a l]; [by apply elem_of_nil in Hin|].
  cbn [foldl]. apply A. cbn [minVal]. apply zon_Math_min_255.
  apply zon_of_read_zero. intros v Hv. by eapply Hz.
Qed.

Lemma otsu_loop_threshold_range hist total s ts st :
  Forall (fun t => 0 <= t <= 255) ts -> 0 <= threshold st <= 255 ->
  0 <= threshold (otsu_loop hist total s ts st) <= 255.
Proof.
  revert st. induction ts as [|t ts IH]; intros st Hts Hst; [done|].
  apply Forall_cons in Hts as [Ht Hts]. cbn [otsu_loop].
  destruct (strict_eq _ zero); [by apply IH|].
  destruct (strict_eq _ zero); [done|].
  apply IH; [done|]. by destruct (gt _ _).
Qed.

Lemma otsu_level_range gs : 0 <= otsu_level gs <= 255.
Proof.
  unfold otsu_level, otsu_search. apply otsu_loop_threshold_range; [|done].
  apply Forall_forall. intros t Ht. apply elem_of_seqZ in Ht. lia.
Qed.

Lemma gt_zon_of_Z a t : zero_or_nan a -> 0 <= t < 2 ^ 53 -> gt a (of_Z t) = false.
Proof.
  intros Ha Ht. destruct t as [|p|p]; [by apply gt_zon| |lia].
  rewrite of_Z_pos by lia. by destruct a as [[]| | |].
Qed.

Lemma sweep_black gs w h thr i :
  zero_samples gs ->
  (forall x y, (x < w)%nat -> (y < h)%nat -> zero_or_nan (thr x y)) ->
  (i < w * h)%nat -> black_pixel (sweep gs w h thr) i.
Proof.
  intros Hz Ht Hi. destruct (sweep_pixel gs w h thr i Hi) as (H0 & H1 & H2 & H3).
  rewrite Nat.add_0_r in H0.
  assert (w <> 0)%nat as Hw by (intros ->; lia).
  assert (zero_or_nan (thr (i mod w) (i / w))%nat) as Hthr.
  { apply Ht; [by apply Nat.mod_upper_bound|].
    apply Nat.Div0.div_lt_upper_bound. lia. }
  rewrite classify_zon in H0, H1, H2
    by (done || (apply zon_of_read_zero; intros v Hv; by eapply Hz)).
  done.
Qed.

End BlackImage.

(** ** Exact window sums *)

Section ExactSums.

Lemma one_of_Z : one = of_Z 1.
Proof. reflexivity. Qed.

Lemma Zsum_bytes vs :
  Forall (fun v => 0 <= v <= 255) vs ->
  0 <= Zsum vs <= 255 * Z.of_nat (length vs) /\
  0 <= Zsum (squares vs) <= 65025 * Z.of_nat (length vs).
Proof.
  induction 1 as [|v vs Hv _ IH]; cbn [Zsum squares fmap list_fmap foldr length].
  - lia.
  - fold (squares vs). fold (Zsum vs). fold (Zsum (squares vs)). nia.
Qed.

Lemma fold_add_pixel_count cells acc n :
  count acc = of_Z n -> 0 <= n -> n + Z.of_nat (length cells) < 2 ^ 53 ->
  count (foldl add_pixel acc cells) = of_Z (n + Z.of_nat (length cells)).
Proof.
  revert acc n. induction cells as [|c cells IH]; intros acc n Hc Hn Hb.
  - cbn. rewrite Hc. f_equal. lia.
  - cbn [foldl length] in *. rewrite (IH _ (n + 1)).
    + f_equal. lia.
    + cbn [add_pixel count]. rewrite Hc, one_of_Z. apply add_of_Z; lia.
    + lia.
    + lia.
Qed.

Lemma fold_add_pixel_exact vs :
  Forall (fun v => 0 <= v <= 255) vs ->
  forall S Q n, 0 <= n -> 0 <= S <= 255 * n -> 0 <= Q <= 65025 * n ->
  65025 * (n + Z.of_nat (length vs)) < 2 ^ 53 ->
  foldl add_pixel (mkWindowSums (of_Z S) (of_Z Q) (of_Z n)) (of_Z <$> vs)
  = mkWindowSums (of_Z (S + Zsum vs)) (of_Z (Q + Zsum (squares vs)))
                 (of_Z (n + Z.of_nat (length vs))).
Proof.
  induction 1 as [|v vs Hv Hvs IH]; intros S Q n Hn HS HQ Hb.
  - cbn. f_equal; f_equal; lia.
  - cbn [fmap list_fmap foldl length Zsum squares foldr] in *.
    fold (squares vs). fold (Zsum vs). fold (Zsum (squares vs)).
    unfold add_pixel at 2. cbn [sum squaredSum count].
    rewrite one_of_Z, mul_of_Z, !add_of_Z by nia.
    rewrite IH by nia.
    f_equal; f_equal; lia.
Qed.

Lemma window_reads_values gs w cells :
  (forall c, c ∈ cells -> is_Some (aget gs (fst c * w + snd c))) ->
  (fun c => read gs (fst c * w + snd c)) <$> cells = of_Z <$> window_values gs w cells.
Proof.
  intros H. unfold window_values. rewrite <- list_fmap_compose.
  apply list_fmap_ext. intros i c Hc. cbn. unfold read.
  apply list_elem_of_lookup_2 in Hc.
  destruct (H c Hc) as [v ->]. reflexivity.
Qed.

Lemma window_values_bytes gs w cells :
  bytes gs -> Forall (fun v => 0 <= v <= 255) (window_values gs w cells).
Proof.
  intros Hb. unfold window_values. apply Forall_fmap, Forall_forall. intros c _. cbn.
  unfold aget. destruct (_ <? 0); [cbn; lia|].
  destruct (gs !! _) as [v|] eqn:E; [|cbn; lia]. cbn.
  unfold bytes in Hb. rewrite Forall_forall in Hb. apply Hb. by eapply list_elem_of_lookup_2.
Qed.

Lemma window_cells_in_range gs x y w h ws :
  0 <= x < w -> 0 <= y < h -> 0 <= ws -> Z.of_nat (length gs) = w * h ->
  let win := window_of x y w h ws in
  forall c, c ∈ window_cells (startX win) (endX win) (startY win) (endY win) ->
    0 <= fst c * w + snd c < w * h /\ is_Some (aget gs (fst c * w + snd c)).
Proof.
  intros Hx Hy Hws Hl win [wy wx] Hc.
  pose proof (window_of_bounds x y w h ws Hx Hy Hws) as B. cbn zeta in B. fold win in B.
  apply elem_of_window_cells in Hc. cbn [fst snd].
  assert (0 <= wy * w + wx < w * h) as Hi by (apply cell_index_bound; lia).
  split; [done|]. apply aget_in_range. lia.
Qed.

Lemma window_cells_count x y w h ws :
  0 <= x < w -> 0 <= y < h -> 0 <= ws ->
  let win := window_of x y w h ws in
  1 <= Z.of_nat (length (window_cells (startX win) (endX win) (startY win) (endY win)))
    <= w * h.
Proof.
  intros Hx Hy Hws win.
  pose proof (window_of_bounds x y w h ws Hx Hy Hws) as B. cbn zeta in B. fold win in B.
  rewrite length_window_cells. nia.
Qed.

Lemma window_sums_exact gs x y w h ws :
  bytes gs -> 0 <= x < w -> 0 <= y < h -> 0 <= ws ->
  Z.of_nat (length gs) = w * h -> 65025 * (w * h) < 2 ^ 53 ->
  let win := window_of x y w h ws in
  let vs := window_values gs w
              (window_cells (startX win) (endX win) (startY win) (endY win)) in
  window_sums gs w (startX win) (endX win) (startY win) (endY win)
  = mkWindowSums (of_Z (Zsum vs)) (of_Z (Zsum (squares vs)))
                 (of_Z (Z.of_nat (length vs))).
Proof.
  intros Hb Hx Hy Hws Hl Hsz win vs.
  rewrite window_sums_flat, window_reads_values.
  2: { intros c Hc. by apply (window_cells_in_range gs x y w h ws). }
  fold vs. change zero with (of_Z 0).
  pose proof (window_cells_count x y w h ws Hx Hy Hws) as Hn. cbn zeta in Hn. fold win in Hn.
  assert (length vs = length (window_cells (startX win) (endX win) (startY win) (endY win)))
    as Hlen by (unfold vs, window_values; by rewrite length_fmap).
  rewrite fold_add_pixel_exact; [done| |lia|lia|lia|lia].
  by apply window_values_bytes.
Qed.

End ExactSums.

(** ** The all-black image *)

Lemma all_black_replicate w h n : all_black (mkImageData w h (replicate n 0)).
Proof. intros p c v _ Hv. cbn [data] in Hv. by apply lookup_replicate in Hv as [-> _]. Qed.

(** C8. An all-black input (every R, G and B sample 0) is binarized to an
    all-black output by each of the eight algorithms, for every parameter:
    the NaN that Wolf's 0/0 and ISauvola's 0/0 produce makes the comparison
    [gray > threshold] false, so no pixel becomes 255. *)
Theorem black_image_binarizes_to_black a img k :
  all_black img ->
  exists out, binarize a img k = Some out /\
    forall i, (i < width img * height img)%nat -> black_pixel out i.
Proof.
  intros Hb. pose proof (toGrayscale_black img Hb) as Hz.
  destruct a; cbn [binarize];
    unfold otsuThreshold, niblackThreshold, sauvolaThreshold, wolfThreshold,
      nickThreshold, trSinghThreshold, iSauvolaThreshold, wanThreshold;
    eexists; (split; [reflexivity|]); intros i Hi.
  1: { pose proof (applyThreshold_lookup (toGrayscale img)
                     (Scalar (of_Z (otsu_level (toGrayscale img))))
                     (width img) (height img) i) as L.
       assert (classify (of_read (toGrayscale img !! i))
                 (threshold_at (Scalar (of_Z (otsu_level (toGrayscale img)))) i) = 0) as C.
       { unfold classify. cbn [threshold_at]. rewrite gt_zon_of_Z; [done| |].
         - apply zon_of_read_zero. intros v Hv. by eapply Hz.
         - pose proof (otsu_level_range (toGrayscale img)). lia. }
       rewrite C in L.
       pose proof (L 0%nat (toGrayscale_length img) Hi ltac:(lia)) as L0.
       rewrite Nat.add_0_r in L0.
       repeat split; [apply L0|apply (L 1%nat)|apply (L 2%nat)|apply (L 3%nat)];
         (apply toGrayscale_length || done || lia). }
  all: apply sweep_black; [done| |done]; intros x y Hx Hy;
    destruct (zon_stats (toGrayscale img) (Z.of_nat x) (Z.of_nat y)
                (Z.of_nat (width img)) (Z.of_nat (height img))
                (windowSize_of (width img) (height img)) Hz) as (Hm & Hv & Hs);
    fold (stats_at (toGrayscale img) (width img) (height img) x y) in Hm, Hv, Hs.
  - by apply zon_niblack.
  - by apply zon_sauvola.
  - apply zon_wolf; [done|]. by eapply zon_wolf_minVal.
  - by apply zon_nick.
  - by apply zon_trSingh.
  - by apply zon_iSauvola.
  - by apply zon_wan.
Qed.


Lemma black_image_witness :
  exists out, binarize Wolf black10 wolf_default_k = Some out /\
    forall i, (i < 10 * 10)%nat -> black_pixel out i.
Proof.
  exact (black_image_binarizes_to_black Wolf black10 wolf_default_k
           (all_black_replicate 10 10 400)).
Defined.

(** ** Uniform images *)

Section Uniform.

Lemma round_half_even_nonneg m e : 0 <= round_half_even m e.
Proof.
  unfold round_half_even. destruct (0 <=? e) eqn:E.
  - apply Z.leb_le in E. pose proof (pow2_pos e E). nia.
  - apply Z.leb_gt in E. pose proof (pow2_pos (- e) ltac:(lia)).
    assert (0 <= Z.pos m / 2 ^ (- e)) by (apply Z.div_pos; lia).
    destruct (_ ?= _); [destruct (Z.even _)| |]; lia.
Qed.

Lemma ToUint8Clamp_range x : 0 <= ToUint8Clamp x <= 255.
Proof.
  destruct x as [s|[]| |[] m e]; cbn [ToUint8Clamp]; try lia.
  pose proof (round_half_even_nonneg m e).
  destruct (255 <=? round_half_even m e) eqn:E; [lia|]. apply Z.leb_gt in E. lia.
Qed.

Lemma toGrayscale_lookup img p :
  (p < width img * height img)%nat ->
  (4 * p < length (data img))%nat ->
  toGrayscale img !! p
  = Some (ToUint8Clamp (luminance (of_read (data img !! (4 * p)%nat))
                                  (of_read (data img !! (4 * p + 1)%nat))
                                  (of_read (data img !! (4 * p + 2)%nat)))).
Proof.
  intros Hp Hd. unfold toGrayscale.
  rewrite toGrayscale_fold_lookup by (by rewrite length_replicate).
  destruct (decide _) as [_|Hn]; [done|]. exfalso. apply Hn.
  apply Nat.div_le_lower_bound; lia.
Qed.

Lemma toGrayscale_bytes img : bytes (toGrayscale img).
Proof.
  unfold bytes, toGrayscale.
  generalize (seq 0 ((length (data img) + 3) / 4)) as ps.
  assert (Forall (fun v => 0 <= v <= 255) (replicate (width img * height img) 0)) as H.
  { apply Forall_forall. intros v Hv. apply elem_of_replicate in Hv as [-> _]. lia. }
  revert H. generalize (replicate (width img * height img) 0) as gs.
  intros gs H ps. revert gs H. induction ps as [|p ps IH]; intros gs H; [done|].
  cbn [foldl]. apply IH. unfold toGrayscale_step.
  apply Forall_insert; [done|]. apply ToUint8Clamp_range.
Qed.

Lemma toGrayscale_uniform img r g b :
  uniform_image img r g b ->
  toGrayscale img
  = replicate (width img * height img)
      (ToUint8Clamp (luminance (of_Z r) (of_Z g) (of_Z b))).
Proof.
  intros [(Hw & Hh & Hl) Hpix]. apply list_eq. intros p.
  destruct (decide (p < width img * height img)%nat) as [Hp|Hp].
  - rewrite toGrayscale_lookup by lia.
    destruct (Hpix p Hp) as (-> & -> & ->). cbn [of_read].
    symmetry. by apply lookup_replicate_2.
  - rewrite !lookup_ge_None_2; [done| |].
    + rewrite length_replicate. lia.
    + rewrite toGrayscale_length. lia.
Qed.

Lemma Zsum_const {A} (l : list A) v : Zsum ((fun _ => v) <$> l) = Z.of_nat (length l) * v.
Proof. induction l as [|a l IH]; cbn [fmap list_fmap Zsum foldr length] in *; [lia|]. fold (Zsum ((λ _ : A, v) <$> l)). lia. Qed.

Lemma aget_replicate n v i :
  0 <= i < Z.of_nat n -> aget (replicate n v) i = Some v.
Proof.
  intros H. unfold aget. destruct (i <? 0) eqn:E; [lia|].
  apply lookup_replicate_2. lia.
Qed.

Lemma uniform_stats v x y w h ws :
  0 <= v <= 255 -> 0 <= x < w -> 0 <= y < h -> 0 <= ws ->
  65025 * (w * h) < 2 ^ 53 ->
  calculateLocalStats (replicate (Z.to_nat (w * h)) v) x y w h ws
  = mkLocalStats (of_Z v) zero zero.
Proof.
  intros Hv Hx Hy Hws Hsz. unfold calculateLocalStats.
  set (gs := replicate (Z.to_nat (w * h)) v).
  assert (Z.of_nat (length gs) = w * h) as Hl.
  { unfold gs. rewrite length_replicate. nia. }
  assert (bytes gs) as Hb.
  { apply Forall_forall. intros u Hu. apply elem_of_replicate in Hu as [-> _]. lia. }
  rewrite (window_sums_exact gs x y w h ws Hb Hx Hy Hws Hl Hsz).
  set (win := window_of x y w h ws).
  set (cells := window_cells (startX win) (endX win) (startY win) (endY win)).
  assert (window_values gs w cells = (fun _ => v) <$> cells) as Hvals.
  { unfold window_values. apply list_fmap_ext. intros i c Hc. cbn beta.
    apply list_elem_of_lookup_2 in Hc.
    destruct (window_cells_in_range gs x y w h ws Hx Hy Hws Hl c Hc) as [Hi _].
    unfold gs. rewrite aget_replicate; [done|]. nia. }
  rewrite Hvals. unfold squares. rewrite <- list_fmap_compose.
  change ((λ v0 : Z, v0 * v0) ∘ (λ _ : Z * Z, v)) with (fun _ : Z * Z => v * v).
  rewrite !Zsum_const, length_fmap.
  pose proof (window_cells_count x y w h ws Hx Hy Hws) as Hn. cbn zeta in Hn.
  fold win in Hn. fold cells in Hn.
  set (n := Z.of_nat (length cells)) in *.
  unfold stats_of_sums. cbn [sum squaredSum count].
  rewrite !div_of_Z by nia. rewrite mul_of_Z by nia.
  rewrite sub_diag_of_Z by nia. reflexivity.
Qed.

Lemma uniform_stats_at v (w h x y : nat) :
  0 <= v <= 255 -> (x < w)%nat -> (y < h)%nat ->
  65025 * Z.of_nat (w * h) < 2 ^ 53 ->
  stats_at (replicate (w * h) v) w h x y = mkLocalStats (of_Z v) zero zero.
Proof.
  intros Hv Hx Hy Hsz. unfold stats_at.
  replace (replicate (w * h) v)
    with (replicate (Z.to_nat (Z.of_nat w * Z.of_nat h)) v) by (f_equal; lia).
  apply uniform_stats; try lia. unfold windowSize_of. lia.
Qed.

Lemma sweep_uniform v w h thr T i :
  (forall x y, (x < w)%nat -> (y < h)%nat -> thr x y = T) ->
  (i < w * h)%nat ->
  pixel_is (sweep (replicate (w * h) v) w h thr) i (classify (of_Z v) T).
Proof.
  intros Ht Hi.
  destruct (sweep_pixel (replicate (w * h) v) w h thr i Hi) as (H0 & H1 & H2 & H3).
  rewrite Nat.add_0_r in H0.
  assert (w <> 0)%nat as Hw by (intros ->; lia).
  rewrite Ht in H0, H1, H2
    by (by apply Nat.mod_upper_bound || (apply Nat.Div0.div_lt_upper_bound; lia)).
  rewrite lookup_replicate_2 in H0, H1, H2 by done.
  done.
Qed.

End Uniform.

(** C9. On a uniform image every local window has standard deviation
    exactly +0, and Niblack, Sauvola, NICK and T.R. Singh put every pixel
    in one class (for any parameter, the defaults included). The size
    bound keeps the integer sums of the window exact in binary64. *)
Theorem uniform_image_single_class a k img r g b :
  uniform_image img r g b ->
  65025 * Z.of_nat (width img * height img) < 2 ^ 53 ->
  purely_local a ->
  (forall x y, (x < width img)%nat -> (y < height img)%nat ->
     stdDev (stats_at (toGrayscale img) (width img) (height img) x y) = zero) /\
  exists out c, binarize a img k = Some out /\ (c = 0 \/ c = 255) /\
    forall i, (i < width img * height img)%nat -> pixel_is out i c.
Proof.
  intros Hu Hsz Ha. rewrite (toGrayscale_uniform img r g b Hu).
  set (v := ToUint8Clamp (luminance (of_Z r) (of_Z g) (of_Z b))).
  pose proof (ToUint8Clamp_range (luminance (of_Z r) (of_Z g) (of_Z b))) as Hv. fold v in Hv.
  split.
  { intros x y Hx Hy. by rewrite uniform_stats_at. }
  exists (sweep (replicate (width img * height img) v) (width img) (height img)
            (fun x y => local_formula a k
               (stats_at (replicate (width img * height img) v) (width img) (height img) x y))).
  exists (classify (of_Z v) (local_formula a k (mkLocalStats (of_Z v) zero zero))).
  split; [|split; [apply classify_binary|]].
  - destruct Ha as [-> | [-> | [-> | ->]]]; cbn [binarize local_formula];
      unfold niblackThreshold, sauvolaThreshold, nickThreshold, trSinghThreshold;
      by rewrite (toGrayscale_uniform img r g b Hu).
  - intros i Hi. apply sweep_uniform; [|done].
    intros x y Hx Hy. by rewrite uniform_stats_at.
Qed.


Lemma uniform_gray2x2 : uniform_image gray2x2 90 90 90.
Proof.
  split.
  { unfold well_formed, gray2x2. cbn [width height data].
    rewrite length_replicate. lia. }
  intros p Hp. unfold gray2x2 in *. cbn [width height data] in *.
  rewrite !lookup_replicate_2 by lia. done.
Qed.

Lemma uniform_image_witness :
  (forall x y, (x < 2)%nat -> (y < 2)%nat ->
     stdDev (stats_at (toGrayscale gray2x2) 2 2 x y) = zero) /\
  exists out c, binarize Niblack gray2x2 niblack_default_k = Some out /\
    (c = 0 \/ c = 255) /\
    forall i, (i < 2 * 2)%nat -> pixel_is out i c.
Proof.
  apply (uniform_image_single_class Niblack niblack_default_k gray2x2 90 90 90).
  - exact uniform_gray2x2.
  - cbn. lia.
  - left. reflexivity.
Defined.

(** ** Shape, totality and window bounds *)

Lemma well_formed_sample2x2 : well_formed sample2x2.
Proof. unfold well_formed, sample2x2. cbn [width height data length]. lia. Qed.

(** C6. For every algorithm and every well-formed input, the output has
    the input's width and height, and each of its pixels has R = G = B in
    {0, 255} and alpha 255. *)
Theorem output_is_binary_image a img k :
  well_formed img ->
  exists out, binarize a img k = Some out /\
    width out = width img /\ height out = height img /\
    forall i, (i < width img * height img)%nat -> binary_pixel out i.
Proof.
  intros _. destruct (binarize_total a img k) as (out & Ho & Hw & Hh & _ & Hp).
  exists out. auto.
Qed.

Lemma output_is_binary_image_witness :
  exists out, binarize Sauvola sample2x2 sauvola_default_k = Some out /\
    width out = 2%nat /\ height out = 2%nat /\
    forall i, (i < 2 * 2)%nat -> binary_pixel out i.
Proof.
  exact (output_is_binary_image Sauvola sample2x2 sauvola_default_k well_formed_sample2x2).
Defined.




(** ** Wolf on a flat image *)

Section WolfDegenerate.

Lemma binary_round_aux_cases s mx ex lx :
  let r := binary_round_aux prec emax s mx ex lx in
  r = S754_zero s \/ r = S754_infinity s \/ r = S754_nan \/
  exists m e, r = S754_finite s m e.
Proof.
  cbn zeta. unfold binary_round_aux.
  destruct (shr_fexp prec emax mx ex lx) as [mrs' e'].
  destruct (shr_fexp prec emax _ e' loc_Exact) as [mrs'' e''].
  destruct (shr_m mrs'') as [|m|m]; [auto| |auto].
  destruct (e'' <=? emax - prec); eauto 6.
Qed.

Lemma sqrt_at_most_zero v : at_most_zero (sqrt v) -> is_zero (sqrt v).
Proof.
  destruct v as [s|[]| |[] m e]; cbn; try done.
  destruct (SFsqrt_core_binary prec emax (Z.pos m) e) as [[mz ez] lz].
  destruct (binary_round_aux_cases false mz ez lz) as [H|[H|[H|(m' & e' & H)]]];
    cbn zeta in H; rewrite H; cbn; done.
Qed.

Lemma Math_max_at_most_zero a b :
  at_most_zero (Math_max a b) -> at_most_zero a /\ at_most_zero b.
Proof.
  destruct a as [[]|[]| |[] ma ea], b as [[]|[]| |[] mb eb]; cbn; try tauto;
    try (intros H; discriminate H).
  all: unfold Math_max; cbn [SFcompare];
    repeat (match goal with |- context [match ?c with _ => _ end] => destruct c end);
    cbn; auto; try tauto; try (intros H; discriminate H).
Qed.

Lemma fold_Math_max_at_most_zero l a :
  at_most_zero (foldl Math_max a l) ->
  at_most_zero a /\ forall s, s ∈ l -> at_most_zero s.
Proof.
  revert a. induction l as [|b l IH]; intros a H.
  - split; [done|]. intros s Hs. by apply elem_of_nil in Hs.
  - cbn [foldl] in H. destruct (IH _ H) as [Hab Hl].
    destruct (Math_max_at_most_zero a b Hab) as [Ha Hb].
    split; [done|]. intros s Hs. apply elem_of_cons in Hs as [->|Hs]; auto.
Qed.

Lemma wolf_prepass_maxStdDev gs w h :
  maxStdDev (wolf_prepass gs w h)
  = foldl Math_max zero
      ((fun yx => stdDev (stats_at gs w h (snd yx) (fst yx))) <$> pixel_order w h).
Proof.
  unfold wolf_prepass. rewrite for_each_pixel_flat.
  generalize (pixel_order w h) as l.
  assert (maxStdDev (mkWolfGlobals (of_Z 255) zero) = zero) as H by reflexivity.
  revert H. generalize (mkWolfGlobals (of_Z 255) zero) as g. generalize zero as a.
  intros a g H l. revert a g H. induction l as [|c l IH]; intros a g H; [done|].
  cbn [foldl fmap list_fmap]. apply IH. cbn [maxStdDev]. by rewrite H.
Qed.

Lemma is_zero_at_most_zero x : is_zero x -> at_most_zero x.
Proof. by destruct x. Qed.

Lemma div_zero_zero a b : is_zero a -> is_zero b -> div a b = NaN.
Proof. by destruct a, b. Qed.

Lemma wolf_formula_nan k g st :
  is_zero (stdDev st) -> is_zero (maxStdDev g) -> wolf_formula k g st = NaN.
Proof.
  intros Hs Hm. unfold wolf_formula. rewrite (div_zero_zero _ _ Hs Hm).
  cbn [sub SFsub one NaN].
  replace (mul k S754_nan) with S754_nan by (by destruct k).
  cbn [mul SFmul]. by destruct (mean st).
Qed.

Lemma classify_nan g : classify g NaN = 0.
Proof. unfold classify, gt, SFltb. cbn [SFcompare NaN]. done. Qed.

End WolfDegenerate.

(** C1, as stated, fails: on a flat 2 x 2 buffer the pre-pass finds
    maxStdDev = 0 and the threshold at pixel (0, 0) is NaN, while the
    formula with the ratio taken as 0 would give 7. *)
Lemma wolf_flat_threshold_is_NaN :
  maxStdDev (wolf_prepass flat7 2 2) = zero /\
  wolf_formula wolf_default_k (wolf_prepass flat7 2 2) (stats_at flat7 2 2 0 0) = NaN /\
  wolf_degenerate_spec wolf_default_k (wolf_prepass flat7 2 2) (stats_at flat7 2 2 0 0)
  = of_Z 7.
Proof. repeat split; vm_compute; reflexivity. Qed.

(** C1, amended. When the pre-pass finds maxStdDev = 0, the ratio
    stdDev / maxStdDev is 0 / 0 = NaN at every pixel, so the threshold is
    NaN for every parameter k; the comparison [gray > NaN] is false and the
    pixel is written as 0. There is no division guard. *)
Theorem wolf_zero_maxStdDev_gives_NaN gs w h k x y :
  (x < w)%nat -> (y < h)%nat ->
  is_zero (maxStdDev (wolf_prepass gs w h)) ->
  wolf_formula k (wolf_prepass gs w h) (stats_at gs w h x y) = NaN /\
  classify (of_read (gs !! (y * w + x)%nat))
           (wolf_formula k (wolf_prepass gs w h) (stats_at gs w h x y)) = 0.
Proof.
  intros Hx Hy Hz.
  assert (is_zero (stdDev (stats_at gs w h x y))) as Hs.
  { pose proof (is_zero_at_most_zero _ Hz) as Hle.
    rewrite wolf_prepass_maxStdDev in Hle.
    apply fold_Math_max_at_most_zero in Hle as [_ Hall].
    assert (at_most_zero (stdDev (stats_at gs w h x y))) as Hsd.
    { apply Hall. apply list_elem_of_fmap. exists (y, x). split; [done|].
      by apply elem_of_pixel_order. }
    unfold stats_at, calculateLocalStats, stats_of_sums in *. cbn [stdDev] in *.
    by apply sqrt_at_most_zero. }
  rewrite (wolf_formula_nan k _ _ Hs Hz). split; [done|apply classify_nan].
Qed.

Lemma wolf_zero_maxStdDev_witness :
  wolf_formula wolf_default_k (wolf_prepass flat7 2 2) (stats_at flat7 2 2 1 1) = NaN /\
  classify (of_read (flat7 !! (1 * 2 + 1)%nat))
           (wolf_formula wolf_default_k (wolf_prepass flat7 2 2) (stats_at flat7 2 2 1 1)) = 0.
Proof.
  apply (wolf_zero_maxStdDev_gives_NaN flat7 2 2 wolf_default_k 1 1); [lia|lia|].
  vm_compute. exact I.
Defined.

(** ** Otsu keeps the first maximum *)

Section FloatOrder.

Ltac order_cases :=
  change (PosDef.Pos.compare_cont Eq) with Pos.compare;
  repeat match goal with
  | |- context [(?a ?= ?b)%positive] => destruct (Pos.compare_spec a b)
  | |- context [?a ?= ?b] => destruct (Z.compare_spec a b)
  end;
  cbn [CompOpp];
  (split; [try discriminate; intros _; repeat split; (done || lia)
          |try done; intros (?&?&?); try done; try lia]).

Lemma SFltb_key x y :
  SFltb x y = true <-> not_nan x /\ not_nan y /\ key_lt (order_key x) (order_key y).
Proof.
  unfold SFltb, not_nan, key_lt.
  destruct x as [sx|[]| |[] mx ex], y as [sy|[]| |[] my ey];
    cbn [SFcompare order_key fst snd]; order_cases.
Qed.

Lemma SFleb_key x y :
  SFleb x y = true <-> not_nan x /\ not_nan y /\ ~ key_lt (order_key y) (order_key x).
Proof.
  unfold SFleb, not_nan, key_lt.
  destruct x as [sx|[]| |[] mx ex], y as [sy|[]| |[] my ey];
    cbn [SFcompare order_key fst snd]; order_cases.
Qed.

Lemma SFltb_irrefl x : SFltb x x = false.
Proof.
  destruct (SFltb x x) eqn:E; [|done].
  apply SFltb_key in E as (_ & _ & H). unfold key_lt in H. lia.
Qed.

Lemma SFltb_trans a b c : SFltb a b = true -> SFltb b c = true -> SFltb a c = true.
Proof.
  rewrite !SFltb_key. unfold key_lt. intros (?&?&?) (?&?&?). repeat split; (done || lia).
Qed.

Lemma SFltb_leb_trans a b c : SFltb a b = true -> SFleb b c = true -> SFltb a c = true.
Proof.
  rewrite !SFltb_key, SFleb_key. unfold key_lt. intros (?&?&?) (?&?&?).
  repeat split; (done || lia).
Qed.

End FloatOrder.

Section OtsuSearch.

Variable histogram : list number.
Variables total wsum : number.

Lemma otsu_loop_first_max (n : nat) : forall a st,
  threshold st <= a ->
  let st' := otsu_loop histogram total wsum (seqZ a (Z.of_nat n)) st in
  let cands := otsu_trace histogram total wsum (seqZ a (Z.of_nat n)) (sumB st) (wB st) in
  ((maxVariance st' = maxVariance st /\ threshold st' = threshold st) \/
   (gt (maxVariance st') (maxVariance st) = true /\
    (threshold st', maxVariance st') ∈ cands)) /\
  (forall t v, (t, v) ∈ cands ->
     a <= t /\ gt v (maxVariance st') = false /\
     (SFleb (maxVariance st') v = true -> threshold st' <= t)).
Proof.
  induction n as [|n IH]; intros a st Ha.
  { cbn. split; [by left|]. intros t v Hin. by apply elem_of_nil in Hin. }
  rewrite seqZ_cons by lia.
  replace (Z.pred (Z.of_nat (S n))) with (Z.of_nat n) by lia.
  cbn [otsu_loop otsu_trace].
  set (wB' := add (wB st) (hist_at histogram a)).
  destruct (strict_eq wB' zero) eqn:EwB.
  { specialize (IH (Z.succ a)
      (mkOtsuState (sumB st) wB' (wF st) (maxVariance st) (threshold st))
      ltac:(cbn; lia)).
    cbn [sumB wB maxVariance threshold] in IH. cbn zeta in IH.
    destruct IH as [IH1 IH2]. split; [exact IH1|].
    intros t v Hin. destruct (IH2 t v Hin) as (? & ? & ?). repeat split; (done || lia). }
  set (wF' := sub total wB').
  destruct (strict_eq wF' zero) eqn:EwF.
  { cbn. split; [by left|]. intros t v Hin. by apply elem_of_nil in Hin. }
  set (sumB' := add (sumB st) (mul (of_Z a) (hist_at histogram a))).
  set (v0 := between_class_variance wB' wF' (div sumB' wB') (div (sub wsum sumB') wF')).
  set (st1 := if gt v0 (maxVariance st)
              then mkOtsuState sumB' wB' wF' v0 a
              else mkOtsuState sumB' wB' wF' (maxVariance st) (threshold st)).
  assert (sumB st1 = sumB' /\ wB st1 = wB') as [Hs1 Hw1]
    by (unfold st1; by destruct (gt v0 (maxVariance st))).
  assert (threshold st1 <= a) as Ht1
    by (unfold st1; destruct (gt v0 (maxVariance st)); cbn; lia).
  specialize (IH (Z.succ a) st1 ltac:(lia)). cbn zeta in IH.
  rewrite Hs1, Hw1 in IH. destruct IH as [IH1 IH2].
  set (st' := otsu_loop histogram total wsum (seqZ (Z.succ a) (Z.of_nat n)) st1) in *.
  set (rest := otsu_trace histogram total wsum (seqZ (Z.succ a) (Z.of_nat n)) sumB' wB') in *.
  (* how the state after [a] relates to the state before *)
  assert (gt v0 (maxVariance st1) = false) as Hv0.
  { unfold st1. destruct (gt v0 (maxVariance st)) eqn:E; cbn [maxVariance]; [|done].
    apply SFltb_irrefl. }
  assert ((maxVariance st1 = maxVariance st /\ threshold st1 = threshold st) \/
          (gt (maxVariance st1) (maxVariance st) = true /\
           maxVariance st1 = v0 /\ threshold st1 = a)) as Hstep.
  { unfold st1. destruct (gt v0 (maxVariance st)) eqn:E; cbn; auto. }
  split.
  - destruct IH1 as [[HM HT]|[Hgt Hin]].
    + rewrite HM, HT. destruct Hstep as [[HM1 HT1]|(Hgt1 & HM1 & HT1)].
      * left. by rewrite HM1, HT1.
      * right. split; [done|]. rewrite HM1, HT1. apply elem_of_cons. by left.
    + right. split; [|apply elem_of_cons; by right].
      destruct Hstep as [[HM1 HT1]|(Hgt1 & HM1 & HT1)].
      * by rewrite <- HM1.
      * unfold gt in *. by eapply SFltb_trans.
  - intros t v Hin. apply elem_of_cons in Hin as [Heq|Hin].
    + injection Heq as -> ->. split; [lia|].
      destruct IH1 as [[HM HT]|[Hgt _]].
      * rewrite HM, HT. split; [done|]. intros _. done.
      * split.
        -- destruct (gt v0 (maxVariance st')) eqn:E; [|done].
           unfold gt in *. rewrite (SFltb_trans _ _ _ Hgt E) in Hv0. done.
        -- intros Hle. unfold gt in *.
           rewrite (SFltb_leb_trans _ _ _ Hgt Hle) in Hv0. done.
    + destruct (IH2 t v Hin) as (? & ? & ?). repeat split; (done || lia).
Qed.

End OtsuSearch.

Lemma otsu_search_first_max histogram total :
  ((maxVariance (otsu_search histogram total) = zero /\
    threshold (otsu_search histogram total) = 0) \/
   (gt (maxVariance (otsu_search histogram total)) zero = true /\
    (threshold (otsu_search histogram total), maxVariance (otsu_search histogram total))
      ∈ otsu_candidates histogram total)) /\
  (forall t v, (t, v) ∈ otsu_candidates histogram total ->
     0 <= t /\ gt v (maxVariance (otsu_search histogram total)) = false /\
     (SFleb (maxVariance (otsu_search histogram total)) v = true ->
      threshold (otsu_search histogram total) <= t)).
Proof.
  exact (otsu_loop_first_max histogram total (otsu_weighted_sum histogram)
           (Z.to_nat 256) 0 otsu_init (Z.le_refl 0)).
Qed.

(** C7. Among the thresholds the search evaluates, none has a computed
    (binary64) variance above the one kept, and every one whose computed
    variance reaches the kept maximum has an index at or above the
    returned threshold: with two or more thresholds of equal maximal
    computed variance, the lowest is returned. When some evaluated
    variance is positive the returned pair is itself one of the evaluated
    ones. *)
Theorem otsu_keeps_first_maximum histogram total :
  let st := otsu_search histogram total in
  let cands := otsu_candidates histogram total in
  (forall t v, (t, v) ∈ cands -> gt v (maxVariance st) = false) /\
  (forall t v, (t, v) ∈ cands -> SFleb (maxVariance st) v = true -> threshold st <= t) /\
  ((exists t v, (t, v) ∈ cands /\ gt v zero = true) ->
   (threshold st, maxVariance st) ∈ cands).
Proof.
  destruct (otsu_search_first_max histogram total) as [H1 H2].
  split; [|split].
  - intros t v Hin. by destruct (H2 t v Hin) as (_ & ? & _).
  - intros t v Hin. by destruct (H2 t v Hin) as (_ & _ & ?).
  - intros (t & v & Hin & Hpos). destruct H1 as [[HM _]|[_ Hin']]; [|done].
    destruct (H2 t v Hin) as (_ & Hle & _). rewrite HM in Hle. congruence.
Qed.

(** Thresholds 0 and 1 of [tie_histogram] have the same computed
    variance 4, and 0 is returned. *)
Lemma otsu_tie_example :
  otsu_candidates tie_histogram (of_Z 2) = [(0, of_Z 4); (1, of_Z 4)] /\
  threshold (otsu_search tie_histogram (of_Z 2)) = 0.
Proof. split; vm_compute; reflexivity. Qed.

(** The equality that matters is that of the computed binary64 values:
    on [symmetric_histogram] thresholds 0 and 1 have the same variance
    16/3 in exact arithmetic, but the two computed values differ in the
    last bit and the search returns 1. *)
Lemma otsu_rounding_example :
  otsu_candidates symmetric_histogram (of_Z 4)
  = [(0, S754_finite false 6004799503160661 (-50));
     (1, S754_finite false 6004799503160662 (-50))] /\
  threshold (otsu_search symmetric_histogram (of_Z 4)) = 1.
Proof. split; vm_compute; reflexivity. Qed.

Lemma otsu_keeps_first_maximum_witness :
  threshold (otsu_search tie_histogram (of_Z 2)) <= 1.
Proof.
  destruct (otsu_keeps_first_maximum tie_histogram (of_Z 2)) as (_ & H & _).
  apply (H 1 (of_Z 4)).
  - rewrite (proj1 otsu_tie_example). apply elem_of_cons. right. apply elem_of_cons. by left.
  - vm_compute. reflexivity.
Defined.

(** ** Real values and rounding error of binary64 operations *)

Section RealValues.
Local Open Scope R_scope.

Lemma bpow_pos e : 0 < bpow e.
Proof. apply powerRZ_lt. lra. Qed.

Lemma bpow_add a b : bpow (a + b) = bpow a * bpow b.
Proof. apply powerRZ_add. lra. Qed.

Lemma bpow_succ e : bpow (e + 1) = 2 * bpow e.
Proof.
  rewrite bpow_add. replace (bpow 1) with 2; [lra|].
  unfold bpow, powerRZ. simpl. lra.
Qed.

Lemma bpow_0 : bpow 0 = 1.
Proof. reflexivity. Qed.

Lemma bpow_IZR k : (0 <= k)%Z -> bpow k = IZR (2 ^ k).
Proof.
  intros Hk. rewrite <- (Z2Nat.id k Hk) at 2. rewrite <- pow_IZR.
  unfold bpow. rewrite <- (Z2Nat.id k Hk) at 1. symmetry. apply pow_powerRZ.
Qed.

Lemma bpow_opp e : bpow (- e) = / bpow e.
Proof.
  pose proof (bpow_add (- e) e) as H. replace (- e + e)%Z with 0%Z in H by lia.
  rewrite bpow_0 in H. pose proof (bpow_pos e).
  apply Rmult_eq_reg_r with (bpow e); [|lra]. rewrite <- H.
  rewrite Rinv_l; lra.
Qed.

Lemma bpow_le a b : (a <= b)%Z -> bpow a <= bpow b.
Proof.
  intros H. replace b with (a + (b - a))%Z by lia. rewrite bpow_add.
  rewrite (bpow_IZR (b - a)) by lia.
  assert (1 <= IZR (2 ^ (b - a))).
  { apply IZR_le. pose proof (pow2_pos (b - a) ltac:(lia)). lia. }
  pose proof (bpow_pos a). nra.
Qed.

Lemma F2R_canon p : (Z.pos p < 2 ^ 53)%Z -> F2R (canon false p) = IZR (Z.pos p).
Proof.
  intros H. unfold canon, F2R. rewrite norm_m_scaled by assumption.
  pose proof (norm_e_range p H).
  rewrite mult_IZR, <- bpow_IZR by lia.
  rewrite Rmult_1_l, Rmult_assoc, <- bpow_add.
  replace (- norm_e p + norm_e p)%Z with 0%Z by lia. rewrite bpow_0. lra.
Qed.

Lemma F2R_of_Z a : (0 <= a < 2 ^ 53)%Z -> F2R (of_Z a) = IZR a.
Proof.
  intros H. destruct a as [|p|p]; [reflexivity| |lia].
  rewrite of_Z_pos by lia. apply F2R_canon. lia.
Qed.

End RealValues.



Section Rounding.
Local Open Scope R_scope.

Lemma IZR_xO p : IZR (Z.pos p~0) = 2 * IZR (Z.pos p).
Proof. change (Z.pos p~0) with (2 * Z.pos p)%Z. by rewrite mult_IZR. Qed.

Lemma IZR_xI p : IZR (Z.pos p~1) = 2 * IZR (Z.pos p) + 1.
Proof. change (Z.pos p~1) with (2 * Z.pos p + 1)%Z. by rewrite plus_IZR, mult_IZR. Qed.

Lemma shr_1_nonneg mrs : (0 <= shr_m mrs)%Z -> (0 <= shr_m (shr_1 mrs))%Z.
Proof. destruct mrs as [[|[p|p|]|p] r s]; cbn; lia. Qed.

Lemma shr_1_ok mrs e x :
  (0 <= shr_m mrs)%Z -> rec_ok mrs e x -> rec_ok (shr_1 mrs) (e + 1) x.
Proof.
  pose proof (bpow_pos e) as Hb.
  destruct mrs as [[|[p|p|]|p] [] []]; unfold rec_ok; cbn [shr_1 shr_m shr_r shr_s orb];
    rewrite ?bpow_succ;
    repeat match goal with
    | |- context [IZR (Z.pos ?q~0)] => is_var q; rewrite (IZR_xO q)
    | |- context [IZR (Z.pos ?q~1)] => is_var q; rewrite (IZR_xI q)
    end;
    intros Hm H; try lia; lra.
Qed.

Lemma shr_iter_ok n mrs e x :
  (0 <= shr_m mrs)%Z -> rec_ok mrs e x ->
  rec_ok (Nat.iter n shr_1 mrs) (e + Z.of_nat n) x /\
  (0 <= shr_m (Nat.iter n shr_1 mrs))%Z.
Proof.
  intros Hm H. induction n as [|n [IH1 IH2]].
  - cbn [Nat.iter]. rewrite Z.add_0_r. done.
  - cbn [Nat.iter]. split; [|by apply shr_1_nonneg].
    replace (e + Z.of_nat (S n))%Z with (e + Z.of_nat n + 1)%Z by lia.
    by apply shr_1_ok.
Qed.

Lemma shr_ok mrs e n x :
  (0 <= shr_m mrs)%Z -> rec_ok mrs e x -> (0 <= n)%Z ->
  rec_ok (fst (shr mrs e n)) (e + n) x /\
  snd (shr mrs e n) = (e + n)%Z /\
  (0 <= shr_m (fst (shr mrs e n)))%Z.
Proof.
  intros Hm H Hn. destruct n as [|p|p]; [| |lia]; cbn [shr fst snd].
  - rewrite Z.add_0_r. done.
  - rewrite iter_pos_nat.
    destruct (shr_iter_ok (Pos.to_nat p) mrs e x Hm H) as [H1 H2].
    rewrite positive_nat_Z in H1. done.
Qed.

Lemma rec_ok_bounds mrs e x :
  rec_ok mrs e x -> IZR (shr_m mrs) * bpow e <= x < (IZR (shr_m mrs) + 1) * bpow e.
Proof.
  pose proof (bpow_pos e). unfold rec_ok. destruct (shr_r mrs), (shr_s mrs); intros; lra.
Qed.

Lemma round_nearest_even_ok mrs e x :
  rec_ok mrs e x ->
  let m1 := round_nearest_even (shr_m mrs) (loc_of_shr_record mrs) in
  (m1 = shr_m mrs \/ m1 = (shr_m mrs + 1)%Z) /\
  Rabs (IZR m1 * bpow e - x) <= bpow e / 2.
Proof.
  pose proof (bpow_pos e) as Hb. destruct mrs as [m [] []]; unfold rec_ok;
    cbn [shr_m shr_r shr_s loc_of_shr_record round_nearest_even]; intros H.
  - split; [by right|]. rewrite plus_IZR. apply Rabs_le. lra.
  - destruct (Z.even m); (split; [auto|]); rewrite ?plus_IZR; apply Rabs_le; lra.
  - split; [by left|]. apply Rabs_le. lra.
  - split; [by left|]. apply Rabs_le. lra.
Qed.

Lemma rec_ok_of_loc_exact m e : rec_ok (shr_record_of_loc m loc_Exact) e (IZR m * bpow e).
Proof. reflexivity. Qed.

Lemma shr_m_of_loc m l : shr_m (shr_record_of_loc m l) = m.
Proof. by destruct l as [|[]]. Qed.

Lemma IZR_pow2_lt a b : IZR a * bpow b < IZR (2 ^ 53) * bpow b -> (a < 2 ^ 53)%Z.
Proof. intros H. pose proof (bpow_pos b). apply lt_IZR. nra. Qed.

Lemma bra_bound s mx ex lx x :
  (-1074 <= ex)%Z -> (53 <= Z.pos (digits2_pos mx))%Z ->
  (ex + Z.pos (digits2_pos mx) <= 1023)%Z ->
  rec_ok (shr_record_of_loc (Z.pos mx) lx) ex x ->
  exists m e,
    binary_round_aux prec emax s (Z.pos mx) ex lx = S754_finite s m e /\
    (2 ^ 52 <= Z.pos m < 2 ^ 53)%Z /\
    (ex + Z.pos (digits2_pos mx) - 53 <= e <= ex + Z.pos (digits2_pos mx) - 52)%Z /\
    Rabs (IZR (Z.pos m) * bpow e - x) <= bpow e / 2.
Proof.
  intros Hex Hd Hov Hx.
  set (d := Z.pos (digits2_pos mx)) in *.
  unfold binary_round_aux, shr_fexp. cbn [Zdigits2]. fold d.
  replace (fexp prec emax (d + ex) - ex)%Z with (d - 53)%Z
    by (unfold fexp, emin, prec, emax; lia).
  destruct (shr_ok (shr_record_of_loc (Z.pos mx) lx) ex (d - 53) x) as (Hok & Hsnd & Hnn);
    [rewrite shr_m_of_loc; lia|done|lia|].
  destruct (shr (shr_record_of_loc (Z.pos mx) lx) ex (d - 53)) as [mrs' e'].
  cbn [fst snd] in Hok, Hsnd, Hnn. subst e'.
  set (e' := (ex + (d - 53))%Z) in *.
  (* the truncated mantissa has 53 bits *)
  assert (2 ^ 52 <= shr_m mrs' < 2 ^ 53)%Z as Hm'.
  { pose proof (rec_ok_bounds _ _ _ Hx) as [Hx1 Hx2]. rewrite shr_m_of_loc in Hx1, Hx2.
    pose proof (rec_ok_bounds _ _ _ Hok) as [Ho1 Ho2].
    pose proof (digits2_bounds mx) as [Dl Du]. fold d in Dl, Du.
    pose proof (bpow_pos ex) as Hb0. pose proof (bpow_pos e') as HB.
    assert (bpow e' = bpow ex * IZR (2 ^ (d - 53))) as HBe
      by (unfold e'; rewrite bpow_add, (bpow_IZR (d - 53)) by lia; done).
    pose proof (pow2_pos (d - 53) ltac:(lia)) as HK.
    assert (2 ^ 52 * 2 ^ (d - 53) <= Z.pos mx)%Z as Dl'.
    { rewrite <- Z.pow_add_r by lia. replace (52 + (d - 53))%Z with (d - 1)%Z by lia. done. }
    assert (Z.pos mx + 1 <= 2 ^ 53 * 2 ^ (d - 53))%Z as Du'.
    { rewrite <- Z.pow_add_r by lia. replace (53 + (d - 53))%Z with d by lia. lia. }
    apply IZR_le in Dl', Du'. rewrite mult_IZR in Dl', Du'. rewrite plus_IZR in Du'.
    apply IZR_lt in HK.
    set (K := IZR (2 ^ (d - 53))) in *.
    assert (IZR (2 ^ 52) * bpow e' <= x) as L1 by (rewrite HBe; nra).
    assert (x < IZR (2 ^ 53) * bpow e') as L2 by (rewrite HBe; nra).
    split.
    - assert (2 ^ 52 < shr_m mrs' + 1)%Z; [|lia].
      apply lt_IZR. rewrite plus_IZR. nra.
    - apply lt_IZR. nra. }
  destruct (round_nearest_even_ok mrs' e' x Hok) as [Hm1 Herr]. cbn zeta in Hm1, Herr.
  set (m1 := round_nearest_even (shr_m mrs') (loc_of_shr_record mrs')) in *.
  assert (2 ^ 52 <= m1 <= 2 ^ 53)%Z as Hm1r by lia.
  destruct (Z.eq_dec m1 (2 ^ 53)%Z) as [E|NE].
  - (* the mantissa rounded up to 2^53: one more shift *)
    rewrite E in *. cbn [shr_record_of_loc].
    change (Zdigits2 (2 ^ 53)%Z) with 54%Z.
    replace (fexp prec emax (54 + e') - e')%Z with 1%Z
      by (unfold fexp, emin, prec, emax, e'; lia).
    assert (shr {| shr_m := (2 ^ 53)%Z; shr_r := false; shr_s := false |} e' 1
            = ({| shr_m := Z.pos (Z.to_pos (2 ^ 52)%Z); shr_r := false; shr_s := false |},
               (e' + 1)%Z)) as -> by reflexivity.
    cbn [shr_m].
    replace (e' + 1 <=? emax - prec)%Z with true
      by (symmetry; apply Z.leb_le; unfold emax, prec, e'; lia).
    exists (Z.to_pos (2 ^ 52)%Z), (e' + 1)%Z. split; [done|].
    split; [done|]. split; [unfold e'; lia|].
    rewrite bpow_succ. pose proof (bpow_pos e').
    change (IZR (Z.pos (Z.to_pos (2 ^ 52)%Z))) with (IZR (2 ^ 52)%Z).
    replace (IZR (2 ^ 52) * (2 * bpow e') - x) with (IZR (2 ^ 53) * bpow e' - x).
    + eapply Rle_trans; [exact Herr|]. lra.
    + change (2 ^ 53)%Z with (2 * 2 ^ 52)%Z. rewrite mult_IZR. lra.
  - destruct m1 as [|q|q] eqn:Eq; [lia| |lia].
    assert (Z.pos (digits2_pos q) = 53%Z) as Dq by (apply digits2_unique; lia).
    cbn [Zdigits2 shr_record_of_loc]. rewrite Dq.
    replace (fexp prec emax (53 + e') - e')%Z with 0%Z
      by (unfold fexp, emin, prec, emax, e'; lia).
    cbn [shr shr_m].
    replace (e' <=? emax - prec)%Z with true
      by (symmetry; apply Z.leb_le; unfold emax, prec, e'; lia).
    exists q, e'. split; [done|]. split; [lia|]. split; [unfold e'; lia|]. exact Herr.
Qed.

Lemma new_location_ok m2 q r e :
  (0 < m2)%Z -> (0 <= r < m2)%Z ->
  rec_ok (shr_record_of_loc q (new_location m2 r)) e
         ((IZR q + IZR r / IZR m2) * bpow e).
Proof.
  intros Hm2 Hr. pose proof (bpow_pos e) as Hb.
  assert (0 < IZR m2) as Hm2R by (apply IZR_lt; lia).
  set (t := IZR r / IZR m2).
  assert (t * IZR m2 = IZR r) as Ht by (unfold t; field; lra).
  assert (0 <= IZR r) as Hr0 by (apply IZR_le; lia).
  unfold new_location, new_location_even, new_location_odd.
  destruct (Z.eq_dec r 0%Z) as [->|Hne].
  { assert (t = 0) as -> by nra.
    destruct (Z.even m2); unfold rec_ok; cbn; lra. }
  assert (1 <= IZR r) as Hr1 by (apply IZR_le; lia).
  assert (0 < t) as Htp by nra.
  destruct (Z.even m2) eqn:Ev; rewrite (proj2 (Z.eqb_neq r 0%Z) Hne).
  - destruct (Z.compare_spec (2 * r) m2) as [E|L|G]; unfold rec_ok;
      cbn [shr_record_of_loc shr_m shr_r shr_s].
    + apply (f_equal IZR) in E. rewrite mult_IZR in E.
      assert (t = / 2) as -> by nra. done.
    + apply IZR_lt in L. rewrite mult_IZR in L.
      assert (t < / 2) by nra. split; nra.
    + apply IZR_lt in G. rewrite mult_IZR in G.
      assert (/ 2 < t) by nra. assert (IZR r < IZR m2) by (apply IZR_lt; lia).
      assert (t < 1) by nra. split; nra.
  - assert (2 * r <> m2)%Z as Hodd.
    { intros <-. rewrite Z.even_mul in Ev. discriminate. }
    destruct (Z.compare_spec (2 * r + 1) m2) as [E|L|G]; unfold rec_ok;
      cbn [shr_record_of_loc shr_m shr_r shr_s].
    + assert (2 * r < m2)%Z as L by lia. apply IZR_lt in L. rewrite mult_IZR in L.
      assert (t < / 2) by nra. split; nra.
    + assert (2 * r < m2)%Z as L' by lia. apply IZR_lt in L'. rewrite mult_IZR in L'.
      assert (t < / 2) by nra. split; nra.
    + assert (m2 < 2 * r)%Z as G' by lia. apply IZR_lt in G'. rewrite mult_IZR in G'.
      assert (/ 2 < t) by nra. assert (IZR r < IZR m2) by (apply IZR_lt; lia).
      assert (t < 1) by nra. split; nra.
Qed.

Lemma half_ulp_relative m e x :
  (2 ^ 52 <= Z.pos m)%Z ->
  Rabs (IZR (Z.pos m) * bpow e - x) <= bpow e / 2 ->
  Rabs (IZR (Z.pos m) * bpow e - x) <= IZR (Z.pos m) * bpow e * unit_roundoff.
Proof.
  intros Hm H. eapply Rle_trans; [exact H|]. unfold unit_roundoff.
  pose proof (bpow_pos e). apply IZR_le in Hm.
  change (2 ^ 53)%Z with (2 * 2 ^ 52)%Z. rewrite mult_IZR.
  assert (0 < IZR (2 ^ 52)) by (apply IZR_lt; lia).
  assert (bpow e / 2 = IZR (2 ^ 52) * bpow e * / (2 * IZR (2 ^ 52))) as -> by (field; lra).
  apply Rmult_le_compat_r.
  - apply Rlt_le, Rinv_0_lt_compat. lra.
  - nra.
Qed.

Lemma div_pos_normal la ha lb hb a b :
  pos_normal la ha a -> pos_normal lb hb b ->
  (-1074 <= la - hb - 53)%Z -> (ha - lb <= 969)%Z ->
  pos_normal (la - hb - 53) (ha - lb - 51) (div a b) /\
  Rabs (F2R (div a b) - F2R a / F2R b) <= F2R (div a b) * unit_roundoff.
Proof.
  destruct a as [| | |[] m1 e1]; try done. destruct b as [| | |[] m2 e2]; try done.
  intros [D1 E1] [D2 E2] Hlo Hhi.
  unfold div, SFdiv, SFdiv_core_binary. cbn [xorb Zdigits2]. rewrite D1, D2.
  set (e' := Z.min (fexp prec emax (53 + e1 - (53 + e2))) (e1 - e2)).
  assert (He' : e' = (e1 - e2 - 53)%Z) by (unfold e', fexp, emin, prec, emax; lia).
  replace (e1 - e2 - e')%Z with 53%Z by lia.
  rewrite Z.shiftl_mul_pow2 by lia.
  pose proof (digits2_bounds m1) as [B1l B1u]. rewrite D1 in B1l, B1u.
  pose proof (digits2_bounds m2) as [B2l B2u]. rewrite D2 in B2l, B2u.
  pose proof (Z.div_eucl_eq (Z.pos m1 * 2 ^ 53) (Z.pos m2) ltac:(lia)) as Heq.
  pose proof (Z.mod_pos_bound (Z.pos m1 * 2 ^ 53) (Z.pos m2) ltac:(lia)) as Hmod.
  unfold Z.modulo in Hmod.
  destruct (Z.div_eucl (Z.pos m1 * 2 ^ 53) (Z.pos m2)) as [q r].
  assert (2 ^ 52 <= q < 2 ^ 54)%Z as Hq.
  { change (2 ^ 54)%Z with (2 ^ 53 * 2)%Z. change (53 - 1)%Z with 52%Z in *.
    change (2 ^ 53)%Z with (2 ^ 52 * 2)%Z in *. nia. }
  destruct q as [|qq|qq]; [lia| |lia].
  assert (53 <= Z.pos (digits2_pos qq) <= 54)%Z as Dq.
  { pose proof (digits2_bounds qq) as [Ql Qu]. split.
    - destruct (Z_lt_le_dec (Z.pos (digits2_pos qq)) 53) as [L|L]; [|lia].
      assert (2 ^ Z.pos (digits2_pos qq) <= 2 ^ 52)%Z by (apply Z.pow_le_mono_r; lia). lia.
    - destruct (Z_lt_le_dec 54 (Z.pos (digits2_pos qq))) as [L|L]; [|lia].
      assert (2 ^ 54 <= 2 ^ (Z.pos (digits2_pos qq) - 1))%Z by (apply Z.pow_le_mono_r; lia).
      lia. }
  destruct (bra_bound false qq e' (new_location (Z.pos m2) r)
              ((IZR (Z.pos qq) + IZR r / IZR (Z.pos m2)) * bpow e'))
    as (m & e & Hres & Hm & He & Herr); [lia|lia|lia| |].
  { apply new_location_ok; lia. }
  rewrite Hres. cbn [pos_normal F2R].
  split.
  { split; [apply digits2_unique; lia|lia]. }
  replace (1 * IZR (Z.pos m1) * bpow e1 / (1 * IZR (Z.pos m2) * bpow e2))
    with ((IZR (Z.pos qq) + IZR r / IZR (Z.pos m2)) * bpow e').
  { rewrite Rmult_1_l. apply half_ulp_relative; [lia|done]. }
  assert (bpow (-53) = / IZR (2 ^ 53)) as Hc.
  { change (-53)%Z with (- (53))%Z. rewrite bpow_opp, bpow_IZR by lia. done. }
  rewrite He'. replace (e1 - e2 - 53)%Z with (e1 + (- e2 + -53))%Z by lia.
  rewrite !bpow_add, bpow_opp, Hc.
  apply (f_equal IZR) in Heq. rewrite plus_IZR, !mult_IZR in Heq.
  pose proof (bpow_pos e1). pose proof (bpow_pos e2).
  assert (0 < IZR (Z.pos m2)) by (apply IZR_lt; lia).
  assert (0 < IZR (2 ^ 53)) by (apply IZR_lt; lia).
  field_simplify_eq; [|lra].
  transitivity (bpow e1 * (IZR (Z.pos m2) * IZR (Z.pos qq) + IZR r)); [ring|].
  rewrite <- Heq. ring.
Qed.

Lemma mul_pos_normal la ha lb hb a b :
  pos_normal la ha a -> pos_normal lb hb b ->
  (-1074 <= la + lb)%Z -> (ha + hb <= 917)%Z ->
  pos_normal (la + lb + 52) (ha + hb + 54) (mul a b) /\
  Rabs (F2R (mul a b) - F2R a * F2R b) <= F2R (mul a b) * unit_roundoff.
Proof.
  destruct a as [| | |[] m1 e1]; try done. destruct b as [| | |[] m2 e2]; try done.
  intros [D1 E1] [D2 E2] Hlo Hhi.
  unfold mul, SFmul. cbn [xorb].
  pose proof (digits2_mul_ge m1 m2) as Dl. pose proof (digits2_mul_le m1 m2) as Du.
  rewrite D1, D2 in Dl, Du.
  destruct (bra_bound false (m1 * m2) (e1 + e2) loc_Exact
              (IZR (Z.pos (m1 * m2)) * bpow (e1 + e2)))
    as (m & e & Hres & Hm & He & Herr); [lia|lia|lia|apply rec_ok_of_loc_exact|].
  rewrite Hres. cbn [pos_normal F2R].
  split.
  { split; [apply digits2_unique; lia|lia]. }
  replace (1 * IZR (Z.pos m1) * bpow e1 * (1 * IZR (Z.pos m2) * bpow e2))
    with (IZR (Z.pos (m1 * m2)) * bpow (e1 + e2)).
  { rewrite Rmult_1_l. apply half_ulp_relative; [lia|done]. }
  rewrite Pos2Z.inj_mul, mult_IZR, bpow_add. ring.
Qed.

Lemma pos_normal_of_Z a :
  (0 < a < 2 ^ 53)%Z -> pos_normal (-52) 0 (of_Z a) /\ F2R (of_Z a) = IZR a.
Proof.
  intros H. split; [|apply F2R_of_Z; lia].
  destruct a as [|p|p]; try lia. rewrite of_Z_pos by lia. cbn [canon pos_normal].
  split; [apply norm_m_digits; lia|apply norm_e_range; lia].
Qed.

Lemma pos_normal_F2R lo hi x : pos_normal lo hi x -> 0 < F2R x.
Proof.
  destruct x as [| | |[] m e]; try done. intros _. cbn [F2R].
  pose proof (bpow_pos e). assert (0 < IZR (Z.pos m)) by (apply IZR_lt; lia). nra.
Qed.

End Rounding.

(** ** Signs, and the dispersion of integer samples *)

Section Signs.

Lemma shr_nonneg mrs e n : 0 <= shr_m mrs -> 0 <= shr_m (fst (shr mrs e n)).
Proof.
  intros H. destruct n as [|p|p]; cbn [shr fst]; try done.
  rewrite iter_pos_nat. induction (Pos.to_nat p) as [|k IH]; [done|].
  cbn [Nat.iter]. by apply shr_1_nonneg.
Qed.

Lemma bra_nonneg mx ex lx :
  0 <= mx -> nonneg_num (binary_round_aux prec emax false mx ex lx).
Proof.
  intros H. unfold binary_round_aux, shr_fexp.
  pose proof (shr_nonneg (shr_record_of_loc mx lx) ex
                (fexp prec emax (Zdigits2 mx + ex) - ex)) as H1.
  rewrite shr_m_of_loc in H1. specialize (H1 H).
  destruct (shr (shr_record_of_loc mx lx) ex _) as [mrs' e']. cbn [fst] in H1.
  assert (0 <= round_nearest_even (shr_m mrs') (loc_of_shr_record mrs')) as H2.
  { unfold round_nearest_even. destruct (loc_of_shr_record mrs') as [|[]];
      try destruct (Z.even _); lia. }
  pose proof (shr_nonneg
    (shr_record_of_loc (round_nearest_even (shr_m mrs') (loc_of_shr_record mrs')) loc_Exact)
    e' (fexp prec emax (Zdigits2 (round_nearest_even (shr_m mrs') (loc_of_shr_record mrs')) + e') - e')) as H3.
  rewrite shr_m_of_loc in H3. specialize (H3 H2).
  destruct (shr _ e' _) as [mrs'' e'']. cbn [fst] in H3.
  destruct (shr_m mrs'') as [|m|m]; [done| |lia].
  by destruct (e'' <=? emax - prec).
Qed.

Lemma binary_round_nonneg m e : nonneg_num (binary_round prec emax false m e).
Proof.
  unfold binary_round. destruct (shl_align m e _) as [mz ez]. by apply bra_nonneg.
Qed.

Lemma sqrt_nonneg x : nonneg_num x -> nonneg_num (sqrt x).
Proof.
  destruct x as [s| [] | |[] m e]; try done. intros _.
  unfold sqrt, SFsqrt, SFsqrt_core_binary.
  set (m' := match e - 2 * _ with Z.pos _ => _ | 0 => _ | Z.neg _ => _ end).
  assert (0 <= m') as Hm'.
  { unfold m'. destruct (e - 2 * _) as [|p|p]; [lia| |lia].
    rewrite Z.shiftl_mul_pow2 by lia. pose proof (pow2_pos (Z.pos p) ltac:(lia)). lia. }
  pose proof (Z.sqrtrem_spec m' Hm') as Hs.
  destruct (Z.sqrtrem m') as [q r]. apply bra_nonneg. nia.
Qed.

Lemma nonneg_num_leb x : nonneg_num x <-> SFleb zero x = true.
Proof. destruct x as [s|[]| |[] m e]; cbn; split; done. Qed.

Lemma nonneg_num_not_nan x : nonneg_num x -> x <> NaN.
Proof. by destruct x. Qed.

End Signs.

Section SubSign.
Local Open Scope R_scope.

Lemma aligned_value m e ez :
  (ez <= e)%Z -> IZR (Z.pos (fst (shl_align m e ez))) * bpow ez = IZR (Z.pos m) * bpow e.
Proof.
  intros H. rewrite shl_align_fst by done. rewrite mult_IZR, <- bpow_IZR by lia.
  rewrite Rmult_assoc, <- bpow_add. f_equal. f_equal. lia.
Qed.

Lemma sub_nonneg la ha lb hb a b :
  pos_normal la ha a -> pos_normal lb hb b -> F2R b <= F2R a -> nonneg_num (sub a b).
Proof.
  destruct a as [| | |[] m1 e1]; try done. destruct b as [| | |[] m2 e2]; try done.
  intros _ _ Hle. cbn [F2R] in Hle. unfold sub, SFsub. cbn [cond_Zopp].
  set (ez := Z.min e1 e2).
  pose proof (aligned_value m1 e1 ez ltac:(unfold ez; lia)) as A1.
  pose proof (aligned_value m2 e2 ez ltac:(unfold ez; lia)) as A2.
  pose proof (bpow_pos ez) as Hb.
  assert (Z.pos (fst (shl_align m2 e2 ez)) <= Z.pos (fst (shl_align m1 e1 ez)))%Z as Hz.
  { apply le_IZR. nra. }
  destruct (Z.pos (fst (shl_align m1 e1 ez)) - Z.pos (fst (shl_align m2 e2 ez)))%Z
    as [|p|p] eqn:E; [done| |lia].
  cbn [binary_normalize]. apply binary_round_nonneg.
Qed.

End SubSign.

Section Dispersion.

Lemma Zsum_cons a l : Zsum (a :: l) = a + Zsum l.
Proof. reflexivity. Qed.

Lemma squares_cons a l : squares (a :: l) = a * a :: squares l.
Proof. reflexivity. Qed.

Lemma spread_cons v w l : spread v (w :: l) = (w - v) * (w - v) + spread v l.
Proof. reflexivity. Qed.

Lemma spread_expand v l :
  spread v l = Zsum (squares l) - 2 * v * Zsum l + Z.of_nat (length l) * (v * v).
Proof.
  induction l as [|w l IH].
  { unfold spread, squares. cbn. lia. }
  rewrite spread_cons, squares_cons, !Zsum_cons, IH. cbn [length]. lia.
Qed.

Lemma dispersion_cons v l : dispersion (v :: l) = dispersion l + spread v l.
Proof.
  rewrite spread_expand. unfold dispersion.
  rewrite squares_cons, !Zsum_cons. cbn [length]. lia.
Qed.

Lemma spread_nonneg v l : 0 <= spread v l.
Proof.
  induction l as [|w l IH]; [done|]. rewrite spread_cons.
  pose proof (Z.square_nonneg (w - v)). lia.
Qed.

Lemma spread_all_differ v l :
  Forall (fun w => w <> v) l -> Z.of_nat (length l) <= spread v l.
Proof.
  induction 1 as [|w l Hw _ IH]; [done|]. rewrite spread_cons. cbn [length].
  assert (1 <= (w - v) * (w - v)) by nia. lia.
Qed.

Lemma spread_some_differ v l :
  ~ Forall (fun w => w = v) l -> 1 <= spread v l.
Proof.
  induction l as [|w l IH]; intros H.
  - exfalso. apply H. constructor.
  - rewrite spread_cons. pose proof (spread_nonneg v l) as Hn.
    destruct (Z.eq_dec w v) as [->|Hne].
    2: { assert (1 <= (w - v) * (w - v)) by nia. lia. }
    assert (~ Forall (fun w => w = v) l) as H'.
    { intros HF. apply H. by constructor. }
    specialize (IH H'). lia.
Qed.

Lemma dispersion_nonneg l : 0 <= dispersion l.
Proof.
  induction l as [|v l IH]; [done|].
  rewrite dispersion_cons. pose proof (spread_nonneg v l). lia.
Qed.

(** Samples that are not all equal have n * sum(v^2) - (sum v)^2 >= n - 1. *)
Lemma dispersion_gap l :
  (exists c, Forall (fun w => w = c) l) \/ Z.of_nat (length l) - 1 <= dispersion l.
Proof.
  induction l as [|v l IH].
  - left. exists 0. constructor.
  - rewrite dispersion_cons. cbn [length].
    destruct (decide (Forall (fun w => w = v) l)) as [Hv|Hv].
    { left. exists v. by constructor. }
    right. destruct IH as [[c Hc]|IH].
    + assert (Forall (fun w => w <> v) l) as Hd.
      { assert (c <> v) as Hcv.
        { intros ->. by apply Hv. }
        eapply Forall_impl; [exact Hc|]. intros w ->. done. }
      pose proof (spread_all_differ v l Hd). pose proof (dispersion_nonneg l). lia.
    + pose proof (spread_some_differ v l Hv). lia.
Qed.

Lemma Zsum_zero_all_zero l :
  Forall (fun v => 0 <= v) l -> Zsum l = 0 -> Forall (fun w => w = 0) l.
Proof.
  induction 1 as [|v l Hv Hl IH]; [constructor|].
  rewrite Zsum_cons. intros H.
  assert (0 <= Zsum l).
  { clear -Hl. induction Hl; [done|]. rewrite Zsum_cons. lia. }
  constructor; [lia|apply IH; lia].
Qed.

End Dispersion.

(** ** The computed variance of distinct samples is ordered *)

Section VarianceOrder.
Local Open Scope R_scope.

Lemma Rabs_le_both x a : Rabs x <= a -> - a <= x <= a.
Proof.
  intros H. pose proof (Rle_abs x). pose proof (Rle_abs (- x)) as H'.
  rewrite Rabs_Ropp in H'. lra.
Qed.

Lemma abs_upper F x : Rabs (F - x) <= F * unit_roundoff -> F * (1 - unit_roundoff) <= x.
Proof. intros H. apply Rabs_le_both in H. lra. Qed.

Lemma abs_lower F x : Rabs (F - x) <= F * unit_roundoff -> x <= F * (1 + unit_roundoff).
Proof. intros H. apply Rabs_le_both in H. lra. Qed.

Lemma unit_roundoff_val : unit_roundoff = / 9007199254740992.
Proof. reflexivity. Qed.

Lemma square_le_square x s : 0 <= x <= s -> x * x <= s * s.
Proof. intros [H0 H1]. apply Rmult_le_compat; lra. Qed.

Lemma rounding_slack u k ss :
  0 < u < / 1000000 -> 2 <= k -> u * k <= / 2097152 -> 0 <= ss <= 65025 * (k * k) ->
  4 * u * ss <= (k - 1) * (1 - 3 * u).
Proof.
  intros Hu Hk Huk Hss.
  assert (u * ss <= u * (65025 * (k * k))) as A1 by (apply Rmult_le_compat_l; lra).
  assert (u * k * k <= / 2097152 * k) as A2 by (apply Rmult_le_compat_r; lra).
  assert ((k - 1) * (3 * u) <= (k - 1) * / 100) as A3 by (apply Rmult_le_compat_l; lra).
  lra.
Qed.

Lemma cube_lower u : 0 < u < / 1000000 -> 1 - 3 * u <= (1 - u) * ((1 - u) * (1 - u)).
Proof.
  intros Hu.
  assert (0 <= u * u) as A1 by (apply Rmult_le_pos; lra).
  assert (u * (u * u) <= 1 * (u * u)) as A2 by (apply Rmult_le_compat_r; lra).
  lra.
Qed.

Lemma variance_order (S Q n : Z) (Fm FB FA : R) :
  (2 <= n <= 2 ^ 32)%Z -> (1 <= S <= 255 * n)%Z -> (n - 1 <= n * Q - S * S)%Z ->
  0 < Fm -> 0 < FB -> 0 < FA ->
  Rabs (Fm - IZR S / IZR n) <= Fm * unit_roundoff ->
  Rabs (FB - Fm * Fm) <= FB * unit_roundoff ->
  Rabs (FA - IZR Q / IZR n) <= FA * unit_roundoff ->
  FB <= FA.
Proof.
  intros Hn HS Hgap Hm HB HA H1 H2 H3.
  apply abs_upper in H1, H2. apply abs_lower in H3.
  rewrite unit_roundoff_val in *. set (u := / 9007199254740992) in *.
  assert (0 < u < / 1000000) as Hu by (unfold u; lra).
  set (k := IZR n) in *. set (s := IZR S) in *. set (q := IZR Q) in *.
  assert (2 <= k <= 4294967296) as Hk.
  { unfold k. split; [apply (IZR_le 2); lia|]. apply (IZR_le _ 4294967296). lia. }
  assert (1 <= s <= 255 * k) as Hs.
  { unfold s, k. split; [apply (IZR_le 1); lia|].
    rewrite <- (mult_IZR 255). apply IZR_le. lia. }
  assert (k - 1 <= k * q - s * s) as Hg.
  { unfold k, q, s. rewrite <- !mult_IZR, <- (minus_IZR n 1), <- minus_IZR. apply IZR_le. lia. }
  assert (s / k * k = s) as Ht by (field; lra).
  assert (q / k * k = q) as Hr by (field; lra).
  set (t := s / k) in *. set (r := q / k) in *.
  assert (u * k <= / 2097152) as Huk by (unfold u; lra).
  set (a := 1 - u) in *. set (b := 1 + u) in *.
  assert (0 < a) as Ha by (unfold a; lra).
  assert (0 < b) as Hb by (unfold b; lra).
  (* the three rounding bounds, scaled by k *)
  assert (Fm * a * k <= s) as H1'.
  { rewrite <- Ht. apply Rmult_le_compat_r; lra. }
  assert (q <= FA * b * k) as H3'.
  { rewrite <- Hr. apply Rmult_le_compat_r; lra. }
  assert (0 <= Fm * a * k) as Hpos.
  { apply Rmult_le_pos; [apply Rmult_le_pos|]; lra. }
  pose proof (square_le_square _ _ (conj Hpos H1')) as Hsq.
  assert (FB * a * (a * a * (k * k)) <= s * s) as HBs.
  { eapply Rle_trans; [|exact Hsq].
    replace (Fm * a * k * (Fm * a * k)) with ((Fm * Fm) * (a * a * (k * k))) by ring.
    apply Rmult_le_compat_r; [|exact H2].
    apply Rmult_le_pos; apply Rmult_le_pos; lra. }
  assert (k * q <= k * (FA * b * k)) as HkQ by (apply Rmult_le_compat_l; lra).
  assert (s * s + (k - 1) <= FA * b * (k * k)) as HAs.
  { replace (FA * b * (k * k)) with (k * (FA * b * k)) by ring. lra. }
  pose proof (square_le_square s (255 * k) ltac:(lra)) as Hss.
  replace (255 * k * (255 * k)) with (65025 * (k * k)) in Hss by ring.
  assert (0 <= s * s) as Hss0 by (apply Rmult_le_pos; lra).
  pose proof (rounding_slack u k (s * s) Hu ltac:(lra) Huk (conj Hss0 Hss)) as Hcore.
  pose proof (cube_lower u Hu) as Ha3. fold a in Ha3.
  set (a3 := a * (a * a)) in *.
  assert (0 < a3) as Ha3p by lra.
  assert ((1 - 3 * u) * (s * s + (k - 1)) <= a3 * (s * s + (k - 1))) as Hx
    by (apply Rmult_le_compat_r; lra).
  assert (s * s * b <= a3 * (s * s + (k - 1))) as Hfin by (unfold b; lra).
  assert (a3 * (s * s + (k - 1)) <= a3 * (FA * b * (k * k))) as Hy
    by (apply Rmult_le_compat_l; lra).
  assert (FB * a * (a * a * (k * k)) * b <= s * s * b) as Hz
    by (apply Rmult_le_compat_r; lra).
  assert (0 < k * k) as Hkk by (apply Rmult_lt_0_compat; lra).
  assert (0 < a3 * (k * k) * b) as Hc
    by (apply Rmult_lt_0_compat; [apply Rmult_lt_0_compat|]; lra).
  apply Rmult_le_reg_r with (a3 * (k * k) * b); [exact Hc|].
  replace (FB * (a3 * (k * k) * b)) with (FB * a * (a * a * (k * k)) * b)
    by (unfold a3; ring).
  replace (FA * (a3 * (k * k) * b)) with (a3 * (FA * b * (k * k))) by ring.
  lra.
Qed.

End VarianceOrder.

(** ** The local variance is never negative *)

Section VarianceSign.

Lemma Zsum_constant c l :
  Forall (fun w => w = c) l ->
  Zsum l = Z.of_nat (length l) * c /\ Zsum (squares l) = Z.of_nat (length l) * (c * c).
Proof.
  induction 1 as [|w l -> _ [IH1 IH2]]; [done|].
  rewrite squares_cons, !Zsum_cons, IH1, IH2. cbn [length]. lia.
Qed.

Lemma variance_of_constant n c :
  1 <= n -> 0 <= c <= 255 -> 65025 * n < 2 ^ 53 ->
  variance (stats_of_sums (mkWindowSums (of_Z (n * c)) (of_Z (n * (c * c))) (of_Z n)))
  = zero.
Proof.
  intros Hn Hc Hb. unfold stats_of_sums. cbn [sum squaredSum count variance].
  rewrite !div_of_Z by nia. rewrite mul_of_Z by nia. apply sub_diag_of_Z. nia.
Qed.

Lemma variance_of_distinct S Q n :
  2 <= n <= 2 ^ 32 -> 1 <= S <= 255 * n -> 1 <= Q <= 65025 * n ->
  n - 1 <= n * Q - S * S ->
  nonneg_num (variance (stats_of_sums (mkWindowSums (of_Z S) (of_Z Q) (of_Z n)))).
Proof.
  intros Hn HS HQ Hgap. unfold stats_of_sums. cbn [sum squaredSum count variance].
  assert (2 ^ 32 < 2 ^ 53) as Hp by (apply Z.pow_lt_mono_r; lia).
  assert (65025 * 2 ^ 32 < 2 ^ 53) as Hp' by (vm_compute; reflexivity).
  destruct (pos_normal_of_Z S ltac:(nia)) as [NS VS].
  destruct (pos_normal_of_Z Q ltac:(nia)) as [NQ VQ].
  destruct (pos_normal_of_Z n ltac:(lia)) as [Nn Vn].
  destruct (div_pos_normal (-52) 0 (-52) 0 _ _ NS Nn ltac:(lia) ltac:(lia)) as [Nm Em].
  destruct (div_pos_normal (-52) 0 (-52) 0 _ _ NQ Nn ltac:(lia) ltac:(lia)) as [NA EA].
  set (m := div (of_Z S) (of_Z n)) in *.
  set (A := div (of_Z Q) (of_Z n)) in *.
  destruct (mul_pos_normal _ _ _ _ m m Nm Nm ltac:(lia) ltac:(lia)) as [NB EB].
  set (B := mul m m) in *.
  rewrite VS, Vn in Em. rewrite VQ, Vn in EA.
  eapply sub_nonneg; [exact NA|exact NB|].
  apply (variance_order S Q n (F2R m) (F2R B) (F2R A)); try done;
    eapply pos_normal_F2R; eassumption.
Qed.

Lemma variance_of_samples vs :
  Forall (fun v => 0 <= v <= 255) vs -> 1 <= Z.of_nat (length vs) <= 2 ^ 32 ->
  nonneg_num (variance (stats_of_sums
    (mkWindowSums (of_Z (Zsum vs)) (of_Z (Zsum (squares vs)))
                  (of_Z (Z.of_nat (length vs)))))).
Proof.
  intros Hb Hn.
  assert (65025 * 2 ^ 32 < 2 ^ 53) as Hp' by (vm_compute; reflexivity).
  destruct vs as [|v0 vs']; [cbn in Hn; lia|].
  set (vs := v0 :: vs') in *.
  destruct (decide (Forall (fun w => w = v0) vs)) as [Hc|Hc].
  - destruct (Zsum_constant v0 vs Hc) as [-> ->].
    rewrite variance_of_constant; [done|lia| |lia].
    by apply Forall_cons in Hb as [? _].
  - pose proof (Zsum_bytes vs Hb) as [HS HQ].
    assert (Z.of_nat (length vs) - 1 <= dispersion vs) as Hgap.
    { destruct (dispersion_gap vs) as [[c Hcc]|Hg]; [|done].
      exfalso. apply Hc. assert (c = v0) as <-; [|done].
      by apply Forall_cons in Hcc as [? _]. }
    unfold dispersion in Hgap.
    assert (2 <= Z.of_nat (length vs)) as Hn2.
    { destruct vs' as [|v1 vs'']; [|cbn [vs length]; lia].
      exfalso. apply Hc. by repeat constructor. }
    assert (1 <= Zsum vs) as HS1.
    { destruct (Z.eq_dec (Zsum vs) 0) as [E|NE]; [|lia].
      exfalso. apply Hc.
      assert (Forall (fun w => w = 0) vs) as Hz.
      { apply Zsum_zero_all_zero; [|done]. eapply Forall_impl; [exact Hb|]. cbn. lia. }
      assert (v0 = 0) as -> by (by apply Forall_cons in Hz as [? _]). done. }
    apply variance_of_distinct; [lia|lia|nia|lia].
Qed.

Lemma clamp_variance_nonneg v : nonneg_num v -> clamp_variance v = v.
Proof. by destruct v as [s|[]| |[] m e]. Qed.

End VarianceSign.

(** C3. For a buffer of byte samples and an in-bounds pixel, the variance
    the code computes, (sum of squares / count) - mean^2 with no clamp, is
    never below 0 and the standard deviation is never NaN: the statistics
    with the variance clamped to 0 before the square root are the
    statistics the code returns. (Up to 2^32 pixels, far beyond any
    raster the platform allocates.) *)
Theorem local_variance_is_nonnegative gs x y w h ws :
  bytes gs -> 0 <= x < w -> 0 <= y < h -> 0 <= ws ->
  Z.of_nat (length gs) = w * h -> w * h <= 2 ^ 32 ->
  let st := calculateLocalStats gs x y w h ws in
  SFleb zero (variance st) = true /\
  stdDev st <> NaN /\
  calculateLocalStats_spec gs x y w h ws = st.
Proof.
  intros Hb Hx Hy Hws Hl Hsz.
  assert (65025 * 2 ^ 32 < 2 ^ 53) as Hp' by (vm_compute; reflexivity).
  unfold calculateLocalStats_spec, calculateLocalStats. cbn zeta.
  rewrite (window_sums_exact gs x y w h ws Hb Hx Hy Hws Hl ltac:(lia)).
  set (win := window_of x y w h ws).
  set (cells := window_cells (startX win) (endX win) (startY win) (endY win)).
  set (vs := window_values gs w cells).
  pose proof (window_cells_count x y w h ws Hx Hy Hws) as Hn. cbn zeta in Hn.
  fold win in Hn. fold cells in Hn.
  assert (length vs = length cells) as Hlen by (unfold vs, window_values; by rewrite length_fmap).
  pose proof (variance_of_samples vs (window_values_bytes gs w cells Hb)
                ltac:(rewrite Hlen; lia)) as Hv.
  set (acc := mkWindowSums (of_Z (Zsum vs)) (of_Z (Zsum (squares vs)))
                (of_Z (Z.of_nat (length vs)))) in *.
  split; [by apply nonneg_num_leb|].
  split.
  - apply nonneg_num_not_nan. unfold stats_of_sums in *. cbn [stdDev variance] in *.
    by apply sqrt_nonneg.
  - unfold stats_of_sums_spec, stats_of_sums in *. cbn [variance] in Hv.
    by rewrite clamp_variance_nonneg.
Qed.

Lemma local_variance_witness :
  let st := calculateLocalStats [18; 18; 200; 0] 0 1 2 2 3 in
  SFleb zero (variance st) = true /\
  stdDev st <> NaN /\
  calculateLocalStats_spec [18; 18; 200; 0] 0 1 2 2 3 = st.
Proof.
  apply (local_variance_is_nonnegative [18; 18; 200; 0] 0 1 2 2 3); try (cbn; lia).
  repeat constructor; lia.
Defined.

(** ** The window size *)

Section Ceiling.
Local Open Scope R_scope.

Lemma ceilZ_bounds lo hi x :
  pos_normal lo hi x -> IZR (ceilZ x) - 1 < F2R x <= IZR (ceilZ x).
Proof.
  destruct x as [| | |[] m e]; try done. intros _.
  cbn [ceilZ F2R]. destruct (0 <=? e)%Z eqn:E.
  - apply Z.leb_le in E. cbn [cond_Zopp]. rewrite mult_IZR, (bpow_IZR e E). lra.
  - apply Z.leb_gt in E.
    pose proof (pow2_pos (- e) ltac:(lia)) as Hd.
    set (d := (2 ^ (- e))%Z) in *.
    assert (bpow e = / IZR d) as ->.
    { rewrite <- (Z.opp_involutive e) at 1.
      rewrite bpow_opp, (bpow_IZR (- e)) by lia. done. }
    set (c := (- (- Z.pos m / d))%Z).
    assert ((c - 1) * d < Z.pos m <= c * d)%Z as [H1 H2].
    { pose proof (Z.div_mod (- Z.pos m) d ltac:(lia)) as Hq.
      pose proof (Z.mod_pos_bound (- Z.pos m) d Hd) as Hr.
      unfold c. nia. }
    apply IZR_lt in H1. apply IZR_le in H2.
    rewrite mult_IZR in H1, H2. rewrite minus_IZR in H1.
    assert (0 < IZR d) as HdR by (by apply IZR_lt).
    assert (1 * IZR (Z.pos m) * / IZR d = IZR (Z.pos m) / IZR d) as -> by (unfold Rdiv; lra).
    split.
    + apply Rmult_lt_reg_r with (IZR d); [done|].
      unfold Rdiv. rewrite Rmult_assoc, Rinv_l by lra. lra.
    + apply Rmult_le_reg_r with (IZR d); [done|].
      unfold Rdiv. rewrite Rmult_assoc, Rinv_l by lra. lra.
Qed.

Lemma ceil_unique (k c : Z) (F : R) :
  IZR k - 1 < F <= IZR k -> IZR c - 1 < F <= IZR c -> k = c.
Proof.
  intros [H1 H2] [H3 H4].
  assert (IZR k < IZR (c + 1)) as Ha by (rewrite plus_IZR; lra).
  assert (IZR c < IZR (k + 1)) as Hb by (rewrite plus_IZR; lra).
  apply lt_IZR in Ha, Hb. lia.
Qed.

Lemma ceilZ_of_Z c : (0 < c < 2 ^ 53)%Z -> ceilZ (of_Z c) = c.
Proof.
  intros Hc. destruct (pos_normal_of_Z c Hc) as [N V].
  pose proof (ceilZ_bounds _ _ _ N) as Hb. rewrite V in Hb.
  apply (ceil_unique _ _ (IZR c)); [done|lra].
Qed.

(** [Math.ceil(a / 30)] is the integer ceiling of the exact quotient:
    the rounding of the division never crosses an integer. *)
Lemma ceil_of_quotient a :
  (1 <= a < 2 ^ 52)%Z -> ceilZ (div (of_Z a) (of_Z 30)) = ((a + 29) / 30)%Z.
Proof.
  intros Ha. set (c := ((a + 29) / 30)%Z).
  assert (2 ^ 52 = 4503599627370496)%Z as E52 by reflexivity.
  assert (2 ^ 53 = 9007199254740992)%Z as E53 by reflexivity.
  assert (30 * (c - 1) < a <= 30 * c)%Z as [Hl Hu].
  { unfold c. pose proof (Z.div_mod (a + 29) 30 ltac:(lia)).
    pose proof (Z.mod_pos_bound (a + 29) 30 ltac:(lia)). lia. }
  destruct (Z.eq_dec a (30 * c)%Z) as [Heq|Hne].
  - rewrite Heq, div_of_Z by lia. apply ceilZ_of_Z. lia.
  - destruct (pos_normal_of_Z a ltac:(lia)) as [Na Va].
    destruct (pos_normal_of_Z 30 ltac:(lia)) as [Nd Vd].
    destruct (div_pos_normal (-52) 0 (-52) 0 _ _ Na Nd ltac:(lia) ltac:(lia))
      as [Nq Eq].
    set (q := div (of_Z a) (of_Z 30)) in *. rewrite Va, Vd in Eq.
    pose proof (pos_normal_F2R _ _ _ Nq) as Hpos.
    pose proof (abs_upper _ _ Eq) as Hup. pose proof (abs_lower _ _ Eq) as Hlo.
    rewrite unit_roundoff_val in Hup, Hlo.
    assert (IZR (30 * (c - 1)) + 1 <= IZR a) as HlR.
    { rewrite <- (plus_IZR _ 1). apply IZR_le. lia. }
    assert (IZR a <= IZR (30 * c) - 1) as HuR.
    { rewrite <- (minus_IZR _ 1). apply IZR_le. lia. }
    assert (IZR a <= 4503599627370496) as HaR by (apply IZR_le; lia).
    rewrite mult_IZR in HlR, HuR. rewrite minus_IZR in HlR.
    apply (ceil_unique _ _ (F2R q)); [by eapply ceilZ_bounds|].
    unfold Rdiv in *. split.
    + destruct (Rlt_le_dec (IZR c - 1) (F2R q)) as [|Hc]; [done|]. lra.
    + destruct (Rle_lt_dec (F2R q) (IZR c)) as [|Hc]; [done|]. lra.
Qed.

End Ceiling.

(** C4, the boundary value as enumerated: an image whose smaller side is
    31 pixels gets a window of 3, not 4. *)
Lemma window_size_at_31_is_3 : windowSize_of 31 40 = 3 /\ windowSize_of 31 40 <> 4.
Proof. split; [by vm_compute|]. by vm_compute. Qed.

(** C4. The window size of the local algorithms is
    max(3, ceil(min(width, height) / 30)) with the ceiling of the exact
    quotient; it is 3 for every image whose smaller side is at most 90
    pixels (so at 30 and at 31) and larger from 91 pixels on. *)
Theorem window_size_formula (w h : nat) :
  Z.of_nat (Nat.min w h) < 2 ^ 52 ->
  windowSize_of w h = Z.max 3 ((Z.of_nat (Nat.min w h) + 29) / 30) /\
  (windowSize_of w h = 3 <-> Z.of_nat (Nat.min w h) <= 90).
Proof.
  intros Hb. set (a := Z.of_nat (Nat.min w h)) in *.
  assert (windowSize_of w h = Z.max 3 ((a + 29) / 30)) as E.
  { unfold windowSize_of. fold a. destruct (Z.eq_dec a 0) as [->|Hz]; [done|].
    rewrite ceil_of_quotient by lia. done. }
  split; [done|]. rewrite E.
  pose proof (Z.div_mod (a + 29) 30 ltac:(lia)).
  pose proof (Z.mod_pos_bound (a + 29) 30 ltac:(lia)). lia.
Qed.

Lemma window_size_formula_witness :
  windowSize_of 100 91 = Z.max 3 ((Z.of_nat (Nat.min 100 91) + 29) / 30) /\
  (windowSize_of 100 91 = 3 <-> Z.of_nat (Nat.min 100 91) <= 90).
Proof. apply (window_size_formula 100 91). by vm_compute. Defined.

(** ** The stored grayscale sample *)

Section Luminance.
Local Open Scope R_scope.

Lemma pos_normal_weaken lo hi lo' hi' x :
  pos_normal lo hi x -> (lo' <= lo)%Z -> (hi <= hi')%Z -> pos_normal lo' hi' x.
Proof. destruct x as [| | |[] m e]; try done. cbn. lia. Qed.

Lemma add_pos_normal la ha lb hb a b :
  pos_normal la ha a -> pos_normal lb hb b ->
  (-1074 <= Z.min la lb)%Z -> (Z.max ha hb <= 969)%Z ->
  pos_normal (Z.min la lb) (Z.max ha hb + 2) (add a b) /\
  Rabs (F2R (add a b) - (F2R a + F2R b)) <= F2R (add a b) * unit_roundoff.
Proof.
  destruct a as [| | |[] m1 e1]; try done. destruct b as [| | |[] m2 e2]; try done.
  intros [D1 E1] [D2 E2] Hlo Hhi.
  unfold add, SFadd. cbn [cond_Zopp]. cbn [F2R].
  set (ez := Z.min e1 e2). set (mx := Z.max e1 e2).
  pose proof (aligned_value m1 e1 ez ltac:(unfold ez; lia)) as A1.
  pose proof (aligned_value m2 e2 ez ltac:(unfold ez; lia)) as A2.
  pose proof (shl_align_fst m1 e1 ez ltac:(unfold ez; lia)) as S1.
  pose proof (shl_align_fst m2 e2 ez ltac:(unfold ez; lia)) as S2.
  set (M1 := fst (shl_align m1 e1 ez)) in *. set (M2 := fst (shl_align m2 e2 ez)) in *.
  change (Z.pos M1 + Z.pos M2)%Z with (Z.pos (M1 + M2)).
  cbn [binary_normalize]. unfold binary_round.
  set (p := (M1 + M2)%positive).
  pose proof (digits2_bounds m1) as [B1l B1u]. rewrite D1 in B1l, B1u.
  pose proof (digits2_bounds m2) as [B2l B2u]. rewrite D2 in B2l, B2u.
  change (53 - 1)%Z with 52%Z in *.
  pose proof (pow2_pos (e1 - ez) ltac:(unfold ez; lia)) as P1.
  pose proof (pow2_pos (e2 - ez) ltac:(unfold ez; lia)) as P2.
  assert (2 ^ 52 <= Z.pos p)%Z as Hpl by (unfold p; rewrite Pos2Z.inj_add; nia).
  assert (Z.pos p < 2 ^ (54 + mx - ez))%Z as Hpu.
  { assert (2 ^ (e1 - ez) <= 2 ^ (mx - ez))%Z
      by (apply Z.pow_le_mono_r; unfold mx, ez; lia).
    assert (2 ^ (e2 - ez) <= 2 ^ (mx - ez))%Z
      by (apply Z.pow_le_mono_r; unfold mx, ez; lia).
    replace (54 + mx - ez)%Z with (54 + (mx - ez))%Z by lia.
    rewrite Z.pow_add_r by (unfold mx, ez; lia).
    change (2 ^ 54)%Z with (2 * 2 ^ 53)%Z.
    unfold p. rewrite Pos2Z.inj_add. nia. }
  pose proof (digits2_bounds p) as [Dl Du].
  set (d := Z.pos (digits2_pos p)) in *.
  assert (53 <= d <= 54 + mx - ez)%Z as Hd.
  { split.
    - destruct (Z_lt_le_dec d 53) as [L|L]; [|lia].
      assert (2 ^ d <= 2 ^ 52)%Z by (apply Z.pow_le_mono_r; lia). lia.
    - destruct (Z_lt_le_dec (54 + mx - ez) d) as [L|L]; [|lia].
      assert (2 ^ (54 + mx - ez) <= 2 ^ (d - 1))%Z
        by (apply Z.pow_le_mono_r; unfold mx, ez; lia).
      lia. }
  rewrite shl_align_id by (fold d; unfold fexp, emin, prec, emax; lia).
  destruct (bra_bound false p ez loc_Exact (IZR (Z.pos p) * bpow ez))
    as (m & e & Hres & Hm & He & Herr);
    [unfold ez; lia|fold d; lia|fold d; unfold mx, ez in *; lia
    |apply rec_ok_of_loc_exact|].
  fold d in He. rewrite Hres. cbn [pos_normal F2R].
  split.
  { split; [apply digits2_unique; lia|unfold mx, ez in *; lia]. }
  replace (1 * IZR (Z.pos m1) * bpow e1 + 1 * IZR (Z.pos m2) * bpow e2)
    with (IZR (Z.pos p) * bpow ez).
  { rewrite Rmult_1_l. apply half_ulp_relative; [lia|done]. }
  unfold p. rewrite Pos2Z.inj_add, plus_IZR. lra.
Qed.

Lemma F2R_zero : F2R zero = 0.
Proof. reflexivity. Qed.

Lemma finite_nonneg_F2R lo hi x : finite_nonneg lo hi x -> 0 <= F2R x.
Proof.
  intros [->|H]; [rewrite F2R_zero; lra|]. apply Rlt_le. by eapply pos_normal_F2R.
Qed.

Lemma finite_nonneg_of_Z v :
  (0 <= v < 2 ^ 53)%Z -> finite_nonneg (-52) 0 (of_Z v) /\ F2R (of_Z v) = IZR v.
Proof.
  intros Hv. destruct (Z.eq_dec v 0%Z) as [->|Hz].
  - split; [by left|done].
  - destruct (pos_normal_of_Z v ltac:(lia)) as [N V]. split; [by right|done].
Qed.

Lemma mul_finite_nonneg la ha lb hb a b :
  pos_normal la ha a -> finite_nonneg lb hb b ->
  (-1074 <= la + lb)%Z -> (ha + hb <= 917)%Z ->
  finite_nonneg (la + lb + 52) (ha + hb + 54) (mul a b) /\
  Rabs (F2R (mul a b) - F2R a * F2R b) <= F2R (mul a b) * unit_roundoff.
Proof.
  intros Na [->|Nb] Hlo Hhi.
  - destruct a as [| | |[] m e]; try done. cbn. split; [by left|].
    rewrite Rmult_0_r, Rminus_0_r, Rabs_R0, Rmult_0_l. lra.
  - destruct (mul_pos_normal _ _ _ _ a b Na Nb Hlo Hhi) as [N E].
    split; [by right|done].
Qed.

Lemma add_finite_nonneg la ha lb hb a b :
  finite_nonneg la ha a -> finite_nonneg lb hb b ->
  (-1074 <= Z.min la lb)%Z -> (Z.max ha hb <= 969)%Z ->
  finite_nonneg (Z.min la lb) (Z.max ha hb + 2) (add a b) /\
  Rabs (F2R (add a b) - (F2R a + F2R b)) <= F2R (add a b) * unit_roundoff.
Proof.
  intros [->|Na] [->|Nb] Hlo Hhi.
  - split; [by left|]. cbn. rewrite Rplus_0_r, Rminus_0_r, Rabs_R0, Rmult_0_l. lra.
  - assert (add zero b = b) as -> by (by destruct b as [| | |[] m e]).
    pose proof (pos_normal_F2R _ _ _ Nb). pose proof unit_roundoff_val.
    split; [right; eapply pos_normal_weaken; [exact Nb|lia|lia]|].
    rewrite F2R_zero. replace (F2R b - (0 + F2R b)) with 0 by lra. rewrite Rabs_R0.
    rewrite unit_roundoff_val. lra.
  - assert (add a zero = a) as -> by (by destruct a as [| | |[] m e]).
    pose proof (pos_normal_F2R _ _ _ Na).
    split; [right; eapply pos_normal_weaken; [exact Na|lia|lia]|].
    rewrite F2R_zero. replace (F2R a - (F2R a + 0)) with 0 by lra. rewrite Rabs_R0.
    rewrite unit_roundoff_val. lra.
  - destruct (add_pos_normal _ _ _ _ a b Na Nb Hlo Hhi) as [N E].
    split; [by right|done].
Qed.
End Luminance.

Section Grayscale.
Local Open Scope R_scope.

Lemma bpow_neg_IZR k : (0 <= k)%Z -> bpow (- k) = / IZR (2 ^ k).
Proof. intros H. by rewrite bpow_opp, bpow_IZR. Qed.

Lemma lit_0_299_value :
  pos_normal (-56) (-53) lit_0_299 /\
  F2R lit_0_299 = 5386305154335113 / 18014398509481984.
Proof.
  split; [by split|]. unfold lit_0_299, F2R.
  change (-54)%Z with (- (54))%Z. rewrite bpow_neg_IZR by lia.
  change (2 ^ 54)%Z with 18014398509481984%Z. unfold Rdiv. lra.
Qed.

Lemma lit_0_587_value :
  pos_normal (-56) (-53) lit_0_587 /\
  F2R lit_0_587 = 5287225962532962 / 9007199254740992.
Proof.
  split; [by split|]. unfold lit_0_587, F2R.
  change (-53)%Z with (- (53))%Z. rewrite bpow_neg_IZR by lia.
  change (2 ^ 53)%Z with 9007199254740992%Z. unfold Rdiv. lra.
Qed.

Lemma lit_0_114_value :
  pos_normal (-56) (-53) lit_0_114 /\
  F2R lit_0_114 = 8214565720323785 / 72057594037927936.
Proof.
  split; [by split|]. unfold lit_0_114, F2R.
  change (-56)%Z with (- (56))%Z. rewrite bpow_neg_IZR by lia.
  change (2 ^ 56)%Z with 72057594037927936%Z. unfold Rdiv. lra.
Qed.

(** The computed luminance of a pixel is finite, and within 2^-42 of the
    weighted sum over the reals. *)
Lemma luminance_accuracy r g b :
  (0 <= r <= 255)%Z -> (0 <= g <= 255)%Z -> (0 <= b <= 255)%Z ->
  let l := luminance (of_Z r) (of_Z g) (of_Z b) in
  finite_nonneg (-56) 5 l /\
  Rabs (F2R l - weighted_sum r g b) <= / 4398046511104.
Proof.
  intros Hr Hg Hb. cbn zeta. unfold luminance, weighted_sum.
  assert (2 ^ 53 = 9007199254740992)%Z as E53 by reflexivity.
  destruct lit_0_299_value as [N1 V1]. destruct lit_0_587_value as [N2 V2].
  destruct lit_0_114_value as [N3 V3].
  destruct (finite_nonneg_of_Z r ltac:(lia)) as [Nr Vr].
  destruct (finite_nonneg_of_Z g ltac:(lia)) as [Ng Vg].
  destruct (finite_nonneg_of_Z b ltac:(lia)) as [Nb Vb].
  destruct (mul_finite_nonneg _ _ _ _ _ _ N1 Nr ltac:(lia) ltac:(lia)) as [NP1 EP1].
  destruct (mul_finite_nonneg _ _ _ _ _ _ N2 Ng ltac:(lia) ltac:(lia)) as [NP2 EP2].
  destruct (mul_finite_nonneg _ _ _ _ _ _ N3 Nb ltac:(lia) ltac:(lia)) as [NP3 EP3].
  set (P1 := mul lit_0_299 (of_Z r)) in *. set (P2 := mul lit_0_587 (of_Z g)) in *.
  set (P3 := mul lit_0_114 (of_Z b)) in *.
  destruct (add_finite_nonneg _ _ _ _ _ _ NP1 NP2 ltac:(lia) ltac:(lia)) as [NS1 ES1].
  set (S1 := add P1 P2) in *.
  destruct (add_finite_nonneg _ _ _ _ _ _ NS1 NP3 ltac:(lia) ltac:(lia)) as [NS2 ES2].
  set (S2 := add S1 P3) in *.
  split.
  { destruct NS2 as [E|N]; [by left|].
    right. eapply pos_normal_weaken; [exact N|lia|lia]. }
  rewrite V1, Vr in EP1. rewrite V2, Vg in EP2. rewrite V3, Vb in EP3.
  apply Rabs_le_both in EP1, EP2, EP3, ES1, ES2.
  rewrite unit_roundoff_val in EP1, EP2, EP3, ES1, ES2.
  pose proof (finite_nonneg_F2R _ _ _ NP1). pose proof (finite_nonneg_F2R _ _ _ NP2).
  pose proof (finite_nonneg_F2R _ _ _ NP3). pose proof (finite_nonneg_F2R _ _ _ NS1).
  pose proof (finite_nonneg_F2R _ _ _ NS2).
  assert (0 <= IZR r <= 255) by (split; apply IZR_le; lia).
  assert (0 <= IZR g <= 255) by (split; apply IZR_le; lia).
  assert (0 <= IZR b <= 255) by (split; apply IZR_le; lia).
  generalize dependent (F2R P1). generalize dependent (F2R P2).
  generalize dependent (F2R P3). generalize dependent (F2R S1).
  generalize dependent (F2R S2). generalize dependent (IZR r).
  generalize dependent (IZR g). generalize dependent (IZR b).
  clear. intros. apply Rabs_le. unfold Rdiv in *. lra.
Qed.

Lemma round_half_even_nearest m e :
  Rabs (IZR (round_half_even m e) - IZR (Z.pos m) * bpow e) <= / 2.
Proof.
  unfold round_half_even. destruct (0 <=? e)%Z eqn:E.
  - apply Z.leb_le in E. rewrite mult_IZR, (bpow_IZR e E).
    rewrite Rminus_diag, Rabs_R0. lra.
  - apply Z.leb_gt in E.
    pose proof (pow2_pos (- e) ltac:(lia)) as Hd. set (d := (2 ^ (- e))%Z) in *.
    assert (bpow e = / IZR d) as ->.
    { rewrite <- (Z.opp_involutive e) at 1. by rewrite bpow_neg_IZR by lia. }
    pose proof (Z.div_mod (Z.pos m) d ltac:(lia)) as Hq.
    pose proof (Z.mod_pos_bound (Z.pos m) d Hd) as Hr.
    set (f := (Z.pos m / d)%Z) in *. set (r := (Z.pos m mod d)%Z) in *.
    assert (0 < IZR d) as HdR by (by apply IZR_lt).
    set (rho := IZR r * / IZR d).
    assert (IZR (Z.pos m) * / IZR d = IZR f + rho) as ->.
    { rewrite Hq, plus_IZR, mult_IZR. unfold rho. field. lra. }
    assert (rho * IZR d = IZR r) as Hrho by (unfold rho; field; lra).
    assert (0 <= rho) as Hrho0.
    { unfold rho. apply Rmult_le_pos; [apply IZR_le; lia|].
      apply Rlt_le, Rinv_0_lt_compat, HdR. }
    destruct (2 * r ?= d)%Z eqn:C.
    + apply Z.compare_eq in C. apply (f_equal IZR) in C. rewrite mult_IZR in C.
      assert (rho = / 2) as Hh.
      { apply Rmult_eq_reg_r with (IZR d); [|lra]. lra. }
      destruct (Z.even f); [|rewrite plus_IZR]; apply Rabs_le; lra.
    + apply Z.compare_lt_iff, IZR_lt in C. rewrite mult_IZR in C.
      assert (rho < / 2) as Hh.
      { apply Rmult_lt_reg_r with (IZR d); [done|]. lra. }
      apply Rabs_le; lra.
    + apply Z.compare_gt_iff, IZR_lt in C. rewrite mult_IZR in C.
      assert (/ 2 < rho < 1) as Hh.
      { split; (apply Rmult_lt_reg_r with (IZR d); [done|]); [lra|].
        assert (IZR r < IZR d) by (apply IZR_lt; lia). lra. }
      rewrite plus_IZR. apply Rabs_le; lra.
Qed.

(** Below 255.5 the clamp does not cut: the stored byte is the nearest
    integer. *)
Lemma ToUint8Clamp_nearest lo hi x :
  finite_nonneg lo hi x -> F2R x < 511 / 2 ->
  Rabs (IZR (ToUint8Clamp x) - F2R x) <= / 2.
Proof.
  intros [->|N] Hx.
  - cbn. rewrite Rminus_diag, Rabs_R0. lra.
  - destruct x as [| | |[] m e]; try done. cbn [ToUint8Clamp F2R] in *.
    pose proof (round_half_even_nearest m e) as Hn.
    rewrite Rmult_1_l in *.
    destruct (255 <=? round_half_even m e)%Z eqn:E; [|done].
    apply Z.leb_le in E.
    assert (round_half_even m e = 255%Z) as Hv.
    { apply Rabs_le_both in Hn.
      assert (IZR (round_half_even m e) < IZR 256) as Hlt by lra.
      apply lt_IZR in Hlt. lia. }
    by rewrite Hv in Hn.
Qed.

End Grayscale.

(** C5, the stored sample against the weighted sum: the pixel (1, 0, 0)
    has luminance 0.299, inside [0, 255], and the buffer holds 0. *)
Lemma red_pixel_is_stored_as_0 :
  toGrayscale red_pixel = [0] /\
  luminance (of_Z 1) (of_Z 0) (of_Z 0) = lit_0_299 /\
  of_Z 0 <> lit_0_299.
Proof. split; [by vm_compute|]. split; [by vm_compute|]. by vm_compute. Qed.

(** C5. For every pixel of the raster with byte channels, the stored
    sample is the luminance 0.299 R + 0.587 G + 0.114 B computed in
    binary64 and rounded to the nearest integer (ties to even) by the
    byte buffer: a byte within 1/2 + 2^-42 of the weighted sum. The alpha
    channel is not read. *)
Theorem grayscale_sample_is_rounded_luminance img p r g b :
  (p < width img * height img)%nat ->
  data img !! (4 * p)%nat = Some r ->
  data img !! (4 * p + 1)%nat = Some g ->
  data img !! (4 * p + 2)%nat = Some b ->
  0 <= r <= 255 -> 0 <= g <= 255 -> 0 <= b <= 255 ->
  exists s,
    toGrayscale img !! p = Some s /\
    s = ToUint8Clamp (luminance (of_Z r) (of_Z g) (of_Z b)) /\
    0 <= s <= 255 /\
    (Rabs (IZR s - weighted_sum r g b) <= / 2 + / 4398046511104)%R.
Proof.
  intros Hp Er Eg Eb Hr Hg Hb.
  exists (ToUint8Clamp (luminance (of_Z r) (of_Z g) (of_Z b))).
  split.
  { rewrite toGrayscale_lookup; [by rewrite Er, Eg, Eb|done|].
    by apply lookup_lt_Some in Er. }
  split; [done|]. split; [apply ToUint8Clamp_range|].
  destruct (luminance_accuracy r g b Hr Hg Hb) as [N A].
  set (l := luminance (of_Z r) (of_Z g) (of_Z b)) in *.
  assert (weighted_sum r g b <= 255)%R as Hw.
  { unfold weighted_sum.
    assert (IZR r <= 255)%R by (apply IZR_le; lia).
    assert (IZR g <= 255)%R by (apply IZR_le; lia).
    assert (IZR b <= 255)%R by (apply IZR_le; lia). lra. }
  apply Rabs_le_both in A.
  pose proof (ToUint8Clamp_nearest _ _ l N ltac:(lra)) as Hn.
  apply Rabs_le_both in Hn. apply Rabs_le. lra.
Qed.

Lemma grayscale_sample_witness :
  exists s,
    toGrayscale sample2x2 !! 2%nat = Some s /\
    s = ToUint8Clamp (luminance (of_Z 200) (of_Z 200) (of_Z 200)) /\
    0 <= s <= 255 /\
    (Rabs (IZR s - weighted_sum 200 200 200) <= / 2 + / 4398046511104)%R.
Proof.
  apply (grayscale_sample_is_rounded_luminance sample2x2 2 200 200 200);
    try reflexivity; try lia. cbn. lia.
Defined.

(** ** Otsu on variances equal in exact arithmetic *)

Lemma background_ramp t :
  background [0; 1; 1; 2] t
  = if decide (t < 0) then []
    else if decide (t < 1) then [0]
    else if decide (t < 2) then [0; 1; 1]
    else [0; 1; 1; 2].
Proof.
  unfold background. rewrite !filter_cons, filter_nil.
  repeat case_decide; (done || lia).
Qed.

(** C7, equal variances against computed ones: on the grays 0, 1, 1, 2
    thresholds 0 and 1 both have the maximal between-class variance 16/3,
    and the search returns 1: only the pixel of gray 2 comes out white,
    where the threshold 0 would turn the two pixels of gray 1 white too. *)
Lemma otsu_exact_tie_returns_higher :
  toGrayscale ramp2x2 = [0; 1; 1; 2] /\
  exact_variance [0; 1; 1; 2] 0 = (16 / 3)%R /\
  exact_variance [0; 1; 1; 2] 1 = (16 / 3)%R /\
  (forall t, Rle (exact_variance [0; 1; 1; 2] t) (16 / 3)%R) /\
  otsu_level [0; 1; 1; 2] = 1 /\
  otsuThreshold ramp2x2
  = Some (mkImageData 2 2
            [0; 0; 0; 255; 0; 0; 0; 255; 0; 0; 0; 255; 255; 255; 255; 255]) /\
  applyThreshold [0; 1; 1; 2] (Scalar (of_Z 0)) 2 2
  = mkImageData 2 2
      [0; 0; 0; 255; 255; 255; 255; 255; 255; 255; 255; 255; 255; 255; 255; 255].
Proof.
  assert (exact_variance_of 1 4 0 4 = 16 / 3)%R as E0.
  { unfold exact_variance_of. change (4 - 1) with 3. change (4 - 0) with 4.
    unfold Rdiv. lra. }
  assert (exact_variance_of 3 4 2 4 = 16 / 3)%R as E1.
  { unfold exact_variance_of. change (4 - 3) with 1. change (4 - 2) with 2.
    unfold Rdiv. lra. }
  split; [by vm_compute|]. split; [exact E0|]. split; [exact E1|].
  split; [|split; [|split]; by vm_compute].
  intros t. unfold exact_variance. rewrite background_ramp.
  repeat case_decide.
  - unfold exact_variance_of. cbn [length Z.of_nat]. rewrite !Rmult_0_l. lra.
  - rewrite <- E0. apply Req_le. reflexivity.
  - rewrite <- E1. apply Req_le. reflexivity.
  - unfold exact_variance_of. change (Z.of_nat (length [0; 1; 1; 2])) with 4.
    change (4 - 4) with 0. rewrite Rmult_0_r, !Rmult_0_l. lra.
Qed.

(** ** The clamped window and its reads *)

Lemma mean_of_nonneg_variance acc :
  nonneg_num (variance (stats_of_sums acc)) -> mean (stats_of_sums acc) <> NaN.
Proof.
  unfold stats_of_sums. cbn [variance mean]. intros Hv Hm. rewrite Hm in Hv.
  by destruct (div (squaredSum acc) (count acc)) as [| | |[] m e].
Qed.

(** C10. For an in-bounds pixel of a w x h buffer the clamped window
    contains the centre pixel, so it is not empty; the sums the code
    accumulates are those of the reads at [wy * w + wx] over the cells
    of the window, every one of these indices lies inside the buffer,
    and the divisor [count] is the number of cells, a positive integer
    (exactly represented below 2^53). On a buffer of bytes the sum is
    the integer sum of the samples read, and mean, variance and
    standard deviation are numbers, not NaN. *)
Theorem window_nonempty_and_in_bounds gs x y w h ws :
  1 <= w -> 1 <= h -> 0 <= x < w -> 0 <= y < h -> 0 <= ws ->
  Z.of_nat (length gs) = w * h -> w * h < 2 ^ 53 ->
  let win := window_of x y w h ws in
  let cells := window_cells (startX win) (endX win) (startY win) (endY win) in
  let sums := window_sums gs w (startX win) (endX win) (startY win) (endY win) in
  (y, x) ∈ cells /\
  (forall wy wx, (wy, wx) ∈ cells ->
     0 <= wy * w + wx < w * h /\ is_Some (aget gs (wy * w + wx))) /\
  1 <= Z.of_nat (length cells) /\
  count sums = of_Z (Z.of_nat (length cells)) /\
  sums = foldl add_pixel (mkWindowSums zero zero zero)
           ((fun c => read gs (fst c * w + snd c)) <$> cells) /\
  (bytes gs -> w * h <= 2 ^ 32 ->
   let st := calculateLocalStats gs x y w h ws in
   sum sums = of_Z (Zsum (window_values gs w cells)) /\
   mean st <> NaN /\ variance st <> NaN /\ stdDev st <> NaN).
Proof.
  intros _ _ Hx Hy Hws Hl Hsz win cells sums.
  pose proof (window_of_bounds x y w h ws Hx Hy Hws) as B. cbn zeta in B. fold win in B.
  pose proof (window_cells_count x y w h ws Hx Hy Hws) as Hn. cbn zeta in Hn.
  fold win in Hn. fold cells in Hn.
  split; [|split; [|split; [|split; [|split]]]].
  - apply elem_of_window_cells. lia.
  - intros wy wx Hc.
    apply (window_cells_in_range gs x y w h ws Hx Hy Hws Hl (wy, wx) Hc).
  - lia.
  - unfold sums. rewrite window_sums_flat. fold cells.
    rewrite (fold_add_pixel_count _ _ 0); [| reflexivity | lia |].
    + by rewrite length_fmap.
    + rewrite length_fmap. lia.
  - apply window_sums_flat.
  - intros Hb H32.
    assert (65025 * 2 ^ 32 < 2 ^ 53) as Hp by (vm_compute; reflexivity).
    pose proof (window_sums_exact gs x y w h ws Hb Hx Hy Hws Hl ltac:(lia)) as He.
    cbn zeta in He. fold win in He. fold cells in He. fold sums in He.
    set (vs := window_values gs w cells) in *.
    assert (length vs = length cells) as Hlen
      by (unfold vs, window_values; by rewrite length_fmap).
    pose proof (variance_of_samples vs (window_values_bytes gs w cells Hb)
                  ltac:(rewrite Hlen; lia)) as Hv.
    rewrite <- He in Hv. cbn zeta.
    change (calculateLocalStats gs x y w h ws) with (stats_of_sums sums).
    split; [by rewrite He|]. split; [by apply mean_of_nonneg_variance|].
    split; [by apply nonneg_num_not_nan|].
    apply nonneg_num_not_nan. unfold stats_of_sums in *. cbn [stdDev variance] in *.
    by apply sqrt_nonneg.
Qed.

Lemma window_nonempty_witness :
  let gs := [1; 2; 3; 4; 5; 6; 7; 8; 9; 10] in
  let win := window_of 4 1 5 2 3 in
  let cells := window_cells (startX win) (endX win) (startY win) (endY win) in
  let sums := window_sums gs 5 (startX win) (endX win) (startY win) (endY win) in
  (1, 4) ∈ cells /\
  (forall wy wx, (wy, wx) ∈ cells ->
     0 <= wy * 5 + wx < 5 * 2 /\ is_Some (aget gs (wy * 5 + wx))) /\
  1 <= Z.of_nat (length cells) /\
  count sums = of_Z (Z.of_nat (length cells)) /\
  sums = foldl add_pixel (mkWindowSums zero zero zero)
           ((fun c => read gs (fst c * 5 + snd c)) <$> cells) /\
  (bytes gs -> 5 * 2 <= 2 ^ 32 ->
   let st := calculateLocalStats gs 4 1 5 2 3 in
   sum sums = of_Z (Zsum (window_values gs 5 cells)) /\
   mean st <> NaN /\ variance st <> NaN /\ stdDev st <> NaN).
Proof.
  apply (window_nonempty_and_in_bounds [1; 2; 3; 4; 5; 6; 7; 8; 9; 10] 4 1 5 2 3);
    cbn; lia.
Defined.

(** ** The grayscale buffer and the threshold rule *)

Section GrayscaleBuffer.

(** The grayscale buffer has one sample per pixel of the declared
    dimensions, each a byte, whatever the length of the input data. *)
Theorem grayscale_buffer_shape img :
  length (toGrayscale img) = (width img * height img)%nat /\
  Forall (fun v => 0 <= v <= 255) (toGrayscale img).
Proof. split; [apply toGrayscale_length|apply toGrayscale_bytes]. Qed.

Lemma toGrayscale_step_colours pixels1 pixels2 gs p :
  (forall c : nat, (c < 3)%nat -> pixels1 !! (4 * p + c)%nat = pixels2 !! (4 * p + c)%nat) ->
  toGrayscale_step pixels1 gs p = toGrayscale_step pixels2 gs p.
Proof.
  intros H. unfold toGrayscale_step. cbn zeta.
  pose proof (H 0%nat ltac:(lia)) as H0. rewrite Nat.add_0_r in H0.
  by rewrite H0, (H 1%nat ltac:(lia)), (H 2%nat ltac:(lia)).
Qed.

(** The alpha channel is never read: rasters that differ only in their
    alpha samples have the same grayscale buffer. *)
Theorem grayscale_ignores_alpha img1 img2 :
  same_colours img1 img2 -> toGrayscale img1 = toGrayscale img2.
Proof.
  intros (Hw & Hh & Hl & Hc). unfold toGrayscale. cbn zeta. rewrite Hw, Hh, Hl.
  generalize (replicate (width img2 * height img2) 0) as gs.
  generalize (seq 0 ((length (data img2) + 3) / 4)) as ps.
  induction ps as [|p ps IH]; intros gs; [done|].
  cbn [foldl]. rewrite (toGrayscale_step_colours (data img1) (data img2)); [apply IH|].
  intros c Hlt. by apply Hc.
Qed.

Lemma grayscale_ignores_alpha_witness :
  toGrayscale sample2x2 = toGrayscale sample2x2_translucent.
Proof.
  apply (grayscale_ignores_alpha sample2x2 sample2x2_translucent).
  split; [done|]. split; [done|]. split; [done|].
  intros p c Hc. cbn [data sample2x2 sample2x2_translucent].
  destruct c as [|[|[|c]]]; [| | |lia];
    (destruct p as [|[|[|[|p]]]]; [done|done|done|done|]);
    rewrite !lookup_ge_None_2; (done || (cbn; lia)).
Defined.

Lemma gray_levels_fixed_check :
  forallb (fun v => ToUint8Clamp (luminance (of_Z v) (of_Z v) (of_Z v)) =? v)
          (seqZ 0 256) = true.
Proof. vm_compute. reflexivity. Qed.

Lemma gray_level_fixed v :
  0 <= v <= 255 -> ToUint8Clamp (luminance (of_Z v) (of_Z v) (of_Z v)) = v.
Proof.
  intros Hv. pose proof gray_levels_fixed_check as H.
  rewrite forallb_forall in H. apply Z.eqb_eq, H.
  apply list_elem_of_In, elem_of_seqZ. lia.
Qed.

(** A gray pixel keeps its level: when R = G = B = v the weights
    0.299, 0.587 and 0.114 give back v after the rounding of the byte
    buffer, for every byte v. *)
Theorem grayscale_of_gray_pixel img p v :
  (p < width img * height img)%nat ->
  data img !! (4 * p)%nat = Some v ->
  data img !! (4 * p + 1)%nat = Some v ->
  data img !! (4 * p + 2)%nat = Some v ->
  0 <= v <= 255 ->
  toGrayscale img !! p = Some v.
Proof.
  intros Hp E0 E1 E2 Hv.
  rewrite toGrayscale_lookup; [|done|by apply lookup_lt_Some in E0].
  rewrite E0, E1, E2. cbn [of_read]. by rewrite gray_level_fixed.
Qed.

Lemma grayscale_of_gray_pixel_witness : toGrayscale sample2x2 !! 2%nat = Some 200.
Proof.
  apply (grayscale_of_gray_pixel sample2x2 2 200); try reflexivity; cbn; lia.
Defined.

Lemma luminance_missing_blue r g : luminance r g NaN = NaN.
Proof.
  unfold luminance.
  assert (mul lit_0_114 NaN = NaN) as -> by reflexivity.
  by destruct (add (mul lit_0_299 r) (mul lit_0_587 g)).
Qed.

(** A pixel of the declared raster whose blue sample lies past the end of
    the data reads [undefined], its luminance is NaN, and the byte
    buffer holds 0 for it. *)
Theorem grayscale_of_missing_sample img p :
  (p < width img * height img)%nat ->
  data img !! (4 * p + 2)%nat = None ->
  toGrayscale img !! p = Some 0.
Proof.
  intros Hp Hb. unfold toGrayscale. cbn zeta.
  rewrite toGrayscale_fold_lookup by (by rewrite length_replicate).
  destruct (decide _) as [_|_].
  - rewrite Hb. cbn [of_read]. by rewrite luminance_missing_blue.
  - by apply lookup_replicate_2.
Qed.

Lemma grayscale_of_missing_sample_witness : toGrayscale truncated_raster !! 1%nat = Some 0.
Proof. apply (grayscale_of_missing_sample truncated_raster 1); [cbn; lia|reflexivity]. Defined.

End GrayscaleBuffer.

Section ThresholdRule.

Lemma threshold_pixel_rule gs t (w h i : nat) :
  length gs = (w * h)%nat -> (i < w * h)%nat ->
  pixel_is (applyThreshold gs t w h) i (classify (of_read (gs !! i)) (threshold_at t i)).
Proof.
  intros Hl Hi. unfold pixel_is.
  pose proof (applyThreshold_lookup gs t w h i 0 Hl Hi ltac:(lia)) as H0.
  pose proof (applyThreshold_lookup gs t w h i 1 Hl Hi ltac:(lia)) as H1.
  pose proof (applyThreshold_lookup gs t w h i 2 Hl Hi ltac:(lia)) as H2.
  pose proof (applyThreshold_lookup gs t w h i 3 Hl Hi ltac:(lia)) as H3.
  rewrite Nat.add_0_r in H0. cbn in H0, H1, H2, H3. done.
Qed.

(** applyThreshold decides every pixel by its own sample and its own
    threshold: pixel [i] is white exactly when [grayscale[i] > t], and no
    later iteration overwrites it. *)
Theorem applyThreshold_pixel_rule gs t (w h i : nat) :
  length gs = (w * h)%nat -> (i < w * h)%nat ->
  pixel_is (applyThreshold gs t w h) i (classify (of_read (gs !! i)) (threshold_at t i)).
Proof. apply threshold_pixel_rule. Qed.

Lemma applyThreshold_pixel_rule_witness :
  pixel_is (applyThreshold [0; 1; 1; 2] (Scalar (of_Z 1)) 2 2) 3
           (classify (of_read ([0; 1; 1; 2] !! 3%nat)) (threshold_at (Scalar (of_Z 1)) 3)).
Proof. apply (applyThreshold_pixel_rule [0; 1; 1; 2] (Scalar (of_Z 1)) 2 2 3); cbn; lia. Defined.

(** A threshold array shorter than the buffer: the thresholds past its
    end read [undefined], the comparison is false and the pixel is
    black. *)
Theorem applyThreshold_short_array gs ts (w h i : nat) :
  length gs = (w * h)%nat -> (i < w * h)%nat -> (length ts <= i)%nat ->
  black_pixel (applyThreshold gs (PerPixel ts) w h) i.
Proof.
  intros Hl Hi Hts.
  pose proof (threshold_pixel_rule gs (PerPixel ts) w h i Hl Hi) as H.
  cbn [threshold_at] in H. rewrite (lookup_ge_None_2 ts i Hts) in H.
  assert (classify (of_read (gs !! i)) NaN = 0) as E.
  { unfold classify, gt. by destruct (of_read (gs !! i)). }
  by rewrite E in H.
Qed.

Lemma applyThreshold_short_array_witness :
  black_pixel (applyThreshold [0; 1; 1; 2] (PerPixel [zero; zero; zero]) 2 2) 3.
Proof.
  apply (applyThreshold_short_array [0; 1; 1; 2] [zero; zero; zero] 2 2 3); cbn; lia.
Defined.

Lemma SFleb_ltb_trans a b c : SFleb a b = true -> SFltb b c = true -> SFltb a c = true.
Proof.
  rewrite SFleb_key, !SFltb_key. intros (Na & Nb & Hab) (_ & Nc & Hbc).
  split; [done|]. split; [done|].
  destruct (order_key a) as [[a1 a2] a3], (order_key b) as [[b1 b2] b3],
    (order_key c) as [[c1 c2] c3].
  unfold key_lt in *. cbn [fst snd] in *. lia.
Qed.

(** Lowering the threshold never turns a white pixel black. *)
Theorem applyThreshold_monotone gs t1 t2 (w h i : nat) :
  length gs = (w * h)%nat -> (i < w * h)%nat -> SFleb t1 t2 = true ->
  pixel_is (applyThreshold gs (Scalar t2) w h) i 255 ->
  pixel_is (applyThreshold gs (Scalar t1) w h) i 255.
Proof.
  intros Hl Hi Hle [H2 _].
  pose proof (threshold_pixel_rule gs (Scalar t2) w h i Hl Hi) as [R2 _].
  pose proof (threshold_pixel_rule gs (Scalar t1) w h i Hl Hi) as R1.
  cbn [threshold_at] in *. rewrite R2 in H2. injection H2 as H2.
  unfold classify, gt in *.
  destruct (SFltb t2 (of_read (gs !! i))) eqn:E; [|done].
  by rewrite (SFleb_ltb_trans _ _ _ Hle E) in R1.
Qed.

Lemma applyThreshold_monotone_witness :
  pixel_is (applyThreshold [0; 1; 1; 2] (Scalar (of_Z 0)) 2 2) 3 255.
Proof.
  apply (applyThreshold_monotone [0; 1; 1; 2] (of_Z 0) (of_Z 1) 2 2 3);
    [reflexivity|cbn; lia|reflexivity|].
  by vm_compute.
Defined.

End ThresholdRule.

(** ** Windows and the per-pixel decision *)

Section LocalWindows.

(** The statistics of a pixel depend on the samples of its window only:
    buffers that agree on the cells of the clamped window give the same
    mean, variance and standard deviation. *)
Theorem stats_depend_on_window_only gs1 gs2 x y w h ws :
  let win := window_of x y w h ws in
  (forall wy wx, startY win <= wy <= endY win -> startX win <= wx <= endX win ->
     aget gs1 (wy * w + wx) = aget gs2 (wy * w + wx)) ->
  calculateLocalStats gs1 x y w h ws = calculateLocalStats gs2 x y w h ws.
Proof.
  intros win H. unfold calculateLocalStats. cbn zeta. fold win.
  rewrite !window_sums_flat.
  set (cells := window_cells (startX win) (endX win) (startY win) (endY win)).
  assert ((fun c => read gs1 (fst c * w + snd c)) <$> cells
          = (fun c => read gs2 (fst c * w + snd c)) <$> cells) as ->; [|done].
  apply list_fmap_ext. intros i [wy wx] Hc. cbn [fst snd]. unfold read.
  apply list_elem_of_lookup_2, elem_of_window_cells in Hc.
  destruct Hc as [Hy Hx]. by rewrite (H wy wx Hy Hx).
Qed.

Lemma stats_depend_on_window_only_witness :
  calculateLocalStats row_a 0 0 5 1 3 = calculateLocalStats row_b 0 0 5 1 3.
Proof.
  apply (stats_depend_on_window_only row_a row_b 0 0 5 1 3).
  intros wy wx. unfold window_of. cbn [startX endX startY endY].
  change (3 / 2) with 1. intros Hy Hx.
  assert (wy = 0) as -> by lia.
  assert (wx = 0 \/ wx = 1) as [-> | ->] by lia; reflexivity.
Defined.

(** The clamped window holds between 1 and (2 * halfWindow + 1)^2 cells,
    and exactly that many when the pixel is at least halfWindow away
    from every border. *)
Theorem window_count_bounds x y w h ws :
  0 <= x < w -> 0 <= y < h -> 0 <= ws ->
  let win := window_of x y w h ws in
  let n := Z.of_nat (length (window_cells (startX win) (endX win) (startY win) (endY win))) in
  let side := 2 * (ws / 2) + 1 in
  1 <= n <= side * side /\
  (ws / 2 <= x <= w - 1 - ws / 2 -> ws / 2 <= y <= h - 1 - ws / 2 -> n = side * side).
Proof.
  intros Hx Hy Hws. cbn zeta. rewrite length_window_cells.
  unfold window_of. cbn [startX endX startY endY].
  assert (0 <= ws / 2) as Hh by (apply Z.div_pos; lia).
  set (hw := ws / 2) in *. split; [split|]; [nia| |intros; nia].
  assert (1 <= Z.min (h - 1) (y + hw) - Z.max 0 (y - hw) + 1 <= 2 * hw + 1) by lia.
  assert (1 <= Z.min (w - 1) (x + hw) - Z.max 0 (x - hw) + 1 <= 2 * hw + 1) by lia.
  rewrite !Z.max_r by lia. nia.
Qed.

Lemma window_count_bounds_witness :
  let win := window_of 2 2 5 5 3 in
  let n := Z.of_nat (length (window_cells (startX win) (endX win) (startY win) (endY win))) in
  let side := 2 * (3 / 2) + 1 in
  1 <= n <= side * side /\
  (3 / 2 <= 2 <= 5 - 1 - 3 / 2 -> 3 / 2 <= 2 <= 5 - 1 - 3 / 2 -> n = side * side).
Proof. apply (window_count_bounds 2 2 5 5 3); lia. Defined.

End LocalWindows.

Section PixelRule.
Local Open Scope nat_scope.

Lemma pixel_is_of_lookups out i v :
  (forall c, c < 4 ->
     data out !! (i * 4 + c) = Some (if c <? 3 then v else 255%Z)) ->
  pixel_is out i v.
Proof.
  intros H. unfold pixel_is. rewrite <- (Nat.add_0_r (i * 4)) at 1.
  repeat split; [apply (H 0)|apply (H 1)|apply (H 2)|apply (H 3)]; lia.
Qed.

Lemma sweep_pixel_rule gs w h thr x y :
  x < w -> y < h ->
  pixel_is (sweep gs w h thr) (y * w + x) (classify (of_read (gs !! (y * w + x))) (thr x y)).
Proof. intros Hx Hy. apply pixel_is_of_lookups. intros c Hc. by apply sweep_lookup. Qed.

Lemma scalar_pixel_rule gs w h t i :
  length gs = w * h -> i < w * h ->
  pixel_is (applyThreshold gs (Scalar t) w h) i (classify (of_read (gs !! i)) t).
Proof.
  intros Hl Hi. apply pixel_is_of_lookups. intros c Hc.
  exact (applyThreshold_lookup gs (Scalar t) w h i c Hl Hi Hc).
Qed.

(** Every entry point decides pixel (x, y) by comparing its own
    grayscale sample with the threshold of its formula: the output pixel is
    white exactly when [grayscale[y * width + x] > threshold], and the
    writes of the other iterations leave it alone. Otsu's threshold is an
    integer of [0, 255]. *)
Theorem binarize_pixel_rule a img k x y :
  x < width img -> y < height img ->
  exists out, binarize a img k = Some out /\
    pixel_is out (y * width img + x)
      (classify (of_read (toGrayscale img !! (y * width img + x)))
                (pixel_threshold a img k x y)) /\
    (0 <= otsu_level (toGrayscale img) <= 255)%Z.
Proof.
  intros Hx Hy.
  pose proof (otsu_level_range (toGrayscale img)) as Hr.
  assert (y * width img + x < width img * height img) as Hi by nia.
  pose proof (sweep_pixel_rule (toGrayscale img) (width img) (height img)) as Hs.
  pose proof (scalar_pixel_rule (toGrayscale img) (width img) (height img)) as Ho.
  generalize dependent (otsu_level (toGrayscale img)). intros level Hr.
  destruct a; cbv beta iota zeta delta
    [pixel_threshold binarize otsuThreshold niblackThreshold sauvolaThreshold
     wolfThreshold nickThreshold trSinghThreshold iSauvolaThreshold wanThreshold];
    (eexists; split; [reflexivity|]); (split; [|exact Hr]).
  - apply Ho; [apply toGrayscale_length|exact Hi].
  - exact (Hs _ x y Hx Hy).
  - exact (Hs _ x y Hx Hy).
  - exact (Hs _ x y Hx Hy).
  - exact (Hs _ x y Hx Hy).
  - exact (Hs _ x y Hx Hy).
  - exact (Hs _ x y Hx Hy).
  - exact (Hs (fun x y => wan_formula k
                 (edge_at (wan_edges (toGrayscale img) (width img) (height img))
                          (y * width img + x))
                 (stats_at (toGrayscale img) (width img) (height img) x y)) x y Hx Hy).
Qed.

Lemma binarize_pixel_rule_witness :
  exists out, binarize Wan sample2x2 wan_default_k = Some out /\
    pixel_is out (1 * width sample2x2 + 0)
      (classify (of_read (toGrayscale sample2x2 !! (1 * width sample2x2 + 0)))
                (pixel_threshold Wan sample2x2 wan_default_k 0 1)) /\
    (0 <= otsu_level (toGrayscale sample2x2) <= 255)%Z.
Proof. apply (binarize_pixel_rule Wan sample2x2 wan_default_k 0 1); cbn [width height sample2x2]; lia. Defined.


End PixelRule.

(** ** The edge map of WAN *)

Section WanEdges.
Local Open Scope nat_scope.

Lemma wan_row_length gs w y xs (e : list number) :
  length (foldl (fun edges x => <[y * w + x := sobel_at gs w x y]> edges) e xs) = length e.
Proof.
  revert e. induction xs as [|x xs IH]; intros e; [done|].
  cbn [foldl]. by rewrite IH, length_insert.
Qed.

Lemma wan_row_untouched gs w y xs (e : list number) j :
  (forall x, x ∈ xs -> y * w + x <> j) ->
  foldl (fun edges x => <[y * w + x := sobel_at gs w x y]> edges) e xs !! j = e !! j.
Proof.
  revert e. induction xs as [|x xs IH]; intros e H; [done|].
  cbn [foldl]. rewrite IH.
  - apply list_lookup_insert_ne, H. by left.
  - intros x' Hx'. apply H. by right.
Qed.

Lemma wan_rows_length gs w xs ys (e : list number) :
  length (foldl (fun edges y =>
                   foldl (fun edges x => <[y * w + x := sobel_at gs w x y]> edges) edges xs)
                e ys) = length e.
Proof.
  revert e. induction ys as [|y ys IH]; intros e; [done|].
  cbn [foldl]. by rewrite IH, wan_row_length.
Qed.

Lemma wan_rows_untouched gs w xs ys (e : list number) j :
  (forall y x, y ∈ ys -> x ∈ xs -> y * w + x <> j) ->
  foldl (fun edges y =>
           foldl (fun edges x => <[y * w + x := sobel_at gs w x y]> edges) edges xs)
        e ys !! j = e !! j.
Proof.
  revert e. induction ys as [|y ys IH]; intros e H; [done|].
  cbn [foldl]. rewrite IH.
  - apply wan_row_untouched. intros x Hx. apply H; [by left|done].
  - intros y' x' Hy' Hx'. apply H; [by right|done].
Qed.

(** The edge map has one entry per pixel, and the Sobel loops never
    write the border: the first and last row and column keep the 0 the
    array was created with. *)
Theorem wan_edges_border gs w h x y :
  x < w -> y < h -> (x = 0 \/ y = 0 \/ x + 1 = w \/ y + 1 = h) ->
  length (wan_edges gs w h) = w * h /\
  wan_edges gs w h !! (y * w + x) = Some zero.
Proof.
  intros Hx Hy Hb. unfold wan_edges. split.
  - by rewrite wan_rows_length, length_replicate.
  - rewrite wan_rows_untouched.
    + apply lookup_replicate_2. nia.
    + intros y' x' Hy' Hx' E. apply elem_of_seq in Hy', Hx'.
      destruct (row_major_inj w y x y' x' Hx ltac:(lia) E) as [-> ->]. lia.
Qed.

Lemma wan_edges_border_witness :
  length (wan_edges flat3x3 3 3) = 3 * 3 /\
  wan_edges flat3x3 3 3 !! (2 * 3 + 1) = Some zero.
Proof. apply (wan_edges_border flat3x3 3 3 1 2); lia. Defined.

Lemma wan_edges_small gs w h :
  w < 3 \/ h < 3 -> wan_edges gs w h = replicate (w * h) zero.
Proof.
  intros H. unfold wan_edges. apply list_eq. intros j.
  apply wan_rows_untouched. intros y x Hy Hx. apply elem_of_seq in Hy, Hx. lia.
Qed.

Lemma foldl_ext_in {A B} (F G : A -> B -> A) l a :
  (forall s b, b ∈ l -> F s b = G s b) -> foldl F a l = foldl G a l.
Proof.
  revert a. induction l as [|b l IH]; intros a H; [done|].
  cbn [foldl]. rewrite (H a b) by (by left). apply IH. intros s b' Hb'. apply H. by right.
Qed.

Lemma sweep_ext gs w h f g :
  (forall x y, x < w -> y < h -> f x y = g x y) -> sweep gs w h f = sweep gs w h g.
Proof.
  intros H. unfold sweep. f_equal. rewrite !for_each_pixel_flat.
  apply foldl_ext_in. intros buf [y x] Hin. apply elem_of_pixel_order in Hin as [Hy Hx].
  cbn [fst snd]. unfold write_decision. by rewrite (H x y Hx Hy).
Qed.

Lemma mul_one_normal k : normal_number k -> mul k one = k.
Proof.
  destruct k as [[]|[]| |s m e]; try done. intros [D E].
  unfold mul, SFmul, one. rewrite xorb_false_r.
  change (Z.pos (m * 4503599627370496)) with (Z.pos m * 2 ^ 52)%Z.
  change (e + -52)%Z with (e - 52)%Z. apply bra_exact; [done|lia|done].
Qed.

(** On an image with fewer than three columns or rows there is no
    interior pixel, the edge map stays 0, and WAN computes exactly what
    Sauvola does. *)
Theorem wan_small_image_is_sauvola img k :
  normal_number k -> width img < 3 \/ height img < 3 ->
  wanThreshold img k = sauvolaThreshold img k.
Proof.
  intros Hk Hs. unfold wanThreshold, sauvolaThreshold. cbn zeta. f_equal.
  apply sweep_ext. intros x y Hx Hy.
  rewrite wan_edges_small by done. unfold edge_at.
  rewrite lookup_replicate_2 by nia.
  unfold wan_formula, sauvola_formula. cbn zeta.
  assert (div zero n255 = zero) as -> by reflexivity.
  assert (add one zero = one) as -> by reflexivity.
  by rewrite mul_one_normal.
Qed.

Lemma wan_small_image_witness :
  wanThreshold sample2x2 wan_default_k = sauvolaThreshold sample2x2 wan_default_k.
Proof.
  apply (wan_small_image_is_sauvola sample2x2 wan_default_k).
  - split; [reflexivity|lia].
  - left. cbn. lia.
Defined.




End WanEdges.

(** ** The contrast factor of ISauvola, and images of one colour *)

Section ContrastFactor.

Lemma compare_one_Gt m e :
  SFcompare one (S754_finite false m e) = Some Gt ->
  SFcompare (S754_finite false m e) one = Some Lt.
Proof.
  unfold one. cbn [SFcompare]. intros H. f_equal.
  rewrite (Z.compare_antisym (-52) e).
  destruct (-52 ?= e) eqn:C; cbn [CompOpp] in *; try congruence.
  - injection H as H.
    pose proof (Pos.compare_cont_antisym 4503599627370496 m Eq) as A.
    cbn [CompOpp] in A. rewrite <- A, H. reflexivity.
Qed.

(** ISauvola's contrast factor [Math.max(0, Math.min(1, r))] is NaN when
    the ratio is NaN and a number of [0, 1] otherwise, whatever the ratio
    (negative, infinite, or above 1). *)
Theorem iSauvola_alpha_clamped r :
  let alpha := Math_max zero (Math_min one r) in
  (r = NaN -> alpha = NaN) /\
  (r <> NaN -> SFleb zero alpha = true /\ SFleb alpha one = true).
Proof.
  cbn zeta. split; [by intros ->|]. intros Hr.
  destruct r as [[]|[]| |[] m e]; try done.
  unfold Math_min.
  destruct (SFcompare one (S754_finite false m e)) as [[]|] eqn:C; try done.
  assert (Math_max zero (S754_finite false m e) = S754_finite false m e) as ->
    by reflexivity.
  split; [done|]. unfold SFleb. by rewrite (compare_one_Gt m e C).
Qed.

End ContrastFactor.

Section OtsuUniform.

Lemma strict_eq_pos_zero n : 0 < n < 2 ^ 53 -> strict_eq (of_Z n) zero = false.
Proof. intros H. destruct n as [|p|p]; try lia. by rewrite of_Z_pos by lia. Qed.

Lemma histogram_other gs (hist : list number) (t : nat) :
  Forall (fun g => Z.to_nat g <> t) gs ->
  foldl (fun hist g => alter (fun c => add c one) (Z.to_nat g) hist) hist gs !! t
  = hist !! t.
Proof.
  revert hist. induction gs as [|g gs IH]; intros hist H; [done|].
  apply Forall_cons in H as [Hg H]. cbn [foldl]. rewrite IH by done.
  by apply list_lookup_alter_ne.
Qed.

Lemma histogram_count n v (hist : list number) c :
  hist !! Z.to_nat v = Some (of_Z c) -> 0 <= c -> c + Z.of_nat n < 2 ^ 53 ->
  foldl (fun hist g => alter (fun c => add c one) (Z.to_nat g) hist) hist (replicate n v)
    !! Z.to_nat v
  = Some (of_Z (c + Z.of_nat n)).
Proof.
  revert hist c. induction n as [|n IH]; intros hist c Hc H0 Hb.
  { cbn. rewrite Hc. do 2 f_equal. lia. }
  cbn [replicate foldl]. rewrite (IH _ (c + 1)); [do 2 f_equal; lia| |lia|lia].
  rewrite list_lookup_alter_eq, Hc. cbn. f_equal.
  rewrite one_of_Z. apply add_of_Z; lia.
Qed.

Section Loop.
Variables (hist : list number) (total wsum : number) (n v : Z).
Hypothesis Hn : 0 < n < 2 ^ 53.
Hypothesis Htotal : total = of_Z n.
Hypothesis Hat : hist_at hist v = of_Z n.
Hypothesis Hbelow : forall t, 0 <= t < v -> hist_at hist t = zero.

Lemma otsu_loop_uniform (k : nat) : forall a st,
  0 <= a <= v -> v < a + Z.of_nat k -> wB st = zero ->
  threshold (otsu_loop hist total wsum (seqZ a (Z.of_nat k)) st) = threshold st.
Proof.
  induction k as [|k IH]; intros a st Ha Hk Hw; [lia|].
  rewrite seqZ_cons by lia. replace (Z.pred (Z.of_nat (S k))) with (Z.of_nat k) by lia.
  cbn [otsu_loop]. cbv zeta. rewrite Hw.
  destruct (Z.eq_dec a v) as [->|Hne].
  - rewrite Hat.
    assert (add zero (of_Z n) = of_Z n) as ->.
    { change zero with (of_Z 0). by rewrite add_of_Z by lia. }
    rewrite strict_eq_pos_zero by done.
    rewrite Htotal, sub_diag_of_Z by lia. reflexivity.
  - rewrite Hbelow by lia. change (add zero zero) with zero.
    change (strict_eq zero zero) with true. cbv iota.
    rewrite IH; [done|lia|lia|done].
Qed.

End Loop.

Lemma otsu_level_of_uniform (n : nat) v :
  0 <= v <= 255 -> Z.of_nat n < 2 ^ 53 -> otsu_level (replicate n v) = 0.
Proof.
  intros Hv Hn. destruct n as [|n]; [by vm_compute|].
  unfold otsu_level, otsu_search. rewrite length_replicate.
  set (hist := otsu_histogram (replicate (S n) v)).
  assert (hist_at hist v = of_Z (Z.of_nat (S n))) as Hat.
  { unfold hist_at, hist, otsu_histogram.
    rewrite (histogram_count (S n) v _ 0); [done| |lia|lia].
    apply lookup_replicate_2. lia. }
  assert (forall t, 0 <= t < v -> hist_at hist t = zero) as Hbelow.
  { intros t Ht. unfold hist_at, hist, otsu_histogram. rewrite histogram_other.
    - rewrite lookup_replicate_2; [done|lia].
    - apply Forall_forall. intros g Hg. apply elem_of_replicate in Hg as [-> _]. lia. }
  exact (otsu_loop_uniform hist (of_Z (Z.of_nat (S n))) (otsu_weighted_sum hist)
           (Z.of_nat (S n)) v ltac:(lia) eq_refl Hat Hbelow 256%nat 0 otsu_init
           ltac:(lia) ltac:(lia) eq_refl).
Qed.

(** An image of one colour never splits into two classes: Otsu's search
    stops at the gray level of the image with the foreground empty, the
    threshold stays 0, and every pixel comes out white unless the image
    is black. *)
Theorem otsu_uniform_image img r g b :
  uniform_image img r g b ->
  Z.of_nat (width img * height img) < 2 ^ 53 ->
  let v := ToUint8Clamp (luminance (of_Z r) (of_Z g) (of_Z b)) in
  otsu_level (toGrayscale img) = 0 /\
  exists out, otsuThreshold img = Some out /\
    forall i, (i < width img * height img)%nat ->
      pixel_is out i (if 0 <? v then 255 else 0).
Proof.
  intros Hu Hsz v. unfold otsuThreshold. cbn zeta.
  rewrite (toGrayscale_uniform img r g b Hu). fold v.
  pose proof (ToUint8Clamp_range (luminance (of_Z r) (of_Z g) (of_Z b))) as Hv. fold v in Hv.
  rewrite (otsu_level_of_uniform _ v Hv Hsz). split; [done|].
  eexists. split; [reflexivity|]. intros i Hi.
  assert (classify (of_Z v) (of_Z 0) = if 0 <? v then 255 else 0) as <-.
  { destruct (0 <? v) eqn:E.
    - apply Z.ltb_lt in E. destruct v as [|p|p]; try lia. by rewrite of_Z_pos by lia.
    - apply Z.ltb_ge in E. by assert (v = 0) as -> by lia. }
  unfold pixel_is.
  pose proof (applyThreshold_lookup (replicate (width img * height img) v) (Scalar (of_Z 0))
                (width img) (height img) i) as L.
  rewrite lookup_replicate_2 in L by done. cbn [threshold_at of_read] in L.
  pose proof (L 0%nat (length_replicate _ _) Hi ltac:(lia)) as L0.
  rewrite Nat.add_0_r in L0.
  repeat split; [exact L0|apply (L 1%nat)|apply (L 2%nat)|apply (L 3%nat)];
    (apply length_replicate || lia).
Qed.

Lemma otsu_uniform_image_witness :
  let v := ToUint8Clamp (luminance (of_Z 90) (of_Z 90) (of_Z 90)) in
  otsu_level (toGrayscale gray2x2) = 0 /\
  exists out, otsuThreshold gray2x2 = Some out /\
    forall i, (i < width gray2x2 * height gray2x2)%nat ->
      pixel_is out i (if 0 <? v then 255 else 0).
Proof.
  apply (otsu_uniform_image gray2x2 90 90 90); [apply uniform_gray2x2|cbn; lia].
Defined.

End OtsuUniform.

Section ISauvolaUniform.

Lemma global_sums_uniform n v (k : nat) :
  0 <= v <= 255 -> (k <= n)%nat -> 65025 * Z.of_nat n < 2 ^ 53 ->
  foldl (fun s i =>
           mkGlobalSums (add (gsum s) (of_read (replicate n v !! i)))
                        (add (gsquares s)
                             (mul (of_read (replicate n v !! i))
                                  (of_read (replicate n v !! i))))
                        (add (gcount s) one))
        (mkGlobalSums zero zero zero) (seq 0 k)
  = mkGlobalSums (of_Z (Z.of_nat k * v)) (of_Z (Z.of_nat k * (v * v))) (of_Z (Z.of_nat k)).
Proof.
  intros Hv Hk Hn. induction k as [|k IH]; [done|].
  rewrite seq_S, foldl_app, IH by lia. cbn [foldl Nat.add gsum gsquares gcount].
  rewrite lookup_replicate_2 by lia. cbn [of_read].
  rewrite one_of_Z, mul_of_Z, !add_of_Z by nia.
  f_equal; f_equal; lia.
Qed.

Lemma globalStdDev_uniform (n : nat) v :
  0 <= v <= 255 -> (1 <= n)%nat -> 65025 * Z.of_nat n < 2 ^ 53 ->
  iSauvola_globalStdDev (replicate n v) = zero.
Proof.
  intros Hv Hn Hb. unfold iSauvola_globalStdDev. cbv zeta.
  rewrite length_replicate, (global_sums_uniform n v n) by (done || lia).
  cbn [gsum gsquares gcount].
  rewrite !div_of_Z by nia. rewrite mul_of_Z by nia.
  rewrite sub_diag_of_Z by nia. reflexivity.
Qed.

Lemma mul_NaN_r x : mul x NaN = NaN.
Proof. by destruct x as [| | |[] m e]. Qed.

Lemma iSauvola_formula_flat k m : iSauvola_formula k zero (mkLocalStats m zero zero) = NaN.
Proof.
  unfold iSauvola_formula. cbn [stdDev mean]. cbn zeta.
  assert (Math_max zero (Math_min one (div zero zero)) = NaN) as -> by reflexivity.
  assert (sub one NaN = NaN) as -> by reflexivity.
  rewrite mul_NaN_r.
  assert (forall y, mul NaN y = NaN) as -> by (by intros []).
  assert (add one NaN = NaN) as -> by reflexivity.
  apply mul_NaN_r.
Qed.

(** ISauvola on an image of one colour: the local and the global
    standard deviation are both 0, their ratio is 0/0 = NaN, the
    threshold is NaN at every pixel and the whole output is black, for
    every parameter k and every colour. *)
Theorem iSauvola_uniform_is_black img r g b k :
  uniform_image img r g b ->
  65025 * Z.of_nat (width img * height img) < 2 ^ 53 ->
  iSauvola_globalStdDev (toGrayscale img) = zero /\
  exists out, iSauvolaThreshold img k = Some out /\
    forall i, (i < width img * height img)%nat -> black_pixel out i.
Proof.
  intros Hu Hsz. unfold iSauvolaThreshold. cbn zeta.
  rewrite (toGrayscale_uniform img r g b Hu).
  set (v := ToUint8Clamp (luminance (of_Z r) (of_Z g) (of_Z b))).
  pose proof (ToUint8Clamp_range (luminance (of_Z r) (of_Z g) (of_Z b))) as Hv. fold v in Hv.
  destruct Hu as [(Hw & Hh & _) _].
  rewrite globalStdDev_uniform by (done || nia). split; [done|].
  eexists. split; [reflexivity|]. intros i Hi.
  pose proof (sweep_uniform v (width img) (height img)
    (fun x y => iSauvola_formula k zero
       (stats_at (replicate (width img * height img) v) (width img) (height img) x y))
    NaN i) as Hs.
  assert (classify (of_Z v) NaN = 0) as E by (unfold classify, gt; by destruct (of_Z v)).
  rewrite E in Hs. apply Hs; [|done].
  intros x y Hx Hy. rewrite uniform_stats_at by done. apply iSauvola_formula_flat.
Qed.

Lemma iSauvola_uniform_witness :
  iSauvola_globalStdDev (toGrayscale gray2x2) = zero /\
  exists out, iSauvolaThreshold gray2x2 iSauvola_default_k = Some out /\
    forall i, (i < width gray2x2 * height gray2x2)%nat -> black_pixel out i.
Proof.
  apply (iSauvola_uniform_is_black gray2x2 90 90 90 iSauvola_default_k);
    [apply uniform_gray2x2|cbn; lia].
Defined.

End ISauvolaUniform.
